(** * ImageNet downloader: a shallow embedding of [main.py]

    The development follows the source top to bottom:

    - [PosixPath]: the pieces of [os.path] that [extract_tar] and
      [download_tar] call ([join], [dirname], [commonpath]) and
      [str.startswith], written out from CPython's [posixpath];
    - [PositionManager]: the class of that name;
    - the world the program runs in (file system, network log, slot
      allocator, application log) and a state-and-exception monad over it;
    - [extract_tar], [download_tar], [download_batch].

    Conventions.  A Python [str]/[bytes] value is a [string] (a sequence of
    8-bit characters).  Python integers are [Z].  Paths are resolved
    lexically, as [os.path.normpath] does; the model has no symbolic links,
    permissions or disk quota.  Library calls the source makes ([tarfile],
    [PIL], [requests], the clock) are the fields of a record [Env].  The
    records [logger] writes are kept apart from the file system. *)

From Stdlib Require Import ZArith Ascii String.
From stdpp Require Import gmap strings list fin_maps sorting pretty.

Local Open Scope string_scope.
Local Open Scope list_scope.

(** ** Strings *)

(** [s.startswith(p)] *)
Fixpoint startswith (s p : string) {struct p} : bool :=
  match p with
  | EmptyString => true
  | String c p' =>
      match s with
      | EmptyString => false
      | String d s' => Ascii.eqb d c && startswith s' p'
      end
  end.

(** [s.endswith(p)] *)
Fixpoint endswith (s p : string) : bool :=
  String.eqb s p
  || match s with
     | EmptyString => false
     | String _ s' => endswith s' p
     end.

(** [s.split(sep)] for a one-character separator: never the empty list. *)
Fixpoint split (sep : ascii) (s : string) : list string :=
  match s with
  | EmptyString => [EmptyString]
  | String c s' =>
      if Ascii.eqb c sep then EmptyString :: split sep s'
      else match split sep s' with
           | [] => [String c EmptyString]
           | w :: ws => String c w :: ws
           end
  end.

(** [sep.join(parts)] *)
Fixpoint str_join (sep : string) (parts : list string) : string :=
  match parts with
  | [] => ""
  | [p] => p
  | p :: ps => p +:+ sep +:+ str_join sep ps
  end.

(** [if s:] on a string. *)
Definition nonempty (s : string) : bool :=
  match s with EmptyString => false | _ => true end.

(** Lexicographic order on lists of strings, as Python compares lists. *)
Fixpoint list_lt (a b : list string) : bool :=
  match a, b with
  | [], [] => false
  | [], _ :: _ => true
  | _ :: _, [] => false
  | x :: a', y :: b' =>
      match String.compare x y with
      | Lt => true
      | Gt => false
      | Eq => list_lt a' b'
      end
  end.

(** ** Exceptions

    Only the class of an exception and the path or text it carries are
    modelled; [str(e)] is a parameter further down. *)
Inductive exn : Type :=
  | ValueError (msg : string)
  | IndexError
  | FileExistsError (path : string)
  | FileNotFoundError (path : string)
  | NotADirectoryError (path : string)
  | IsADirectoryError (path : string)
  | ReadError (msg : string)
  | RequestException (msg : string)
  | PILError (msg : string).

Inductive res (A : Type) : Type :=
  | Ok (a : A)
  | Raise (e : exn).
Arguments Ok {A} a.
Arguments Raise {A} e.

Module PosixPath.

Definition sep : string := "/".
Definition sepc : ascii := "/"%char.
Definition curdir : string := ".".
Definition pardir : string := "..".

(** [posixpath.join(a, b)] with one tail component. *)
Definition join (a b : string) : string :=
  if startswith b sep || negb (nonempty a) then b
  else if endswith a sep then a +:+ b
  else a +:+ sep +:+ b.

(** Index one past the last separator of [p]: [p.rfind(sep) + 1]. *)
Fixpoint head_len (p : string) : nat :=
  match p with
  | EmptyString => 0
  | String c p' =>
      match head_len p' with
      | 0 => if Ascii.eqb c sepc then 1 else 0
      | S n => S (S n)
      end
  end.

Fixpoint all_sep (s : string) : bool :=
  match s with
  | EmptyString => true
  | String c s' => Ascii.eqb c sepc && all_sep s'
  end.

(** [s.rstrip(sep)] *)
Fixpoint rstrip_sep (s : string) : string :=
  match s with
  | EmptyString => EmptyString
  | String c s' =>
      match rstrip_sep s' with
      | EmptyString => if Ascii.eqb c sepc then EmptyString else String c EmptyString
      | r => String c r
      end
  end.

(** [posixpath.dirname(p)] *)
Definition dirname (p : string) : string :=
  let head := String.substring 0 (head_len p) p in
  if nonempty head && negb (all_sep head) then rstrip_sep head else head.

Definition py_min (a b : list string) : list string :=
  if list_lt b a then b else a.
Definition py_max (a b : list string) : list string :=
  if list_lt a b then b else a.

(** The loop of [commonpath]: the longest common prefix of [s1] and
    [s2], indexing [s2] as the source does. *)
Fixpoint common (s1 s2 : list string) : res (list string) :=
  match s1 with
  | [] => Ok []
  | c :: r1 =>
      match s2 with
      | [] => Raise IndexError
      | d :: r2 =>
          if String.eqb c d then
            match common r1 r2 with
            | Ok r => Ok (c :: r)
            | Raise e => Raise e
            end
          else Ok []
      end
  end.

Definition isabs (p : string) : bool := startswith p sep.

Definition keep (c : string) : bool :=
  nonempty c && negb (String.eqb c curdir).

(** [posixpath.commonpath(paths)] *)
Definition commonpath (paths : list string) : res string :=
  match paths with
  | [] => Raise (ValueError "commonpath() arg is an empty sequence")
  | p0 :: ps =>
      if forallb (fun p => Bool.eqb (isabs p) (isabs p0)) ps then
        let split_paths := map (fun p => filter (fun c => keep c = true) (split sepc p)) paths in
        match split_paths with
        | [] => Raise IndexError
        | x :: xs =>
            let s1 := fold_left py_min xs x in
            let s2 := fold_left py_max xs x in
            match common s1 s2 with
            | Ok c =>
                Ok ((if isabs p0 then sep else "") +:+ str_join sep c)
            | Raise e => Raise e
            end
        end
      else Raise (ValueError "Can't mix absolute and relative paths")
  end.

(** Where a path lands: the components left after dropping empty and
    [.] segments and letting [..] cancel the segment before it,
    starting from the root for an absolute path and from [cwd]
    for a relative one. *)
Definition walk (stack : list string) (c : string) : list string :=
  if String.eqb c "" || String.eqb c curdir then stack
  else if String.eqb c pardir then removelast stack
  else stack ++ [c].

Definition locate (cwd : list string) (p : string) : list string :=
  fold_left walk (split sepc p) (if isabs p then [] else cwd).

End PosixPath.

(** A single path component: not empty, no separator in it, and neither
    [.] nor [..]. *)
Fixpoint has_sep (s : string) : bool :=
  match s with
  | EmptyString => false
  | String c s' => Ascii.eqb c PosixPath.sepc || has_sep s'
  end.

Definition plain (c : string) : bool :=
  nonempty c && negb (has_sep c)
  && negb (String.eqb c PosixPath.curdir) && negb (String.eqb c PosixPath.pardir).

(** ** The slot allocator (class [PositionManager]) *)

Module PositionManager.

Record t : Type := Build {
  max_workers : Z;
  available : list Z;
  in_use : gmap string Z
}.

(** [list(range(n))] *)
Definition range (n : Z) : list Z := map Z.of_nat (seq 0 (Z.to_nat n)).

(** [__init__] *)
Definition init (max_workers : Z) : t :=
  {| max_workers := max_workers;
     available := range max_workers;
     in_use := ∅ |}.

(** [acquire]: the slot handed out and the allocator afterwards. *)
Definition acquire (task_id : string) (self : t) : Z * t :=
  match available self with
  | pos :: rest =>
      (pos, {| max_workers := max_workers self;
               available := rest;
               in_use := <[task_id := pos]> (in_use self) |})
  | [] => (0%Z, self)
  end.

(** [release] *)
Definition release (task_id : string) (self : t) : t :=
  match in_use self !! task_id with
  | Some pos =>
      {| max_workers := max_workers self;
         available := merge_sort Z.le (available self ++ [pos]);
         in_use := delete task_id (in_use self) |}
  | None => self
  end.

(** The calls a client can make, and a run of them.  Every method body
    executes under [self.lock], so calls from different threads take
    effect one after the other. *)
Inductive call : Type :=
  | Acquire (task_id : string)
  | Release (task_id : string).

Definition step (self : t) (c : call) : t :=
  match c with
  | Acquire task_id => snd (acquire task_id self)
  | Release task_id => release task_id self
  end.

Definition run (calls : list call) (self : t) : t := fold_left step calls self.

(** What every allocator reached from [init n] satisfies. *)
Definition inv (n : Z) (self : t) : Prop :=
  Sorted Z.le (available self)
  ∧ Forall (fun x => 0 ≤ x < n)%Z (available self)
  ∧ map_Forall (fun _ x => 0 ≤ x < n)%Z (in_use self).

End PositionManager.

(** ** The world *)

Inductive node : Type :=
  | File (content : string)
  | Dir.

(** A log record of the [logging] module. *)
Inductive level : Type := INFO | WARNING | ERROR.

Record world : Type := World {
  fs : gmap (list string) node;      (* the file system, by located path *)
  requests : list string;            (* URLs handed to [session.get], oldest first *)
  manager : PositionManager.t;       (* the shared [position_manager] *)
  app_log : list (level * string)    (* records sent to [logger] *)
}.

Definition M (A : Type) : Type := world → res A * world.

Definition ret {A} (a : A) : M A := fun w => (Ok a, w).
Definition raise {A} (e : exn) : M A := fun w => (Raise e, w).
Definition bind {A B} (m : M A) (k : A → M B) : M B :=
  fun w => match m w with
           | (Ok a, w') => k a w'
           | (Raise e, w') => (Raise e, w')
           end.
(** [try: m except Exception as e: h e] *)
Definition try_except {A} (m : M A) (h : exn → M A) : M A :=
  fun w => match m w with
           | (Ok a, w') => (Ok a, w')
           | (Raise e, w') => h e w'
           end.
(** [try: m finally: f] *)
Definition try_finally {A} (m : M A) (f : M unit) : M A :=
  fun w => match m w with
           | (r, w') =>
               match f w' with
               | (Ok _, w'') => (r, w'')
               | (Raise e, w'') => (Raise e, w'')
               end
           end.
Definition lift {A} (r : res A) : M A := fun w => (r, w).

Notation "x <~ m ;; k" := (bind m (fun x => k))
  (at level 100, m at next level, right associativity).
Notation "m ;;; k" := (bind m (fun _ => k))
  (at level 100, right associativity).

Definition set_fs (f : gmap (list string) node) (w : world) : world :=
  {| fs := f; requests := requests w; manager := manager w; app_log := app_log w |}.

Definition logger (l : level) (msg : string) : M unit :=
  fun w => (Ok tt, {| fs := fs w; requests := requests w; manager := manager w;
                      app_log := app_log w ++ [(l, msg)] |}).

(** ** The file system

    The root is a directory and is never stored. *)
Definition node_at (f : gmap (list string) node) (k : list string) : option node :=
  match k with
  | [] => Some Dir
  | _ => f !! k
  end.

Definition exists_at (f : gmap (list string) node) (k : list string) : bool :=
  match node_at f k with
  | Some _ => true
  | None => false
  end.

(** A well-formed tree: whatever exists sits in a directory. *)
Definition fs_wf (f : gmap (list string) node) : Prop :=
  ∀ k n, f !! k = Some n → node_at f (removelast k) = Some Dir.

Global Instance node_eq_dec : EqDecision node.
Proof. solve_decision. Defined.

(** The same, as a test that can be run on a given tree. *)
Definition fs_wfb (f : gmap (list string) node) : bool :=
  bool_decide (map_Forall (fun k _ => node_at f (removelast k) = Some Dir) f).

(** The walk of [os.makedirs(_, exist_ok=True)] down the components of a
    path: a missing directory is created, a directory is entered, a file
    in the way raises. *)
Fixpoint mkdirs (p : string) (pre rest : list string)
    (f : gmap (list string) node) : res unit * gmap (list string) node :=
  match rest with
  | [] => (Ok tt, f)
  | c :: rest' =>
      let k := pre ++ [c] in
      match f !! k with
      | Some Dir => mkdirs p k rest' f
      | Some (File _) =>
          match rest' with
          | [] => (Raise (FileExistsError p), f)
          | _ => (Raise (NotADirectoryError p), f)
          end
      | None => mkdirs p k rest' (<[k := Dir]> f)
      end
  end.

(** [open(p, mode)] for writing: [truncate] for "w"/"wb", not for "a". *)
Definition open_key (truncate : bool) (p : string) (k : list string)
    (f : gmap (list string) node) : res (gmap (list string) node) :=
  match k with
  | [] => Raise (IsADirectoryError p)
  | _ =>
      match node_at f (removelast k) with
      | Some Dir =>
          match f !! k with
          | Some Dir => Raise (IsADirectoryError p)
          | Some (File old) => Ok (if truncate then <[k := File ""]> f else f)
          | None => Ok (<[k := File ""]> f)
          end
      | Some (File _) => Raise (NotADirectoryError p)
      | None => Raise (FileNotFoundError p)
      end
  end.

(** [f.write(data)] on a file opened at [k]. *)
Definition write_key (k : list string) (data : string)
    (f : gmap (list string) node) : gmap (list string) node :=
  match f !! k with
  | Some (File old) => <[k := File (old +:+ data)]> f
  | _ => <[k := File data]> f
  end.

(** [shutil.rmtree]: the directory and everything below it. *)
Definition remove_tree (k : list string)
    (f : gmap (list string) node) : gmap (list string) node :=
  filter (fun kv => ¬ k `prefix_of` kv.1) f.

(** ** Library values *)

(** A member of an archive as [tarfile] presents it: its name, whether
    [isfile()] holds, and what [tar.extractfile(member)] gives: [None],
    or a stream whose [read()] returns the entry's bytes or raises. *)
Record TarInfo : Type := {
  name : string;
  isfile : bool;
  extractfile : option (res string)
}.

(** The stream returned by [extractfile]: its content and read offset. *)
Record ExFile : Type := {
  data : res string;
  position : nat
}.

(** [extracted.read()]: the bytes from the offset on; the offset moves to
    the end. *)
Definition read (f : ExFile) : res string * ExFile :=
  match data f with
  | Ok b =>
      (Ok (String.substring (position f) (String.length b - position f) b),
       {| data := data f; position := String.length b |})
  | Raise e => (Raise e, f)
  end.

(** [extracted.seek(n)] *)
Definition seek (n : nat) (f : ExFile) : ExFile :=
  {| data := data f; position := n |}.

(** What [session.get] followed by [raise_for_status] and the header
    look-up gives: an exception before the archive file is opened, or a
    body delivered in chunks, possibly cut short by an exception. *)
Inductive response : Type :=
  | HttpFail (e : exn)
  | HttpBody (chunks : list string) (broken : option exn).

(** The dictionary [download_tar] returns. *)
Record result : Type := {
  part_id : string;
  success : bool;
  error : option string;
  skipped : bool
}.

Module Stats.
(** The dictionary [download_batch] returns. *)
Record t : Type := Build {
  success : Z;
  failed : Z;
  skipped : Z
}.
End Stats.

(** What the program takes from its libraries and its surroundings. *)
Record Env : Type := {
  image : Type;
  cwd : list string;                                   (* where [os.getcwd()] is *)
  str : exn → string;                                  (* [str(e)] *)
  now_isoformat : string;                              (* [datetime.now().isoformat()] *)
  session_get : nat → string → response;               (* by number of earlier requests *)
  tarfile_open : string → res (list TarInfo);          (* [tarfile.open] and [getmembers] *)
  Image_open : string → res image;
  Image_convert : image → string → res image;
  Image_resize : image → Z * Z → string → res image;
  Image_save : image → string → Z → res string;        (* the encoder behind [img.save] *)
  as_completed : list (string * res result) → list (string * res result)
}.

(** [if target_path:] *)
Definition truthy (o : option string) : bool :=
  match o with
  | Some s => nonempty s
  | None => false
  end.

Definition marker_name : string := ".download_complete".

Section Program.
Context (E : Env).

Definition getcwd : string := "/" +:+ str_join "/" (cwd E).

Definition key (p : string) : list string := PosixPath.locate (cwd E) p.

Definition os_path_exists (p : string) : M bool :=
  fun w => (Ok (exists_at (fs w) (key p)), w).

Definition os_makedirs (p : string) : M unit :=
  fun w =>
    if nonempty p then
      match mkdirs p [] (key p) (fs w) with
      | (r, f) => (r, set_fs f w)
      end
    else (Raise (FileNotFoundError p), w).

Definition open_for_write (truncate : bool) (p : string) : M (list string) :=
  fun w =>
    match open_key truncate p (key p) (fs w) with
    | Ok f => (Ok (key p), set_fs f w)
    | Raise e => (Raise e, w)
    end.

Definition f_write (k : list string) (bytes : string) : M unit :=
  fun w => (Ok tt, set_fs (write_key k bytes (fs w)) w).

Definition os_remove (p : string) : M unit :=
  fun w =>
    match node_at (fs w) (key p) with
    | Some (File _) => (Ok tt, set_fs (delete (key p) (fs w)) w)
    | Some Dir => (Raise (IsADirectoryError p), w)
    | None => (Raise (FileNotFoundError p), w)
    end.

Definition shutil_rmtree (p : string) : M unit :=
  fun w =>
    match node_at (fs w) (key p) with
    | Some Dir => (Ok tt, set_fs (remove_tree (key p) (fs w)) w)
    | Some (File _) => (Raise (NotADirectoryError p), w)
    | None => (Raise (FileNotFoundError p), w)
    end.

(** The bytes [tarfile.open(p)] reads. *)
Definition read_file (p : string) : M string :=
  fun w =>
    match node_at (fs w) (key p) with
    | Some (File b) => (Ok b, w)
    | Some Dir => (Raise (IsADirectoryError p), w)
    | None => (Raise (FileNotFoundError p), w)
    end.

(** [img.save(p, format=fmt, quality=q)]: the file is opened, then the
    encoder runs; a file the call created is removed when it fails. *)
Definition img_save (img : image E) (p fmt : string) (q : Z) : M unit :=
  created <~ (existed <~ os_path_exists p ;; ret (negb existed)) ;;
  f <~ open_for_write true p ;;
  match Image_save E img fmt q with
  | Ok bytes => f_write f bytes
  | Raise e =>
      (if created then try_except (os_remove p) (fun _ => ret tt) else ret tt) ;;;
      raise e
  end.

(** *** [extract_tar] *)

(** Lines 137-143, the body of the inner [try]; [bytes] is what the
    [extracted.read()] of line 137 gave. *)
Definition convert_image (bytes : res string) (member_path : string) : M unit :=
  b <~ lift bytes ;;
  img <~ lift (Image_open E b) ;;
  img <~ lift (Image_convert E img "RGB") ;;
  img <~ lift (Image_resize E img (256, 256)%Z "LANCZOS") ;;
  os_makedirs (PosixPath.dirname member_path) ;;;
  img_save img member_path "JPEG" 95.

(** Lines 146-149, the handler of the inner [try]. *)
Definition copy_raw (extracted : ExFile) (member_path : string) : M unit :=
  os_makedirs (PosixPath.dirname member_path) ;;;
  f <~ open_for_write true member_path ;;
  let extracted := seek 0 extracted in
  b <~ lift (fst (read extracted)) ;;
  f_write f b.

(** Lines 123-151, one turn of the loop over the members. *)
Definition extract_member (dest_folder : string) (member : TarInfo) : M unit :=
  let member_path := PosixPath.join dest_folder (name member) in
  cp <~ lift (PosixPath.commonpath [dest_folder; member_path]) ;;
  if negb (startswith cp dest_folder) then ret tt
  else
    match extractfile member with
    | None => ret tt
    | Some payload =>
        let extracted := {| data := payload; position := 0 |} in
        let bytes := fst (read extracted) in
        let extracted := snd (read extracted) in
        try_except (convert_image bytes member_path)
                   (fun _ => copy_raw extracted member_path)
    end.

Fixpoint extract_members (dest_folder : string) (members : list TarInfo) : M unit :=
  match members with
  | [] => ret tt
  | member :: rest =>
      extract_member dest_folder member ;;;
      extract_members dest_folder rest
  end.

Definition dest_folder_of (part_id tar_path : string) (target_path : option string) : string :=
  match target_path with
  | Some t =>
      if nonempty t then PosixPath.join t part_id
      else PosixPath.join (PosixPath.dirname tar_path) part_id
  | None => PosixPath.join (PosixPath.dirname tar_path) part_id
  end.

Definition extract_tar (part_id tar_path : string) (target_path : option string) : M unit :=
  let dest_folder := dest_folder_of part_id tar_path target_path in
  os_makedirs dest_folder ;;;
  try_except
    (archive <~ read_file tar_path ;;
     all <~ lift (tarfile_open E archive) ;;
     let members := filter (fun m => isfile m = true) all in
     extract_members dest_folder members)
    (fun e =>
       logger ERROR ("Failed to extract " +:+ tar_path +:+ ": " +:+ str E e) ;;;
       raise e).

(** *** [download_tar] *)

Definition nl : string := String (ascii_of_nat 10) "".

Definition set_manager (pm : PositionManager.t) (w : world) : world :=
  {| fs := fs w; requests := requests w; manager := pm; app_log := app_log w |}.

Definition position_manager_acquire (task_id : string) : M Z :=
  fun w =>
    (Ok (fst (PositionManager.acquire task_id (manager w))),
     set_manager (snd (PositionManager.acquire task_id (manager w))) w).

Definition position_manager_release (task_id : string) : M unit :=
  fun w => (Ok tt, set_manager (PositionManager.release task_id (manager w)) w).

(** [session.get(url, ...)]: the request is recorded, the answer is the
    environment's. *)
Definition session_get_stream (url : string) : M response :=
  fun w =>
    (Ok (session_get E (length (requests w)) url),
     {| fs := fs w; requests := requests w ++ [url];
        manager := manager w; app_log := app_log w |}).

(** Lines 246-249. *)
Fixpoint write_chunks (f : list string) (chunks : list string) : M unit :=
  match chunks with
  | [] => ret tt
  | chunk :: rest =>
      (if nonempty chunk then f_write f chunk else ret tt) ;;;
      write_chunks f rest
  end.

(** Lines 227-249: the download into the local archive file. *)
Definition fetch (tar_url tar_path : string) : M unit :=
  r <~ session_get_stream tar_url ;;
  match r with
  | HttpFail e => raise e
  | HttpBody chunks broken =>
      f <~ open_for_write true tar_path ;;
      write_chunks f chunks ;;;
      match broken with
      | Some e => raise e
      | None => ret tt
      end
  end.

(** Lines 212-221: what an interrupted run left behind is removed. *)
Definition cleanup_stale (part_id extract_dir tar_path : string) : M unit :=
  stale_dir <~ os_path_exists extract_dir ;;
  (if stale_dir then
     logger INFO ("Resuming " +:+ part_id +:+ " - cleaning up incomplete extraction") ;;;
     shutil_rmtree extract_dir
   else ret tt) ;;;
  stale_tar <~ os_path_exists tar_path ;;
  (if stale_tar then
     logger INFO ("Removing partial tar file: " +:+ tar_path) ;;;
     os_remove tar_path
   else ret tt).

(** Lines 254-258. *)
Definition write_completion_marker (base_dir part_id : string) : M unit :=
  let extract_dir := PosixPath.join base_dir part_id in
  let completion_marker := PosixPath.join extract_dir marker_name in
  f <~ open_for_write true completion_marker ;;
  f_write f ("Completed at: " +:+ now_isoformat E +:+ nl).

(** Lines 227-269, the body of the inner [try].  [logger.debug] leaves
    no record at the configured level. *)
Definition process (part_id : string) (target_path : option string)
    (base_dir tar_url tar_path filename : string) (delete_tar : bool) : M result :=
  fetch tar_url tar_path ;;;
  extract_tar part_id tar_path target_path ;;;
  write_completion_marker base_dir part_id ;;;
  (if delete_tar then
     try_except (os_remove tar_path)
       (fun e => logger WARNING ("Could not delete " +:+ filename +:+ ": " +:+ str E e))
   else ret tt) ;;;
  logger INFO ("Successfully processed " +:+ part_id) ;;;
  ret {| part_id := part_id; success := true; error := None; skipped := false |}.

(** Lines 275-292, the handler of the outer [try]. *)
Definition on_failure (part_id log_file tar_path : string) (e : exn) : M result :=
  let error_msg := part_id +:+ " - " +:+ str E e in
  (log <~ open_for_write false log_file ;; f_write log (error_msg +:+ nl)) ;;;
  logger ERROR ("Failed to download " +:+ part_id +:+ ": " +:+ str E e) ;;;
  left_over <~ os_path_exists tar_path ;;
  (if left_over then try_except (os_remove tar_path) (fun _ => ret tt) else ret tt) ;;;
  ret {| part_id := part_id; success := false; error := Some (str E e); skipped := false |}.

(** Lines 223-273: the slot is taken, the item is processed, the slot
    is given back whatever happened. *)
Definition fresh_download (part_id : string) (target_path : option string)
    (base_dir tar_url tar_path filename : string) (delete_tar : bool) : M result :=
  position <~ position_manager_acquire part_id ;;
  try_finally
    (process part_id target_path base_dir tar_url tar_path filename delete_tar)
    (position_manager_release part_id).

Definition base_dir_of (target_path : option string) : string :=
  match target_path with
  | Some t => if nonempty t then t else getcwd
  | None => getcwd
  end.

(** The paths [download_tar] computes for an item. *)
Definition extract_dir_of (part_id : string) (target_path : option string) : string :=
  PosixPath.join (base_dir_of target_path) part_id.
Definition completion_marker_of (part_id : string) (target_path : option string) : string :=
  PosixPath.join (extract_dir_of part_id target_path) marker_name.
Definition tar_path_of (part_id : string) (target_path : option string) : string :=
  PosixPath.join (base_dir_of target_path) (part_id +:+ ".tar").
Definition log_file_of (target_path : option string) : string :=
  PosixPath.join (base_dir_of target_path) "failed_downloads.log".

Definition download_tar (part_id : string) (target_path : option string)
    (main_link : string) (delete_tar : bool) : M result :=
  let base_dir := base_dir_of target_path in
  os_makedirs base_dir ;;;
  let log_file := PosixPath.join base_dir "failed_downloads.log" in
  let tar_url := main_link +:+ "/" +:+ part_id +:+ ".tar" in
  let filename := part_id +:+ ".tar" in
  let tar_path := PosixPath.join base_dir filename in
  try_except
    (let extract_dir := PosixPath.join base_dir part_id in
     let completion_marker := PosixPath.join extract_dir marker_name in
     done_before <~ os_path_exists completion_marker ;;
     if done_before then
       logger INFO ("Skipping " +:+ part_id +:+ " - already completed") ;;;
       ret {| part_id := part_id; success := true; error := None; skipped := true |}
     else
       cleanup_stale part_id extract_dir tar_path ;;;
       fresh_download part_id target_path base_dir tar_url tar_path filename delete_tar)
    (on_failure part_id log_file tar_path).

(** *** [download_batch] *)

(** The pool: every submitted call runs to its end and leaves its
    outcome, a returned dictionary or the exception that escaped, in its
    future.  The calls are run here one after the other in the order of
    submission. *)
Fixpoint run_pool (part_ids : list string) (target_path main_link : string)
    (delete_tar : bool) (w : world) : list (string * res result) * world :=
  match part_ids with
  | [] => ([], w)
  | part_id :: rest =>
      match download_tar part_id (Some target_path) main_link delete_tar w with
      | (outcome, w') =>
          match run_pool rest target_path main_link delete_tar w' with
          | (futures, w'') => ((part_id, outcome) :: futures, w'')
          end
      end
  end.

(** Lines 396-410, one turn of the loop over the completed futures. *)
Definition tally_one (stats : Stats.t) (future : string * res result) : M Stats.t :=
  match future.2 with
  | Ok result =>
      if skipped result then
        ret (Stats.Build (Stats.success stats) (Stats.failed stats) (Stats.skipped stats + 1))
      else if success result then
        ret (Stats.Build (Stats.success stats + 1) (Stats.failed stats) (Stats.skipped stats))
      else
        ret (Stats.Build (Stats.success stats) (Stats.failed stats + 1) (Stats.skipped stats))
  | Raise e =>
      logger ERROR ("Unexpected error processing " +:+ future.1 +:+ ": " +:+ str E e) ;;;
      ret (Stats.Build (Stats.success stats) (Stats.failed stats + 1) (Stats.skipped stats))
  end.

Fixpoint tally (completed : list (string * res result)) (stats : Stats.t) : M Stats.t :=
  match completed with
  | [] => ret stats
  | future :: rest =>
      stats' <~ tally_one stats future ;;
      tally rest stats'
  end.

(** What is printed to the terminal is left out; [ThreadPoolExecutor]
    refuses a pool without workers. *)
Definition download_batch (part_ids : list string) (target_path : string)
    (num_workers : Z) (delete_tar : bool) (main_link : string) : M Stats.t :=
  match part_ids with
  | [] =>
      logger ERROR "No part IDs provided" ;;;
      ret (Stats.Build 0 0 0)
  | _ =>
      logger INFO ("Starting batch download of " +:+ pretty (length part_ids)
                   +:+ " classes with " +:+ pretty num_workers +:+ " workers") ;;;
      logger INFO ("Target directory: " +:+ target_path) ;;;
      logger INFO ("Delete tar files: " +:+ (if delete_tar then "True" else "False")) ;;;
      (fun w => (Ok tt, set_manager (PositionManager.init num_workers) w)) ;;;
      if (num_workers <=? 0)%Z then
        raise (ValueError "max_workers must be greater than 0")
      else
        futures <~ (fun w =>
                      match run_pool part_ids target_path main_link delete_tar w with
                      | (futures, w') => (Ok futures, w')
                      end) ;;
        tally (as_completed E futures) (Stats.Build 0 0 0)
  end.

End Program.

(** ** A concrete environment

    Used to run the program on explicit archives.  An "image" is any byte
    string that starts with [IMG]; the encoder prefixes [JPEG:]. *)

Definition demo_str (e : exn) : string :=
  match e with
  | ValueError m => m
  | IndexError => "list index out of range"
  | FileExistsError p => "File exists: " +:+ p
  | FileNotFoundError p => "No such file or directory: " +:+ p
  | NotADirectoryError p => "Not a directory: " +:+ p
  | IsADirectoryError p => "Is a directory: " +:+ p
  | ReadError m => m
  | RequestException m => m
  | PILError m => m
  end.

Definition demo_env (net : nat → string → response)
    (tar : string → res (list TarInfo)) : Env :=
  {| image := string;
     cwd := [];
     str := demo_str;
     now_isoformat := "2024-01-01T00:00:00";
     session_get := net;
     tarfile_open := tar;
     Image_open := fun b => if startswith b "IMG" then Ok b
                            else Raise (PILError "cannot identify image file");
     Image_convert := fun img mode => Ok img;
     Image_resize := fun img size resample => Ok img;
     Image_save := fun img fmt q => Ok ("JPEG:" +:+ img);
     as_completed := fun futures => futures |}.

(** An output root [/out] with nothing in it. *)
Definition fresh_world : world :=
  {| fs := {[ ["out"] := Dir ]};
     requests := [];
     manager := PositionManager.init 2;
     app_log := [] |}.

Definition serve (chunks : list string) (_ : nat) (_ : string) : response :=
  HttpBody chunks None.

Definition entry (n payload : string) : TarInfo :=
  {| name := n; isfile := true; extractfile := Some (Ok payload) |}.

(** [/out] with the archive of item [n001] already stored. *)
Definition stored_archive_world : world :=
  {| fs := <[ ["out"; "n001.tar"] := File "archive" ]> {[ ["out"] := Dir ]};
     requests := [];
     manager := PositionManager.init 2;
     app_log := [] |}.

(** An entry that climbs out of the item's directory, then a harmless one. *)
Definition traversal_archive : list TarInfo :=
  [entry "../evil.txt" "pwned"; entry "ok.txt" "hello"].

(** An entry named like the completion marker, then a file [x] and an
    entry [x/y] that needs [x] to be a directory. *)
Definition marker_archive : list TarInfo :=
  [entry ".download_complete" "fake"; entry "x" "data"; entry "x/y" "more"].

(** Three images; the second needs the first to be a directory. *)
Definition clash_archive : list TarInfo :=
  [entry "a" "IMGone"; entry "a/b" "IMGtwo"; entry "c" "IMGthree"].

(** A plain archive: an image under a [.png] name and a text file. *)
Definition plain_archive : list TarInfo :=
  [entry "photo.png" "IMGpixels"; entry "notes.txt" "hello"].

(** [/out] after a run that completed item [n001]. *)
Definition completed_world : world :=
  {| fs := <[ ["out"; "n001"; ".download_complete"] := File "Completed at: earlier" ]>
           (<[ ["out"; "n001"] := Dir ]> {[ ["out"] := Dir ]});
     requests := [];
     manager := PositionManager.init 2;
     app_log := [] |}.

(** [/out] after a run that was interrupted while it worked on [n001]. *)
Definition stale_world : world :=
  {| fs := <[ ["out"; "n001.tar"] := File "partial" ]>
           (<[ ["out"; "n001"; "old.jpg"] := File "old" ]>
            (<[ ["out"; "n001"] := Dir ]> {[ ["out"] := Dir ]}));
     requests := [];
     manager := PositionManager.init 2;
     app_log := [] |}.

Definition demo_plain : Env := demo_env (serve ["archive"]) (fun _ => Ok plain_archive).
Definition demo_traversal : Env := demo_env (serve ["archive"]) (fun _ => Ok traversal_archive).
Definition demo_marker : Env := demo_env (serve ["archive"]) (fun _ => Ok marker_archive).
Definition demo_clash : Env := demo_env (serve ["archive"]) (fun _ => Ok clash_archive).
Definition demo_broken : Env :=
  demo_env (serve ["not a tar"])
    (fun _ => Raise (ReadError "file could not be opened successfully")).

(** ** Vocabulary of the statements *)

Section Vocabulary.
Context (E : Env).

Definition total (s : Stats.t) : Z :=
  (Stats.success s + Stats.failed s + Stats.skipped s)%Z.

Definition skipped_result (part_id : string) : result :=
  {| part_id := part_id; success := true; error := None; skipped := true |}.

Definition failed_result (part_id : string) (e : exn) : result :=
  {| part_id := part_id; success := false; error := Some (str E e); skipped := false |}.

(** The line a failure leaves in [failed_downloads.log]. *)
Definition failure_line (part_id : string) (e : exn) : string :=
  (part_id +:+ " - " +:+ str E e) +:+ nl.

(** An item with a plain name whose completion marker is in the tree. *)
Definition carries_marker (target_path : string) (f : gmap (list string) node)
    (part_id : string) : Prop :=
  plain part_id = true
  ∧ exists_at f (key E (completion_marker_of E part_id (Some target_path))) = true.

(** An entry passes the check of line 126. *)
Definition passes_check (dest_folder : string) (member : TarInfo) : Prop :=
  ∃ cp, PosixPath.commonpath [dest_folder; PosixPath.join dest_folder (name member)] = Ok cp
        ∧ startswith cp dest_folder = true.

(** The stream [extractfile] returns, at offset 0. *)
Definition stream (payload : res string) : ExFile :=
  {| data := payload; position := 0 |}.


(** A computation leaves the file at [k] as it is. *)
Definition keeps_file {A} (k : list string) (b : string) (m : M A) : Prop :=
  ∀ w r w', m w = (r, w') → fs w !! k = Some (File b) → fs w' !! k = Some (File b).

(** There is a regular file at [k], whatever it holds. *)
Definition is_file_at (f : gmap (list string) node) (k : list string) : Prop :=
  ∃ b, f !! k = Some (File b).

(** A computation leaves a regular file at [k] a regular file. *)
Definition keeps_a_file {A} (k : list string) (m : M A) : Prop :=
  ∀ w r w', m w = (r, w') → is_file_at (fs w) k → is_file_at (fs w') k.

End Vocabulary.

(** ** More vocabulary: the slot allocator *)

(** No slot is free twice, no slot is both free and held, no two owners
    hold the same slot, and every slot lies in [[0, n)]. *)
Definition slots_exclusive (n : Z) (self : PositionManager.t) : Prop :=
  NoDup (PositionManager.available self)
  ∧ Forall (fun x => 0 ≤ x < n)%Z (PositionManager.available self)
  ∧ (∀ o p, PositionManager.in_use self !! o = Some p →
            (p ∉ PositionManager.available self) ∧ (0 ≤ p < n)%Z)
  ∧ (∀ o1 o2 p, PositionManager.in_use self !! o1 = Some p →
                PositionManager.in_use self !! o2 = Some p → o1 = o2).

(** A slot the allocator still knows: free, or held by some owner. *)
Definition slot_known (p : Z) (self : PositionManager.t) : Prop :=
  p ∈ PositionManager.available self
  ∨ (∃ o, PositionManager.in_use self !! o = Some p).

(** ** More vocabulary: the tally *)

(** Which counter a completed future moves. *)
Inductive counter : Type := CountSuccess | CountFailed | CountSkipped.

Global Instance counter_eq_dec : EqDecision counter.
Proof. solve_decision. Defined.

Definition counter_of (future : string * res result) : counter :=
  match future.2 with
  | Ok r => if skipped r then CountSkipped
            else if success r then CountSuccess else CountFailed
  | Raise _ => CountFailed
  end.

Definition count (c : counter) (completed : list (string * res result)) : Z :=
  Z.of_nat (length (filter (fun future => counter_of future = c) completed)).

(** ** More vocabulary: what a computation preserves *)

(** Every run of [m] relates the world before to the world after by [P]. *)
Definition preserves {A} (P : world → world → Prop) (m : M A) : Prop :=
  ∀ w r w', m w = (r, w') → P w w'.

(** No request is sent. *)
Definition same_requests (w w' : world) : Prop := requests w' = requests w.

(** The slot allocator is left alone. *)
Definition same_manager (w w' : world) : Prop := manager w' = manager w.

(** The file system is left alone. *)
Definition same_fs (w w' : world) : Prop := fs w' = fs w.

(** Exactly the request for [url] is sent. *)
Definition one_request (url : string) (w w' : world) : Prop :=
  requests w' = requests w ++ [url].

(** A well-formed tree stays well formed. *)
Definition wf_kept (w w' : world) : Prop := fs_wf (fs w) → fs_wf (fs w').

(** What exists at [k] is not removed (it may be overwritten). *)
Definition still_there (k : list string) (w w' : world) : Prop :=
  exists_at (fs w) k = true → exists_at (fs w') k = true.

(** The bytes of the chunks of a response, in order. *)
Definition joined (chunks : list string) : string :=
  fold_right String.append "" chunks.

(** A relation that does not look at the file system or at the
    application log. *)
Definition blind (P : world → world → Prop) : Prop :=
  (∀ w, P w w)
  ∧ (∀ w f, P w (set_fs f w))
  ∧ (∀ w l msg, P w (logger l msg w).2).

(** ** More concrete runs *)

(** A network that refuses every request. *)
Definition demo_offline : Env :=
  demo_env (fun _ _ => HttpFail (RequestException "connection refused"))
    (fun _ => Ok plain_archive).

(** [/out] where a directory sits at the path of the failure log. *)
Definition log_blocked_world : world :=
  {| fs := <[ ["out"; "failed_downloads.log"] := Dir ]> {[ ["out"] := Dir ]};
     requests := [];
     manager := PositionManager.init 2;
     app_log := [] |}.

(** ** The status report ([check_resume_status]) *)

Section Resume.
Context (E : Env).

(** Lines 436-448 of [check_resume_status]: the loop that sorts the part
    ids into [completed] and [pending] by their completion marker. *)
Fixpoint classify (part_ids : list string) (target_path : string)
    (completed pending : list string) : M (list string * list string) :=
  match part_ids with
  | [] => ret (completed, pending)
  | part_id :: rest =>
      let extract_dir := PosixPath.join target_path part_id in
      let completion_marker := PosixPath.join extract_dir marker_name in
      there <~ os_path_exists E completion_marker ;;
      if there then classify rest target_path (completed ++ [part_id]) pending
      else classify rest target_path completed (pending ++ [part_id])
  end.

(** The marker of [part_id] under [target_path] is in the tree [f]. *)
Definition marked (target_path : string) (f : gmap (list string) node)
    (part_id : string) : Prop :=
  exists_at f (key E (PosixPath.join (PosixPath.join target_path part_id) marker_name))
  = true.

Global Instance marked_dec (target_path : string) (f : gmap (list string) node)
    (part_id : string) : Decision (marked target_path f part_id).
Proof. unfold marked. apply _. Defined.

End Resume.

(** * Facts *)

(** ** Paths *)

Module PathFacts.
Import PosixPath.

Lemma app_cons (c : ascii) (a b : string) : String c a +:+ b = String c (a +:+ b).
Proof. reflexivity. Qed.

Lemma app_nil_l (b : string) : "" +:+ b = b.
Proof. reflexivity. Qed.

Lemma split_not_nil (c : ascii) (s : string) : split c s ≠ [].
Proof.
  destruct s as [|x s]; simpl; [done|].
  destruct (Ascii.eqb x c); [done|]. by destruct (split c s).
Qed.

Lemma split_plain (s : string) : has_sep s = false → split sepc s = [s].
Proof.
  induction s as [|x s IH]; simpl; [done|].
  intros [Hx Hs]%orb_false_iff. rewrite Hx, (IH Hs). done.
Qed.

Lemma split_app_sep (a b : string) :
  split sepc (a +:+ sep +:+ b) = split sepc a ++ split sepc b.
Proof.
  induction a as [|x a IH].
  - reflexivity.
  - rewrite app_cons. simpl. rewrite IH.
    destruct (Ascii.eqb x sepc); [done|].
    pose proof (split_not_nil sepc a). by destruct (split sepc a).
Qed.

Lemma endswith_sep (a : string) :
  endswith a sep = true → ∃ a', a = a' +:+ sep.
Proof.
  induction a as [|x a IH]; [done|].
  change (endswith (String x a) sep)
    with (String.eqb (String x a) sep || endswith a sep).
  intros [H|H]%orb_true_iff.
  - apply String.eqb_eq in H. exists "". by rewrite H.
  - destruct (IH H) as [a' ->]. by exists (String x a').
Qed.

Lemma isabs_app (a b : string) : nonempty a = true → isabs (a +:+ b) = isabs a.
Proof.
  destruct a as [|x a]; [done|]. intros _.
  unfold isabs, sep. rewrite app_cons. reflexivity.
Qed.

Lemma plain_not_abs (c : string) : plain c = true → startswith c sep = false.
Proof.
  unfold plain. destruct c as [|x c]; [done|]. simpl.
  unfold sepc. destruct (Ascii.eqb x "/"); done.
Qed.

Lemma walk_plain (stack : list string) (c : string) :
  plain c = true → walk stack c = stack ++ [c].
Proof.
  unfold plain, walk. intros H.
  repeat (apply andb_true_iff in H as [H ?]).
  destruct c as [|x c]; [done|].
  apply negb_true_iff in H0, H1. unfold curdir, pardir in *.
  rewrite H0, H1. done.
Qed.

Lemma plain_has_no_sep (c : string) : plain c = true → has_sep c = false.
Proof.
  unfold plain. intros H. repeat (apply andb_true_iff in H as [H ?]).
  by apply negb_true_iff.
Qed.

(** Joining a single component onto a path goes one level down. *)
Lemma locate_join (cwd : list string) (a c : string) :
  nonempty a = true → plain c = true →
  locate cwd (join a c) = locate cwd a ++ [c].
Proof.
  intros Ha Hc. unfold join.
  rewrite (plain_not_abs c Hc), Ha. simpl.
  pose proof (split_plain c (plain_has_no_sep c Hc)) as Hs.
  destruct (endswith a sep) eqn:He.
  - destruct (endswith_sep a He) as [a' ->].
    unfold locate.
    assert (Habs : isabs ((a' +:+ sep) +:+ c) = isabs (a' +:+ sep))
      by (by apply isabs_app).
    rewrite Habs.
    replace ((a' +:+ sep) +:+ c) with (a' +:+ sep +:+ c).
    2:{ clear. induction a' as [|x a' IH]; [done|]. rewrite !app_cons. by f_equal. }
    replace (a' +:+ sep) with (a' +:+ sep +:+ "") at 2.
    2:{ clear. induction a' as [|x a' IH]; [done|]. rewrite !app_cons. by f_equal. }
    rewrite !split_app_sep, Hs, !fold_left_app. simpl.
    by rewrite walk_plain.
  - unfold locate. rewrite isabs_app by done.
    rewrite split_app_sep, Hs, fold_left_app. simpl.
    by rewrite walk_plain.
Qed.

Lemma length_app (a b : string) :
  String.length (a +:+ b) = String.length a + String.length b.
Proof. induction a as [|x a IH]; [done|]. rewrite app_cons. simpl. by rewrite IH. Qed.

Lemma has_sep_app (a b : string) : has_sep (a +:+ b) = has_sep a || has_sep b.
Proof.
  induction a as [|x a IH]; [done|]. rewrite app_cons. simpl.
  by rewrite IH, orb_assoc.
Qed.

Lemma endswith_app (a p : string) : endswith (a +:+ p) p = true.
Proof.
  induction a as [|x a IH].
  - rewrite app_nil_l. destruct p as [|y p]; [done|].
    change (endswith (String y p) (String y p))
      with (String.eqb (String y p) (String y p) || endswith p (String y p)).
    by rewrite String.eqb_refl.
  - rewrite app_cons.
    change (endswith (String x (a +:+ p)) p)
      with (String.eqb (String x (a +:+ p)) p || endswith (a +:+ p) p).
    rewrite IH. apply orb_true_r.
Qed.

(** The archive of an item with a plain name has a plain name. *)
Lemma plain_tar (part_id : string) : plain part_id = true → plain (part_id +:+ ".tar") = true.
Proof.
  unfold plain. intros H. repeat (apply andb_true_iff in H as [H ?]).
  apply negb_true_iff in H2.
  assert (Hlen : (5 ≤ String.length (part_id +:+ ".tar"))%nat).
  { rewrite length_app. destruct part_id; [done|]. simpl. lia. }
  repeat (apply andb_true_iff; split).
  - destruct part_id; [done|]. by rewrite app_cons.
  - rewrite has_sep_app, H2. done.
  - apply negb_true_iff, String.eqb_neq. intros Heq. rewrite Heq in Hlen.
    simpl in Hlen. lia.
  - apply negb_true_iff, String.eqb_neq. intros Heq. rewrite Heq in Hlen.
    simpl in Hlen. lia.
Qed.

Lemma tar_is_not_the_log (part_id : string) : part_id +:+ ".tar" ≠ "failed_downloads.log".
Proof.
  intros Heq. pose proof (endswith_app part_id ".tar") as H.
  rewrite Heq in H. discriminate H.
Qed.

End PathFacts.

(** *** The path functions on the inputs the archive processor meets *)

Example join_plain : PosixPath.join "/out" "n001" = "/out/n001".
Proof. reflexivity. Qed.
Example join_absolute_name : PosixPath.join "/out/n001" "/etc/passwd" = "/etc/passwd".
Proof. reflexivity. Qed.
Example join_after_slash : PosixPath.join "/out/" "n001" = "/out/n001".
Proof. reflexivity. Qed.
Example join_empty_tail : PosixPath.join "/out" "" = "/out/".
Proof. reflexivity. Qed.
Example dirname_nested : PosixPath.dirname "/out/n001/a//b" = "/out/n001/a".
Proof. reflexivity. Qed.
Example dirname_slashes : PosixPath.dirname "//x" = "//".
Proof. reflexivity. Qed.
Example dirname_parent : PosixPath.dirname "/out/n001/.." = "/out/n001".
Proof. reflexivity. Qed.
Example dirname_bare : PosixPath.dirname "x" = "".
Proof. reflexivity. Qed.
Example commonpath_inside :
  PosixPath.commonpath ["/out/n001"; "/out/n001/a/b.png"] = Ok "/out/n001".
Proof. reflexivity. Qed.
Example commonpath_absolute_name :
  PosixPath.commonpath ["/out/n001"; "/etc/passwd"] = Ok "/".
Proof. reflexivity. Qed.
Example commonpath_sibling :
  PosixPath.commonpath ["/out/n001"; "/out/n0012/x"] = Ok "/out".
Proof. reflexivity. Qed.
Example commonpath_mixed :
  PosixPath.commonpath ["out/n001"; "/etc/passwd"]
  = Raise (ValueError "Can't mix absolute and relative paths").
Proof. reflexivity. Qed.
Example locate_parent :
  PosixPath.locate [] "/out/n001/../evil.txt" = ["out"; "evil.txt"].
Proof. reflexivity. Qed.
Example locate_relative :
  PosixPath.locate ["home"; "u"] "out/./n001//a" = ["home"; "u"; "out"; "n001"; "a"].
Proof. reflexivity. Qed.

(** The scenario of the specification: [n001] is served an archive with
    an image and a text file, [n002] is answered 404. *)
Example two_items_one_missing :
  (download_batch
     (demo_env (fun _ url => if String.eqb url "http://host/n001.tar"
                             then HttpBody ["archive"] None
                             else HttpFail (RequestException "404 Client Error"))
               (fun _ => Ok plain_archive))
     ["n001"; "n002"] "/out" 2 false "http://host" fresh_world).1
  = Ok (Stats.Build 1 1 0).
Proof. vm_compute. reflexivity. Qed.

Module PositionManagerFacts.
Import PositionManager.

Lemma range_from_sorted (a k : nat) : Sorted Z.le (map Z.of_nat (seq a k)).
Proof.
  revert a. induction k as [|k IH]; intros a; simpl; [constructor|].
  constructor; [apply IH|].
  destruct k; simpl; constructor. lia.
Qed.

Lemma range_bounds (n : Z) : Forall (fun x => 0 ≤ x < n)%Z (range n).
Proof.
  unfold range. apply Forall_forall. intros x Hx.
  apply list_elem_of_In, in_map_iff in Hx. destruct Hx as (i & <- & Hi).
  apply in_seq in Hi. lia.
Qed.

Lemma inv_init (n : Z) : inv n (init n).
Proof.
  split; [apply range_from_sorted|]. split; [apply range_bounds|].
  apply map_Forall_empty.
Qed.

Lemma inv_acquire n task_id self : inv n self → inv n (acquire task_id self).2.
Proof.
  intros (Hs & Hb & Hu). unfold acquire.
  destruct (available self) as [|pos rest] eqn:Ha; simpl.
  - unfold inv. rewrite Ha. auto.
  - inversion Hs; subst. inversion Hb; subst.
    split; [done|]. split; [done|]. simpl.
    apply map_Forall_insert_2; auto.
Qed.

Lemma inv_release n task_id self : inv n self → inv n (release task_id self).
Proof.
  intros (Hs & Hb & Hu). unfold release.
  destruct (in_use self !! task_id) as [pos|] eqn:Hp; [|by split].
  split; [|split]; simpl.
  - apply Sorted_merge_sort. apply _.
  - rewrite merge_sort_Permutation. apply Forall_app. split; [done|].
    constructor; [|constructor]. exact (Hu _ _ Hp).
  - apply map_Forall_delete. done.
Qed.

Lemma inv_run n calls self : inv n self → inv n (run calls self).
Proof.
  revert self. induction calls as [|c calls IH]; intros self H; [done|].
  simpl. apply IH. destruct c; simpl; auto using inv_acquire, inv_release.
Qed.

Lemma sorted_head_least (x : Z) (l : list Z) : Sorted Z.le (x :: l) → Forall (Z.le x) l.
Proof.
  intros H. apply Sorted_StronglySorted in H; [|intros ???; lia].
  by inversion H.
Qed.

(** C9. After any run of [acquire] and [release] calls on an allocator
    made with [n >= 1] slots, [acquire] returns a slot in [[0, n)]: the
    head of the free list, which is its least element, when the list is
    not empty (the slot leaves the list and is recorded for the owner),
    and 0 with the allocator unchanged when it is empty.  [release] of an
    owner with a recorded slot puts that slot back, leaves the free list
    sorted and forgets the owner; [release] of an owner without one
    changes nothing. *)
Theorem position_manager_contract (n : Z) (calls : list call) (owner : string) :
  (0 < n)%Z →
  let self := run calls (init n) in
  (0 ≤ (acquire owner self).1 < n)%Z
  ∧ (∀ pos rest, available self = pos :: rest →
       (acquire owner self).1 = pos
       ∧ Forall (Z.le pos) rest
       ∧ available (acquire owner self).2 = rest
       ∧ in_use (acquire owner self).2 !! owner = Some pos)
  ∧ (available self = [] → acquire owner self = (0%Z, self))
  ∧ (∀ pos, in_use self !! owner = Some pos →
       available (release owner self) ≡ₚ pos :: available self
       ∧ Sorted Z.le (available (release owner self))
       ∧ in_use (release owner self) = delete owner (in_use self))
  ∧ (in_use self !! owner = None → release owner self = self).
Proof.
  intros Hn self.
  assert (Hinv : inv n self) by (apply inv_run, inv_init).
  destruct Hinv as (Hs & Hb & Hu).
  repeat split.
  - unfold acquire. destruct (available self); simpl; [lia|].
    inversion Hb; subst; lia.
  - unfold acquire. destruct (available self); simpl; [lia|].
    inversion Hb; subst; lia.
  - unfold acquire. rewrite H. done.
  - rewrite H in Hs. by apply sorted_head_least.
  - unfold acquire. rewrite H. done.
  - unfold acquire. rewrite H. simpl. apply lookup_insert_eq.
  - intros H. unfold acquire. rewrite H. done.
  - unfold release. rewrite H. simpl. rewrite merge_sort_Permutation.
    symmetry. apply Permutation_cons_append.
  - unfold release. rewrite H. simpl. apply Sorted_merge_sort. apply _.
  - unfold release. rewrite H. done.
  - intros H. unfold release. rewrite H. done.
Qed.

End PositionManagerFacts.

(** ** The batch coordinator *)

Section BatchFacts.
Context (E : Env).

(** One future moves exactly one counter, by one; an exception that
    escaped the call moves [failed]. *)
Lemma tally_one_counts (stats : Stats.t) (future : string * res result) (w : world) :
  ∃ stats' w',
    tally_one E stats future w = (Ok stats', w')
    ∧ fs w' = fs w ∧ requests w' = requests w
    ∧ (  (Stats.success stats' = Stats.success stats + 1
          ∧ Stats.failed stats' = Stats.failed stats
          ∧ Stats.skipped stats' = Stats.skipped stats)
       ∨ (Stats.success stats' = Stats.success stats
          ∧ Stats.failed stats' = Stats.failed stats + 1
          ∧ Stats.skipped stats' = Stats.skipped stats)
       ∨ (Stats.success stats' = Stats.success stats
          ∧ Stats.failed stats' = Stats.failed stats
          ∧ Stats.skipped stats' = Stats.skipped stats + 1))%Z
    ∧ (∀ e, future.2 = Raise e →
         Stats.failed stats' = (Stats.failed stats + 1)%Z
         ∧ Stats.success stats' = Stats.success stats
         ∧ Stats.skipped stats' = Stats.skipped stats).
Proof.
  unfold tally_one. destruct future as [id [r|e]]; simpl.
  - destruct (skipped r); [|destruct (success r)];
      eexists _, _; (split; [reflexivity|]); simpl; intuition congruence.
  - eexists _, _. split; [reflexivity|]. simpl.
    intuition congruence.
Qed.

Lemma tally_total (completed : list (string * res result)) (stats : Stats.t) (w : world) :
  ∃ stats' w',
    tally E completed stats w = (Ok stats', w')
    ∧ fs w' = fs w ∧ requests w' = requests w
    ∧ total stats' = (total stats + Z.of_nat (length completed))%Z.
Proof.
  revert stats w. induction completed as [|future rest IH]; intros stats w.
  - exists stats, w. simpl. unfold ret. repeat split; unfold total; lia.
  - destruct (tally_one_counts stats future w) as (s1 & w1 & H1 & Hf1 & Hr1 & Hc & _).
    destruct (IH s1 w1) as (s2 & w2 & H2 & Hf2 & Hr2 & Ht).
    exists s2, w2. simpl. unfold bind. rewrite H1, H2.
    repeat split; [congruence|congruence|].
    rewrite Ht. unfold total.
    rewrite Nat2Z.inj_succ. lia.
Qed.

Lemma run_pool_length (part_ids : list string) (target_path main_link : string)
    (delete_tar : bool) (w : world) :
  length (run_pool E part_ids target_path main_link delete_tar w).1 = length part_ids.
Proof.
  revert w. induction part_ids as [|id rest IH]; intros w; simpl; [done|].
  destruct (download_tar E id (Some target_path) main_link delete_tar w) as [o w'].
  specialize (IH w').
  destruct (run_pool E rest target_path main_link delete_tar w') as [fs' w''].
  simpl in *. by rewrite IH.
Qed.

(** C6. For every list of item IDs, duplicates or not, and every order in
    which the futures complete, [download_batch] with at least one worker
    returns counters that add up to the number of IDs submitted; each
    future moves exactly one counter, and a call that raised is counted
    as failed while the loop goes on. *)
Theorem download_batch_counts_all
    (part_ids : list string) (target_path : string) (num_workers : Z)
    (delete_tar : bool) (main_link : string) (w : world) :
  (0 < num_workers)%Z →
  (∀ futures, as_completed E futures ≡ₚ futures) →
  (∃ stats w',
     download_batch E part_ids target_path num_workers delete_tar main_link w
     = (Ok stats, w')
     ∧ (Stats.success stats + Stats.failed stats + Stats.skipped stats)%Z
       = Z.of_nat (length part_ids))
  ∧ (∀ stats future w0, ∃ stats' w1,
       tally_one E stats future w0 = (Ok stats', w1)
       ∧ (  (Stats.success stats' = Stats.success stats + 1
             ∧ Stats.failed stats' = Stats.failed stats
             ∧ Stats.skipped stats' = Stats.skipped stats)
          ∨ (Stats.success stats' = Stats.success stats
             ∧ Stats.failed stats' = Stats.failed stats + 1
             ∧ Stats.skipped stats' = Stats.skipped stats)
          ∨ (Stats.success stats' = Stats.success stats
             ∧ Stats.failed stats' = Stats.failed stats
             ∧ Stats.skipped stats' = Stats.skipped stats + 1))%Z
       ∧ (∀ e, future.2 = Raise e →
            Stats.failed stats' = (Stats.failed stats + 1)%Z
            ∧ Stats.success stats' = Stats.success stats
            ∧ Stats.skipped stats' = Stats.skipped stats)).
Proof.
  intros Hn Hperm. split.
  - unfold download_batch. destruct part_ids as [|id rest] eqn:Hids.
    + eexists _, _. split; [reflexivity|]. reflexivity.
    + rewrite <- Hids. unfold bind, logger, raise. simpl.
      destruct (Z.leb_spec num_workers 0) as [?|_]; [lia|].
      match goal with
      | |- context [run_pool E part_ids target_path main_link delete_tar ?w1] =>
          pose proof (run_pool_length part_ids target_path main_link delete_tar w1) as Hlen;
          destruct (run_pool E part_ids target_path main_link delete_tar w1) as [futures w2]
      end.
      simpl in Hlen.
      destruct (tally_total (as_completed E futures) (Stats.Build 0 0 0) w2)
        as (stats & w3 & Ht & _ & _ & Htot).
      exists stats, w3. split; [exact Ht|].
      unfold total in Htot. simpl in Htot.
      rewrite Htot, (Permutation_length (Hperm futures)), Hlen. lia.
  - intros stats future w0.
    destruct (tally_one_counts stats future w0) as (s1 & w1 & H1 & _ & _ & Hc & He).
    exists s1, w1. auto.
Qed.

End BatchFacts.

(** ** The file system *)

Module FsFacts.

Lemma node_at_snoc (f : gmap (list string) node) (k : list string) (c : string) :
  node_at f (k ++ [c]) = f !! (k ++ [c]).
Proof. by destruct k. Qed.

Lemma node_at_lookup (f : gmap (list string) node) (k : list string) (n : node) :
  f !! k = Some n → ∃ n', node_at f k = Some n'.
Proof. destruct k; simpl; eauto. Qed.

(** In a well-formed tree every ancestor of an existing node is a
    directory. *)
Lemma wf_ancestor (f : gmap (list string) node) (k r : list string) :
  fs_wf f → r ≠ [] → is_Some (node_at f (k ++ r)) → node_at f k = Some Dir.
Proof.
  intros Hwf. induction r as [|x r IH] using rev_ind; [done|].
  intros _ [n Hn]. rewrite app_assoc, node_at_snoc in Hn.
  apply Hwf in Hn. rewrite removelast_last in Hn.
  destruct (decide (r = [])) as [->|Hr].
  - by rewrite app_nil_r in Hn.
  - apply IH; [done|]. by rewrite Hn.
Qed.

(** [makedirs] on a directory that is there changes nothing. *)
Lemma mkdirs_present (p : string) (f : gmap (list string) node) (pre rest : list string) :
  fs_wf f → node_at f (pre ++ rest) = Some Dir → mkdirs p pre rest f = (Ok tt, f).
Proof.
  intros Hwf. revert pre. induction rest as [|c rest IH]; intros pre H; [done|].
  simpl.
  assert (Hc : f !! (pre ++ [c]) = Some Dir).
  { rewrite <- node_at_snoc. destruct (decide (rest = [])) as [->|Hr]; [done|].
    apply (wf_ancestor f (pre ++ [c]) rest Hwf Hr).
    rewrite <- app_assoc. simpl. by rewrite H. }
  rewrite Hc. apply IH. rewrite <- app_assoc. done.
Qed.

(** [makedirs] leaves what exists as it is. *)
Lemma mkdirs_keeps (p : string) (pre rest : list string)
    (f : gmap (list string) node) (k : list string) (n : node) :
  f !! k = Some n → (mkdirs p pre rest f).2 !! k = Some n.
Proof.
  revert pre f. induction rest as [|c rest IH]; intros pre f H; [done|].
  simpl. destruct (f !! (pre ++ [c])) as [[b|]|] eqn:Hc.
  - by destruct rest.
  - by apply IH.
  - apply IH. rewrite lookup_insert_ne; [done|]. congruence.
Qed.

(** New entries made by [makedirs] are directories. *)
Lemma mkdirs_new (p : string) (pre rest : list string)
    (f : gmap (list string) node) (k : list string) (n : node) :
  (mkdirs p pre rest f).2 !! k = Some n → f !! k = Some n ∨ (f !! k = None ∧ n = Dir).
Proof.
  revert pre f. induction rest as [|c rest IH]; intros pre f H; [by left|].
  simpl in H. destruct (f !! (pre ++ [c])) as [[b|]|] eqn:Hc.
  - left. by destruct rest.
  - by apply (IH _ _ H).
  - apply IH in H. destruct (decide (pre ++ [c] = k)) as [<-|Hne].
    + rewrite lookup_insert_eq in H. right. split; [done|].
      destruct H as [H|[H _]]; congruence.
    + by rewrite lookup_insert_ne in H.
Qed.

Lemma remove_tree_lookup (k k' : list string) (f : gmap (list string) node) :
  remove_tree k f !! k' = if decide (k `prefix_of` k') then None else f !! k'.
Proof.
  unfold remove_tree. destruct (decide (k `prefix_of` k')) as [Hp|Hp].
  - apply map_lookup_filter_None. right. intros n _. simpl. tauto.
  - destruct (f !! k') as [n|] eqn:Hn.
    + apply map_lookup_filter_Some. done.
    + apply map_lookup_filter_None. by left.
Qed.

Lemma open_key_file (truncate : bool) (p : string) (k : list string)
    (f f' : gmap (list string) node) :
  open_key truncate p k f = Ok f' → ∃ old, f' !! k = Some (File old).
Proof.
  unfold open_key. destruct k as [|c k]; [done|].
  destruct (node_at f (removelast (c :: k))) as [[?|]|]; try done.
  destruct (f !! (c :: k)) as [[old|]|] eqn:Hk; try done.
  - destruct truncate; intros [= <-]; [|eauto].
    exists "". apply lookup_insert_eq.
  - intros [= <-]. exists "". apply lookup_insert_eq.
Qed.

Lemma write_key_lookup (k : list string) (data old : string) (f : gmap (list string) node) :
  f !! k = Some (File old) → write_key k data f !! k = Some (File (old +:+ data)).
Proof. intros H. unfold write_key. rewrite H. apply lookup_insert_eq. Qed.

Lemma open_key_truncated (p : string) (k : list string)
    (f f' : gmap (list string) node) :
  open_key true p k f = Ok f' → f' !! k = Some (File "").
Proof.
  unfold open_key. destruct k as [|c k]; [done|].
  destruct (node_at f (removelast (c :: k))) as [[?|]|]; try done.
  destruct (f !! (c :: k)) as [[old|]|] eqn:Hk; try done;
    intros [= <-]; apply lookup_insert_eq.
Qed.


Lemma substring_full (s : string) : String.substring 0 (String.length s) s = s.
Proof. induction s as [|x s IH]; [done|]. simpl. by rewrite IH. Qed.


Lemma fs_wfb_sound (f : gmap (list string) node) : fs_wfb f = true → fs_wf f.
Proof.
  unfold fs_wfb. intros H%bool_decide_eq_true. intros k n Hk. exact (H k n Hk).
Qed.

End FsFacts.

(** ** The archive processor *)

Section ExtractFacts.
Context (E : Env).
Import PosixPath PathFacts FsFacts.

Lemma read_fresh (b : string) : fst (read (stream (Ok b))) = Ok b.
Proof. unfold read, stream. simpl. by rewrite Nat.sub_0_r, substring_full. Qed.


(** The loop turn of a checked entry with a stream: the image path
    under a handler that copies the bytes. *)
Lemma extract_member_checked (dest_folder : string) (member : TarInfo)
    (payload : res string) (w : world) :
  passes_check dest_folder member → extractfile member = Some payload →
  extract_member E dest_folder member w
  = try_except
      (convert_image E (fst (read (stream payload))) (join dest_folder (name member)))
      (fun _ => copy_raw E (snd (read (stream payload))) (join dest_folder (name member)))
      w.
Proof.
  intros (cp & Hcp & Hs) Hp. unfold extract_member, bind, lift.
  rewrite Hcp, Hs, Hp. reflexivity.
Qed.





(** *** What a computation leaves alone *)

Lemma keeps_pure {A} k b (r : res A) : keeps_file k b (lift r).
Proof. intros w r' w' [= <- <-]. done. Qed.

Lemma keeps_ret {A} k b (a : A) : keeps_file k b (ret a).
Proof. intros w r' w' [= <- <-]. done. Qed.

Lemma keeps_raise {A} k b (e : exn) : keeps_file k b (@raise A e).
Proof. intros w r' w' [= <- <-]. done. Qed.

Lemma keeps_bind {A B} k b (m : M A) (g : A → M B) :
  keeps_file k b m → (∀ a, keeps_file k b (g a)) → keeps_file k b (bind m g).
Proof.
  intros Hm Hg w r w' Hrun Hk. unfold bind in Hrun.
  destruct (m w) as [[a|e] w1] eqn:Hmw.
  - eapply Hg; [exact Hrun|]. eapply Hm; eauto.
  - injection Hrun as <- <-. eapply Hm; eauto.
Qed.

Lemma keeps_try_except {A} k b (m : M A) (h : exn → M A) :
  keeps_file k b m → (∀ e, keeps_file k b (h e)) → keeps_file k b (try_except m h).
Proof.
  intros Hm Hh w r w' Hrun Hk. unfold try_except in Hrun.
  destruct (m w) as [[a|e] w1] eqn:Hmw.
  - injection Hrun as <- <-. eapply Hm; eauto.
  - eapply Hh; [exact Hrun|]. eapply Hm; eauto.
Qed.

Lemma keeps_exists k b (p : string) : keeps_file k b (os_path_exists E p).
Proof. intros w r w' [= <- <-]. done. Qed.

Lemma keeps_makedirs k b (p : string) : keeps_file k b (os_makedirs E p).
Proof.
  intros w r w' Hrun Hk. unfold os_makedirs in Hrun.
  destruct (nonempty p); [|by injection Hrun as <- <-].
  pose proof (mkdirs_keeps p [] (key E p) (fs w) k (File b) Hk) as Hkeep.
  destruct (mkdirs p [] (key E p) (fs w)) as [r1 f1].
  by injection Hrun as <- <-.
Qed.

Lemma keeps_f_write k b (k' : list string) (bytes : string) :
  k ≠ k' → keeps_file k b (f_write k' bytes).
Proof.
  intros Hne w r w' [= <- <-] Hk. simpl. unfold write_key.
  destruct (fs w !! k') as [[old|]|]; by rewrite lookup_insert_ne.
Qed.

Lemma keeps_remove k b (p : string) : k ≠ key E p → keeps_file k b (os_remove E p).
Proof.
  intros Hne w r w' Hrun Hk. unfold os_remove in Hrun.
  destruct (node_at (fs w) (key E p)) as [[old|]|]; injection Hrun as <- <-; [|done..].
  simpl. by rewrite lookup_delete_ne.
Qed.

Lemma keeps_open_then {A} k b (truncate : bool) (p : string) (g : list string → M A) :
  k ≠ key E p → keeps_file k b (g (key E p)) →
  keeps_file k b (bind (open_for_write E truncate p) g).
Proof.
  intros Hne Hg w r w' Hrun Hk. unfold bind, open_for_write in Hrun.
  destruct (open_key truncate p (key E p) (fs w)) as [f1|e] eqn:Hopen.
  - eapply Hg; [exact Hrun|]. simpl.
    unfold open_key in Hopen. destruct (key E p) as [|c kp] eqn:Hkp; [done|].
    destruct (node_at (fs w) (removelast (c :: kp))) as [[?|]|]; try done.
    destruct (fs w !! (c :: kp)) as [[old|]|]; try done.
    + destruct truncate; injection Hopen as <-; [|done]. by rewrite lookup_insert_ne.
    + injection Hopen as <-. by rewrite lookup_insert_ne.
  - by injection Hrun as <- <-.
Qed.

Lemma keeps_copy_raw k b (extracted : ExFile) (member_path : string) :
  k ≠ key E member_path → keeps_file k b (copy_raw E extracted member_path).
Proof.
  intros Hne. unfold copy_raw.
  apply keeps_bind; [apply keeps_makedirs|]. intros _.
  apply keeps_open_then; [done|].
  apply keeps_bind; [apply keeps_pure|]. intros bytes.
  by apply keeps_f_write.
Qed.

Lemma keeps_convert_image k b (bytes : res string) (member_path : string) :
  k ≠ key E member_path → keeps_file k b (convert_image E bytes member_path).
Proof.
  intros Hne. unfold convert_image.
  apply keeps_bind; [apply keeps_pure|]. intros raw.
  apply keeps_bind; [apply keeps_pure|]. intros img0.
  apply keeps_bind; [apply keeps_pure|]. intros img1.
  apply keeps_bind; [apply keeps_pure|]. intros img2.
  apply keeps_bind; [apply keeps_makedirs|]. intros _.
  unfold img_save.
  apply keeps_bind.
  { apply keeps_bind; [apply keeps_exists|]. intros ?. apply keeps_ret. }
  intros created. apply keeps_open_then; [done|].
  destruct (Image_save E img2 "JPEG" 95) as [jpeg|e].
  - by apply keeps_f_write.
  - apply keeps_bind; [|intros _; apply keeps_raise].
    destruct created; [|apply keeps_ret].
    apply keeps_try_except; [by apply keeps_remove|]. intros _. apply keeps_ret.
Qed.

(** A loop turn changes no file but the one at its own destination. *)
Lemma keeps_extract_member k b (dest_folder : string) (member : TarInfo) :
  k ≠ key E (join dest_folder (name member)) →
  keeps_file k b (extract_member E dest_folder member).
Proof.
  intros Hne. unfold extract_member.
  apply keeps_bind; [apply keeps_pure|]. intros cp.
  destruct (negb (startswith cp dest_folder)); [apply keeps_ret|].
  destruct (extractfile member) as [payload|]; [|apply keeps_ret].
  apply keeps_try_except; [by apply keeps_convert_image|].
  intros _. by apply keeps_copy_raw.
Qed.

Lemma keeps_extract_members k b (dest_folder : string) (members : list TarInfo) :
  Forall (fun m => key E (join dest_folder (name m)) ≠ k) members →
  keeps_file k b (extract_members E dest_folder members).
Proof.
  induction 1 as [|m rest Hm Hrest IH]; simpl; [apply keeps_ret|].
  apply keeps_bind; [by apply keeps_extract_member|]. intros _. exact IH.
Qed.


(** *** What a computation leaves a file *)

Lemma stays_pure {A} k (r : res A) : keeps_a_file k (lift r).
Proof. intros w r' w' [= <- <-]. done. Qed.

Lemma stays_ret {A} k (a : A) : keeps_a_file k (ret a).
Proof. intros w r' w' [= <- <-]. done. Qed.

Lemma stays_raise {A} k (e : exn) : keeps_a_file k (@raise A e).
Proof. intros w r' w' [= <- <-]. done. Qed.

Lemma stays_logger k (l : level) (msg : string) : keeps_a_file k (logger l msg).
Proof. intros w r' w' [= <- <-]. done. Qed.

Lemma stays_bind {A B} k (m : M A) (g : A → M B) :
  keeps_a_file k m → (∀ a, keeps_a_file k (g a)) → keeps_a_file k (bind m g).
Proof.
  intros Hm Hg w r w' Hrun Hk. unfold bind in Hrun.
  destruct (m w) as [[a|e] w1] eqn:Hmw.
  - eapply Hg; [exact Hrun|]. eapply Hm; eauto.
  - injection Hrun as <- <-. eapply Hm; eauto.
Qed.

Lemma stays_try_except {A} k (m : M A) (h : exn → M A) :
  keeps_a_file k m → (∀ e, keeps_a_file k (h e)) → keeps_a_file k (try_except m h).
Proof.
  intros Hm Hh w r w' Hrun Hk. unfold try_except in Hrun.
  destruct (m w) as [[a|e] w1] eqn:Hmw.
  - injection Hrun as <- <-. eapply Hm; eauto.
  - eapply Hh; [exact Hrun|]. eapply Hm; eauto.
Qed.

Lemma stays_exists k (p : string) : keeps_a_file k (os_path_exists E p).
Proof. intros w r w' [= <- <-]. done. Qed.

Lemma stays_read_file k (p : string) : keeps_a_file k (read_file E p).
Proof.
  intros w r w' Hrun Hk. unfold read_file in Hrun.
  by destruct (node_at (fs w) (key E p)) as [[?|]|]; injection Hrun as <- <-.
Qed.

Lemma stays_makedirs k (p : string) : keeps_a_file k (os_makedirs E p).
Proof.
  intros w r w' Hrun [b Hk]. exists b. by eapply keeps_makedirs.
Qed.

Lemma stays_f_write k (k' : list string) (bytes : string) : keeps_a_file k (f_write k' bytes).
Proof.
  intros w r w' [= <- <-] [b Hk]. simpl. unfold write_key, is_file_at.
  destruct (decide (k' = k)) as [->|Hne].
  - rewrite Hk, lookup_insert_eq. eauto.
  - destruct (fs w !! k') as [[old|]|]; rewrite lookup_insert_ne by done; eauto.
Qed.

Lemma stays_open (truncate : bool) (p : string) k :
  keeps_a_file k (open_for_write E truncate p).
Proof.
  intros w r w' Hrun [b Hk]. unfold open_for_write in Hrun.
  destruct (open_key truncate p (key E p) (fs w)) as [f1|e] eqn:Hopen;
    injection Hrun as <- <-; [|by exists b].
  simpl. unfold open_key in Hopen. destruct (key E p) as [|c kp] eqn:Hkp; [done|].
  destruct (node_at (fs w) (removelast (c :: kp))) as [[?|]|]; try done.
  unfold is_file_at. destruct (decide (c :: kp = k)) as [<-|Hne].
  - rewrite Hk in Hopen. destruct truncate; injection Hopen as <-; [|eauto].
    rewrite lookup_insert_eq. eauto.
  - destruct (fs w !! (c :: kp)) as [[old|]|]; try done.
    + destruct truncate; injection Hopen as <-; [|eauto].
      rewrite lookup_insert_ne by done. eauto.
    + injection Hopen as <-. rewrite lookup_insert_ne by done. eauto.
Qed.

Lemma stays_remove k (p : string) : k ≠ key E p → keeps_a_file k (os_remove E p).
Proof.
  intros Hne w r w' Hrun [b Hk]. exists b. by eapply keeps_remove.
Qed.

(** [img.save] removes a file only when it had made it. *)
Lemma stays_img_save k (img : image E) (p fmt : string) (q : Z) :
  keeps_a_file k (img_save E img p fmt q).
Proof.
  intros w r w' Hrun Hk. unfold img_save in Hrun.
  unfold bind at 1 in Hrun. unfold bind at 1, os_path_exists, ret in Hrun.
  cbv beta iota zeta in Hrun.
  destruct (decide (k = key E p)) as [Heq|Hne].
  - assert (Hex : exists_at (fs w) (key E p) = true).
    { destruct Hk as [b Hk]. unfold exists_at. rewrite <- Heq.
      destruct k; simpl; [done|]. by rewrite Hk. }
    rewrite Hex in Hrun. simpl in Hrun.
    refine (_ w r w' Hrun Hk). change (keeps_a_file k
      (bind (open_for_write E true p) (fun f =>
         match Image_save E img fmt q with
         | Ok bytes => f_write f bytes
         | Raise e => bind (ret tt) (fun _ => raise e)
         end))).
    apply stays_bind; [apply stays_open|]. intros f.
    destruct (Image_save E img fmt q); [apply stays_f_write|].
    apply stays_bind; [apply stays_ret|]. intros _. apply stays_raise.
  - revert Hrun. generalize (negb (exists_at (fs w) (key E p))). intros created Hrun.
    refine (_ w r w' Hrun Hk). change (keeps_a_file k
      (bind (open_for_write E true p) (fun f =>
         match Image_save E img fmt q with
         | Ok bytes => f_write f bytes
         | Raise e =>
             bind (if created then try_except (os_remove E p) (fun _ => ret tt) else ret tt)
                  (fun _ => raise e)
         end))).
    apply stays_bind; [apply stays_open|]. intros f.
    destruct (Image_save E img fmt q); [apply stays_f_write|].
    apply stays_bind; [|intros _; apply stays_raise].
    destruct created; [|apply stays_ret].
    apply stays_try_except; [by apply stays_remove|]. intros _. apply stays_ret.
Qed.

Lemma stays_extract_member k (dest_folder : string) (member : TarInfo) :
  keeps_a_file k (extract_member E dest_folder member).
Proof.
  unfold extract_member.
  apply stays_bind; [apply stays_pure|]. intros cp.
  destruct (negb (startswith cp dest_folder)); [apply stays_ret|].
  destruct (extractfile member) as [payload|]; [|apply stays_ret].
  apply stays_try_except.
  - unfold convert_image.
    apply stays_bind; [apply stays_pure|]. intros raw.
    apply stays_bind; [apply stays_pure|]. intros img0.
    apply stays_bind; [apply stays_pure|]. intros img1.
    apply stays_bind; [apply stays_pure|]. intros img2.
    apply stays_bind; [apply stays_makedirs|]. intros _.
    apply stays_img_save.
  - intros _. unfold copy_raw.
    apply stays_bind; [apply stays_makedirs|]. intros _.
    apply stays_bind; [apply stays_open|]. intros f.
    apply stays_bind; [apply stays_pure|]. intros bytes.
    apply stays_f_write.
Qed.

Lemma stays_extract_members k (dest_folder : string) (members : list TarInfo) :
  keeps_a_file k (extract_members E dest_folder members).
Proof.
  induction members as [|m rest IH]; simpl; [apply stays_ret|].
  apply stays_bind; [apply stays_extract_member|]. intros _. exact IH.
Qed.

(** Whatever the archive holds, [extract_tar] removes no file. *)
Lemma stays_extract_tar k (part_id tar_path : string) (target_path : option string) :
  keeps_a_file k (extract_tar E part_id tar_path target_path).
Proof.
  unfold extract_tar.
  apply stays_bind; [apply stays_makedirs|]. intros _.
  apply stays_try_except.
  - apply stays_bind; [apply stays_read_file|]. intros archive.
    apply stays_bind; [apply stays_pure|]. intros all.
    apply stays_extract_members.
  - intros e. apply stays_bind; [apply stays_logger|]. intros _. apply stays_raise.
Qed.




(** C7, as the code has it.  An error while opening or reading the
    archive reaches the caller and no entry is processed.  An error in
    the image path of one entry (reading, decoding, converting or
    writing the converted file) is caught and the entry is copied raw
    instead: when the copy succeeds the loop goes on with the entries
    that remain; when the copy itself raises, that error reaches the
    caller and ends the extraction.  Bytes that do not decode leave the
    file system as it was before the copy is made. *)
Theorem entry_errors_fall_back_to_raw_copy :
  (∀ part_id tar_path target_path w w0 e,
     os_makedirs E (dest_folder_of part_id tar_path target_path) w = (Ok tt, w0) →
     (read_file E tar_path w0 = (Raise e, w0)
      ∨ ∃ archive, read_file E tar_path w0 = (Ok archive, w0)
                   ∧ tarfile_open E archive = Raise e) →
     ∃ w', extract_tar E part_id tar_path target_path w = (Raise e, w')
           ∧ fs w' = fs w0)
  ∧ (∀ dest_folder member rest payload w e w1,
       passes_check dest_folder member →
       extractfile member = Some payload →
       convert_image E (fst (read (stream payload)))
         (join dest_folder (name member)) w = (Raise e, w1) →
       (∀ w2, copy_raw E (snd (read (stream payload)))
                (join dest_folder (name member)) w1 = (Ok tt, w2) →
              extract_members E dest_folder (member :: rest) w
              = extract_members E dest_folder rest w2)
       ∧ (∀ e1 w2, copy_raw E (snd (read (stream payload)))
                     (join dest_folder (name member)) w1 = (Raise e1, w2) →
                   extract_members E dest_folder (member :: rest) w = (Raise e1, w2)))
  ∧ (∀ bytes member_path w e,
       Image_open E bytes = Raise e →
       convert_image E (fst (read (stream (Ok bytes)))) member_path w = (Raise e, w)).
Proof.
  split; [|split].
  - intros part_id tar_path target_path w w0 e Hmk Hbad.
    unfold extract_tar, bind at 1. rewrite Hmk.
    unfold try_except, bind at 1.
    destruct Hbad as [Hread|(archive & Hread & Hopen)]; rewrite Hread.
    + eexists. split; [reflexivity|]. done.
    + unfold bind, lift. rewrite Hopen. eexists. split; [reflexivity|]. done.
  - intros dest_folder member rest payload w e w1 Hadm Hp Hconv.
    split.
    + intros w2 Hcopy. simpl. unfold bind.
      rewrite (extract_member_checked dest_folder member payload w Hadm Hp).
      unfold try_except. by rewrite Hconv, Hcopy.
    + intros e1 w2 Hcopy. simpl. unfold bind.
      rewrite (extract_member_checked dest_folder member payload w Hadm Hp).
      unfold try_except. by rewrite Hconv, Hcopy.
  - intros bytes member_path w e Hopen. rewrite read_fresh.
    unfold convert_image, bind, lift. cbv beta iota zeta. by rewrite Hopen.
Qed.

End ExtractFacts.

(** ** The pipeline of one item *)

Section PipelineFacts.
Context (E : Env).
Import PosixPath PathFacts FsFacts.

Lemma base_dir_nonempty (target_path : option string) :
  nonempty (base_dir_of E target_path) = true.
Proof.
  unfold base_dir_of. destruct target_path as [t|]; [|done].
  by destruct (nonempty t) eqn:Ht.
Qed.

Lemma join_nonempty (a b : string) : nonempty a = true → nonempty (join a b) = true.
Proof.
  intros Ha. unfold join. rewrite Ha.
  destruct (startswith b sep) eqn:Hb; simpl.
  - destruct b; [discriminate Hb|done].
  - destruct a as [|x a]; [done|]. by destruct (endswith (String x a) sep).
Qed.

Lemma key_extract_dir (part_id : string) (target_path : option string) :
  plain part_id = true →
  key E (extract_dir_of E part_id target_path)
  = key E (base_dir_of E target_path) ++ [part_id].
Proof. intros H. apply locate_join; [apply base_dir_nonempty|done]. Qed.

Lemma key_completion_marker (part_id : string) (target_path : option string) :
  key E (completion_marker_of E part_id target_path)
  = key E (extract_dir_of E part_id target_path) ++ [marker_name].
Proof.
  apply locate_join; [|done]. apply join_nonempty, base_dir_nonempty.
Qed.

Lemma set_fs_same (w : world) : set_fs (fs w) w = w.
Proof. by destruct w. Qed.

(** With the marker in place the output root is there already. *)
Lemma makedirs_base_noop (part_id : string) (target_path : option string) (w : world) :
  fs_wf (fs w) → plain part_id = true →
  exists_at (fs w) (key E (completion_marker_of E part_id target_path)) = true →
  os_makedirs E (base_dir_of E target_path) w = (Ok tt, w).
Proof.
  intros Hwf Hid Hm. unfold os_makedirs. rewrite base_dir_nonempty.
  rewrite (mkdirs_present _ (fs w) [] (key E (base_dir_of E target_path)) Hwf).
  - by rewrite set_fs_same.
  - simpl. apply (wf_ancestor (fs w) _ [part_id; marker_name] Hwf); [done|].
    rewrite key_completion_marker, key_extract_dir in Hm by done.
    rewrite <- app_assoc in Hm. simpl in Hm. unfold exists_at in Hm.
    destruct (node_at _ _); [eauto|done].
Qed.

Lemma download_tar_skip (part_id : string) (target_path : option string)
    (main_link : string) (delete_tar : bool) (w : world) :
  fs_wf (fs w) → plain part_id = true →
  exists_at (fs w) (key E (completion_marker_of E part_id target_path)) = true →
  download_tar E part_id target_path main_link delete_tar w
  = (Ok (skipped_result part_id),
     {| fs := fs w; requests := requests w; manager := manager w;
        app_log := app_log w ++ [(INFO, "Skipping " +:+ part_id +:+ " - already completed")] |}).
Proof.
  intros Hwf Hid Hm. unfold download_tar, bind at 1.
  rewrite (makedirs_base_noop part_id target_path w Hwf Hid Hm).
  unfold try_except, bind, os_path_exists.
  fold (extract_dir_of E part_id target_path).
  fold (completion_marker_of E part_id target_path).
  rewrite Hm. reflexivity.
Qed.

Lemma run_pool_all_skipped (part_ids : list string) (target_path main_link : string)
    (delete_tar : bool) (w : world) :
  fs_wf (fs w) → Forall (carries_marker E target_path (fs w)) part_ids →
  ∃ w', run_pool E part_ids target_path main_link delete_tar w
        = (map (fun part_id => (part_id, Ok (skipped_result part_id))) part_ids, w')
        ∧ fs w' = fs w ∧ requests w' = requests w ∧ manager w' = manager w.
Proof.
  revert w. induction part_ids as [|part_id rest IH]; intros w Hwf Hall.
  - by exists w.
  - inversion Hall as [|? ? [Hid Hm] Hrest]; subst. simpl.
    rewrite (download_tar_skip part_id (Some target_path) main_link delete_tar w Hwf Hid Hm).
    match goal with |- context [run_pool _ _ _ _ _ ?w1] => destruct (IH w1) as (w' & -> & ? & ? & ?) end;
      [done|done|].
    by exists w'.
Qed.

Lemma tally_all_skipped (completed : list (string * res result)) (stats : Stats.t) (w : world) :
  Forall (fun future => ∃ r, future.2 = Ok r ∧ skipped r = true) completed →
  ∃ w', tally E completed stats w
        = (Ok (Stats.Build (Stats.success stats) (Stats.failed stats)
                 (Stats.skipped stats + Z.of_nat (length completed))), w')
        ∧ fs w' = fs w ∧ requests w' = requests w.
Proof.
  revert stats w. induction completed as [|future rest IH]; intros stats w Hall.
  - exists w. simpl. rewrite Z.add_0_r. by destruct stats.
  - inversion Hall as [|? ? (r & Hr & Hs) Hrest]; subst.
    simpl. unfold bind, tally_one. rewrite Hr, Hs. simpl.
    destruct (IH (Stats.Build (Stats.success stats) (Stats.failed stats)
                    (Stats.skipped stats + 1)) w Hrest) as (w' & -> & ? & ?).
    exists w'. simpl. split; [|done]. do 3 f_equal. lia.
Qed.

(** C4. An item whose completion marker exists is answered with
    success and skipped, and nothing but the application log changes: no
    request is sent, the file system and the slot allocator are as
    before.  Hence a batch over items that all carry their marker sends
    no request and counts every item as skipped. *)
Theorem completed_items_are_skipped (w : world) :
  fs_wf (fs w) →
  (∀ part_id target_path main_link delete_tar,
     plain part_id = true →
     exists_at (fs w) (key E (completion_marker_of E part_id target_path)) = true →
     ∃ w', download_tar E part_id target_path main_link delete_tar w
           = (Ok {| part_id := part_id; success := true; error := None; skipped := true |}, w')
           ∧ fs w' = fs w ∧ requests w' = requests w ∧ manager w' = manager w)
  ∧ (∀ part_ids target_path num_workers delete_tar main_link,
       (0 < num_workers)%Z →
       (∀ futures, as_completed E futures ≡ₚ futures) →
       Forall (carries_marker E target_path (fs w)) part_ids →
       ∃ w', download_batch E part_ids target_path num_workers delete_tar main_link w
             = (Ok (Stats.Build 0 0 (Z.of_nat (length part_ids))), w')
             ∧ fs w' = fs w ∧ requests w' = requests w).
Proof.
  intros Hwf. split.
  - intros part_id target_path main_link delete_tar Hid Hm.
    rewrite (download_tar_skip part_id target_path main_link delete_tar w Hwf Hid Hm).
    eexists. split; [reflexivity|]. done.
  - intros part_ids target_path num_workers delete_tar main_link Hn Hperm Hall.
    unfold download_batch. destruct part_ids as [|id rest] eqn:Hids.
    + eexists. split; [reflexivity|]. done.
    + rewrite <- Hids in *. unfold bind, logger, raise. simpl.
      destruct (Z.leb_spec num_workers 0) as [?|_]; [lia|].
      match goal with
      | |- context [run_pool E part_ids target_path main_link delete_tar ?w1] =>
          destruct (run_pool_all_skipped part_ids target_path main_link delete_tar w1)
            as (w2 & -> & Hf2 & Hr2 & _); [done|done|]
      end.
      simpl in Hf2, Hr2.
      match goal with
      | |- context [tally E ?c ?s w2] =>
          destruct (tally_all_skipped c s w2) as (w3 & -> & Hf3 & Hr3)
      end.
      * eapply Forall_forall. intros future Hin.
        rewrite (Hperm _) in Hin.
        apply list_elem_of_fmap in Hin as (part_id & -> & _).
        by exists (skipped_result part_id).
      * exists w3. rewrite (Permutation_length (Hperm _)), length_map. simpl.
        split; [done|]. split; congruence.
Qed.

Lemma wf_absent_below (f : gmap (list string) node) (k k' : list string) :
  fs_wf f → node_at f k = None → k `prefix_of` k' → f !! k' = None.
Proof.
  intros Hwf Hk [r ->].
  destruct (decide (r = [])) as [->|Hr].
  - rewrite app_nil_r. by destruct k.
  - destruct (f !! (k ++ r)) as [n|] eqn:Hn; [|done].
    destruct (node_at_lookup _ _ _ Hn) as [n' Hn'].
    rewrite (wf_ancestor f k r Hwf Hr) in Hk; [done|]. by rewrite Hn'.
Qed.

(** What [cleanup_stale] leaves: nothing at or below the output
    directory, no archive, everything else as it was. *)
Lemma cleanup_stale_clean (part_id extract_dir tar_path : string) (w : world) :
  fs_wf (fs w) →
  (node_at (fs w) (key E extract_dir) = None ∨ node_at (fs w) (key E extract_dir) = Some Dir) →
  (node_at (fs w) (key E tar_path) = None ∨ ∃ b, node_at (fs w) (key E tar_path) = Some (File b)) →
  ∃ w', cleanup_stale E part_id extract_dir tar_path w = (Ok tt, w')
        ∧ (∀ k, key E extract_dir `prefix_of` k → fs w' !! k = None)
        ∧ fs w' !! key E tar_path = None
        ∧ (∀ k, ¬ key E extract_dir `prefix_of` k → k ≠ key E tar_path →
                fs w' !! k = fs w !! k)
        ∧ requests w' = requests w ∧ manager w' = manager w.
Proof.
  intros Hwf Hx Ht. unfold cleanup_stale, bind, os_path_exists, exists_at.
  set (X := key E extract_dir) in *. set (T := key E tar_path) in *.
  assert (HT : ∀ f : gmap (list string) node, node_at f T = None → f !! T = None)
    by (intros f; by destruct T).
  destruct Hx as [Hx|Hx]; rewrite Hx.
  - (* no output directory *)
    destruct Ht as [Ht|[b Ht]]; unfold ret; simpl; rewrite Ht.
    + eexists. split; [reflexivity|]. simpl.
      split; [intros k Hk; by apply (wf_absent_below _ X)|].
      split; [by apply HT|]. done.
    + unfold logger, os_remove. simpl. fold T. rewrite Ht.
      eexists. split; [reflexivity|]. simpl. repeat split.
      * intros k Hk. destruct (decide (T = k)) as [<-|Hne].
        { apply lookup_delete_eq. }
        rewrite lookup_delete_ne by done. by apply (wf_absent_below _ X).
      * apply lookup_delete_eq.
      * intros k _ Hk. by rewrite lookup_delete_ne.
  - (* a stale output directory *)
    unfold logger, shutil_rmtree. simpl. fold X. rewrite Hx. simpl.
    destruct (node_at (remove_tree X (fs w)) T) as [n|] eqn:HT'.
    + (* the archive survived the removal of the directory *)
      unfold os_remove. simpl. fold T. rewrite HT'.
      assert (Hn : ∃ b, n = File b).
      { destruct Ht as [Ht|[b Ht]].
        - destruct T as [|t T']; [done|]. simpl in *.
          rewrite remove_tree_lookup in HT'. case_decide; congruence.
        - destruct T as [|t T']; [done|]. simpl in *.
          rewrite remove_tree_lookup in HT'. case_decide; [done|].
          exists b. congruence. }
      destruct Hn as [b ->].
      eexists. split; [reflexivity|]. simpl. repeat split.
      * intros k Hk. destruct (decide (T = k)) as [<-|Hne].
        { apply lookup_delete_eq. }
        rewrite lookup_delete_ne, remove_tree_lookup by done. by case_decide.
      * apply lookup_delete_eq.
      * intros k Hk Hne. rewrite lookup_delete_ne, remove_tree_lookup by done.
        by case_decide.
    + eexists. split; [reflexivity|]. simpl. repeat split.
      * intros k Hk. rewrite remove_tree_lookup. by case_decide.
      * by apply HT.
      * intros k Hk _. rewrite remove_tree_lookup. by case_decide.
Qed.

(** C5. For an item without a completion marker, once the output root
    is in place, an output directory left by an earlier run is removed
    with all it holds and an archive file left by an earlier run is
    removed, before any request is sent: the download that follows
    starts from a state with nothing at or below the output directory
    and no archive, and with every other path untouched. *)
Theorem stale_state_is_removed (part_id : string) (target_path : option string)
    (main_link : string) (delete_tar : bool) (w w0 : world) :
  let extract_dir := extract_dir_of E part_id target_path in
  let tar_path := tar_path_of E part_id target_path in
  os_makedirs E (base_dir_of E target_path) w = (Ok tt, w0) →
  fs_wf (fs w0) →
  exists_at (fs w0) (key E (completion_marker_of E part_id target_path)) = false →
  (node_at (fs w0) (key E extract_dir) = None
   ∨ node_at (fs w0) (key E extract_dir) = Some Dir) →
  (node_at (fs w0) (key E tar_path) = None
   ∨ ∃ b, node_at (fs w0) (key E tar_path) = Some (File b)) →
  ∃ w1,
    cleanup_stale E part_id extract_dir tar_path w0 = (Ok tt, w1)
    ∧ (∀ k, key E extract_dir `prefix_of` k → fs w1 !! k = None)
    ∧ fs w1 !! key E tar_path = None
    ∧ (∀ k, ¬ key E extract_dir `prefix_of` k → k ≠ key E tar_path →
            fs w1 !! k = fs w0 !! k)
    ∧ requests w1 = requests w
    ∧ download_tar E part_id target_path main_link delete_tar w
      = try_except
          (fresh_download E part_id target_path (base_dir_of E target_path)
             (main_link +:+ "/" +:+ part_id +:+ ".tar") tar_path
             (part_id +:+ ".tar") delete_tar)
          (on_failure E part_id (log_file_of E target_path) tar_path) w1.
Proof.
  intros extract_dir tar_path Hmk Hwf Hm Hx Ht.
  destruct (cleanup_stale_clean part_id extract_dir tar_path w0 Hwf Hx Ht)
    as (w1 & Hc & Hbelow & Htar & Hframe & Hreq & _).
  exists w1. repeat split; try done.
  - rewrite Hreq. unfold os_makedirs in Hmk.
    destruct (nonempty _); [|done].
    destruct (mkdirs _ _ _ _). by inversion Hmk.
  - unfold download_tar, bind at 1. rewrite Hmk.
    unfold try_except, bind at 1, os_path_exists.
    fold (extract_dir_of E part_id target_path).
    fold (completion_marker_of E part_id target_path).
    rewrite Hm. unfold bind at 1.
    fold (tar_path_of E part_id target_path). fold extract_dir tar_path.
    rewrite Hc. reflexivity.
Qed.

(** The handler of the outer [try]: the failure is appended to the
    failure log and an archive file, if there is one, is removed. *)
Lemma on_failure_outcome (part_id log_file tar_path : string) (e : exn) (w : world) :
  (∃ f, open_key false log_file (key E log_file) (fs w) = Ok f) →
  ∃ w', on_failure E part_id log_file tar_path e w = (Ok (failed_result E part_id e), w')
        ∧ (∀ b, node_at (fs w') (key E tar_path) ≠ Some (File b))
        ∧ (key E log_file ≠ key E tar_path →
           ∃ old, fs w' !! key E log_file
                  = Some (File (old +:+ failure_line E part_id e)))
        ∧ requests w' = requests w ∧ manager w' = manager w.
Proof.
  intros [f1 Hopen].
  destruct (open_key_file _ _ _ _ _ Hopen) as [old Hold].
  pose proof (write_key_lookup (key E log_file)
                (failure_line E part_id e) old f1 Hold) as Hline.
  unfold on_failure, bind, open_for_write. rewrite Hopen.
  unfold f_write, logger, os_path_exists, exists_at. simpl.
  fold (failure_line E part_id e).
  set (f2 := write_key (key E log_file) _ f1) in *.
  set (T := key E tar_path).
  destruct (node_at f2 T) as [[b|]|] eqn:HT; unfold try_except, os_remove, ret; simpl;
    fold T; rewrite ?HT; simpl.
  - eexists. split; [reflexivity|]. simpl. split; [|split; [|done]].
    + intros b'. destruct T as [|c T']; [done|]. simpl. by rewrite lookup_delete_eq.
    + intros Hne. exists old. by rewrite lookup_delete_ne.
  - eexists. split; [reflexivity|]. simpl. split; [|split; [|done]].
    + intros b'. by rewrite HT.
    + intros _. by exists old.
  - eexists. split; [reflexivity|]. simpl. split; [|split; [|done]].
    + intros b'. by rewrite HT.
    + intros _. by exists old.
Qed.

Lemma key_tar_path (part_id : string) (target_path : option string) :
  plain part_id = true →
  key E (tar_path_of E part_id target_path)
  = key E (base_dir_of E target_path) ++ [part_id +:+ ".tar"].
Proof. intros H. apply locate_join; [apply base_dir_nonempty|by apply plain_tar]. Qed.

Lemma key_log_file (target_path : option string) :
  key E (log_file_of E target_path)
  = key E (base_dir_of E target_path) ++ ["failed_downloads.log"].
Proof. apply locate_join; [apply base_dir_nonempty|done]. Qed.

Lemma log_is_not_the_archive (part_id : string) (target_path : option string) :
  plain part_id = true →
  key E (log_file_of E target_path) ≠ key E (tar_path_of E part_id target_path).
Proof.
  intros H. rewrite key_log_file, key_tar_path by done.
  intros Heq%app_inv_head. injection Heq as Heq.
  by apply (tar_is_not_the_log part_id).
Qed.

(** A handler that returns has removed the archive file. *)
Lemma on_failure_returned (part_id log_file tar_path : string) (e : exn)
    (w : world) (r : result) (w' : world) :
  on_failure E part_id log_file tar_path e w = (Ok r, w') →
  r = failed_result E part_id e
  ∧ (∀ b, node_at (fs w') (key E tar_path) ≠ Some (File b)).
Proof.
  intros Hrun.
  assert (Hlog : ∃ f, open_key false log_file (key E log_file) (fs w) = Ok f).
  { unfold on_failure, bind at 1, bind at 1, open_for_write in Hrun.
    destruct (open_key false log_file (key E log_file) (fs w)) as [f|e0]; [eauto|done]. }
  destruct (on_failure_outcome part_id log_file tar_path e w Hlog)
    as (w1 & Hout & Hgone & _).
  rewrite Hout in Hrun. by injection Hrun as <- <-.
Qed.

Lemma stays_write_chunks k (f : list string) (chunks : list string) :
  keeps_a_file k (write_chunks f chunks).
Proof.
  induction chunks as [|chunk rest IH]; simpl; [apply stays_ret|].
  apply stays_bind; [|intros _; exact IH].
  destruct (nonempty chunk); [apply stays_f_write|apply stays_ret].
Qed.

(** A download that went through left a regular file at the archive
    path. *)
Lemma fetch_ok_file (tar_url tar_path : string) (w w' : world) :
  fetch E tar_url tar_path w = (Ok tt, w') →
  key E tar_path ≠ [] ∧ is_file_at (fs w') (key E tar_path).
Proof.
  unfold fetch, bind at 1, session_get_stream.
  destruct (session_get E (length (requests w)) tar_url) as [e|chunks broken]; [done|].
  unfold bind at 1, open_for_write. simpl.
  destruct (open_key true tar_path (key E tar_path) (fs w)) as [f1|e] eqn:Hopen; [|done].
  unfold bind at 1.
  match goal with
  | |- context [write_chunks ?k chunks ?w1] =>
      destruct (write_chunks k chunks w1) as [[[]|e] w2] eqn:Hw; [|done]
  end.
  intros Hrun. assert (w' = w2) as -> by (destruct broken; by injection Hrun).
  split.
  - intros Hk. rewrite Hk in Hopen. done.
  - eapply stays_write_chunks; [exact Hw|]. simpl.
    exists "". by apply open_key_truncated in Hopen.
Qed.

Lemma stays_write_completion_marker k (base_dir part_id : string) :
  keeps_a_file k (write_completion_marker E base_dir part_id).
Proof.
  unfold write_completion_marker.
  apply stays_bind; [apply stays_open|]. intros f. apply stays_f_write.
Qed.

(** The body of the inner [try] returns only the success dictionary, and
    then the archive is there unless its removal was asked for. *)
Lemma process_returned (part_id : string) (target_path : option string)
    (base_dir tar_url tar_path filename : string) (delete_tar : bool)
    (w : world) (r : result) (w' : world) :
  process E part_id target_path base_dir tar_url tar_path filename delete_tar w = (Ok r, w') →
  r = {| part_id := part_id; success := true; error := None; skipped := false |}
  ∧ (if delete_tar then fs w' !! key E tar_path = None
     else is_file_at (fs w') (key E tar_path)).
Proof.
  unfold process, bind at 1.
  destruct (fetch E tar_url tar_path w) as [[[]|e] w1] eqn:Hf; [|done].
  unfold bind at 1.
  destruct (extract_tar E part_id tar_path target_path w1) as [[[]|e] w2] eqn:Hx; [|done].
  unfold bind at 1.
  destruct (write_completion_marker E base_dir part_id w2) as [[[]|e] w3] eqn:Hm; [|done].
  destruct (fetch_ok_file _ _ _ _ Hf) as [Hne Hfile].
  assert (Hfile3 : is_file_at (fs w3) (key E tar_path)).
  { eapply stays_write_completion_marker; [exact Hm|].
    eapply stays_extract_tar; [exact Hx|]. exact Hfile. }
  destruct delete_tar.
  - unfold bind, try_except, os_remove, logger, ret.
    destruct Hfile3 as [b Hb].
    assert (Hnode : node_at (fs w3) (key E tar_path) = Some (File b))
      by (destruct (key E tar_path); [done|exact Hb]).
    rewrite Hnode. simpl. intros [= <- <-]. simpl.
    split; [done|]. apply lookup_delete_eq.
  - unfold bind, logger, ret. simpl. intros [= <- <-]. done.
Qed.

(** Every way [download_tar] returns. *)
Lemma download_tar_returned (part_id : string) (target_path : option string)
    (main_link : string) (delete_tar : bool) (w : world) (r : result) (w' : world) :
  download_tar E part_id target_path main_link delete_tar w = (Ok r, w') →
  (success r = false →
   ∀ b, node_at (fs w') (key E (tar_path_of E part_id target_path)) ≠ Some (File b))
  ∧ (success r = true → skipped r = false →
     if delete_tar then fs w' !! key E (tar_path_of E part_id target_path) = None
     else is_file_at (fs w') (key E (tar_path_of E part_id target_path))).
Proof.
  unfold download_tar, bind at 1.
  destruct (os_makedirs E (base_dir_of E target_path) w) as [[[]|e] w0]; [|done].
  fold (extract_dir_of E part_id target_path).
  fold (completion_marker_of E part_id target_path).
  fold (tar_path_of E part_id target_path).
  fold (log_file_of E target_path).
  set (T := tar_path_of E part_id target_path).
  unfold try_except.
  match goal with
  | |- context [bind (os_path_exists E ?m) ?body w0] =>
      destruct (bind (os_path_exists E m) body w0) as [[r0|e] w1] eqn:Hbody
  end.
  - intros [= <- <-].
    unfold bind at 1, os_path_exists in Hbody.
    destruct (exists_at (fs w0) _).
    { unfold bind, logger, ret in Hbody. injection Hbody as <- <-. simpl. by split. }
    unfold bind at 1 in Hbody.
    destruct (cleanup_stale E part_id _ T w0) as [[[]|e] w2]; [|done].
    unfold fresh_download, bind at 1, position_manager_acquire, try_finally in Hbody.
    match type of Hbody with
    | context [process E ?a ?b ?c ?d ?e ?f ?g ?w3] =>
        destruct (process E a b c d e f g w3) as [[r1|e1] w4] eqn:Hp
    end; unfold position_manager_release in Hbody; [|done].
    injection Hbody as <- <-.
    apply process_returned in Hp as [-> Hfile]. simpl.
    split; [done|]. intros _ _. exact Hfile.
  - intros Hfail. apply on_failure_returned in Hfail as [-> Hgone]. simpl.
    split; [|done]. intros _. exact Hgone.
Qed.

(** C2, as the code has it.  When the archive was downloaded and
    [extract_tar] raises, [download_tar] appends the failure to the
    failure log and returns the item as failed, and the handler that
    serves every failure removes the local archive: no archive file is
    left at the item's archive path.  Whenever [download_tar] returns an
    item as failed no archive file is left; after a success that did
    work, the archive file is gone when its removal was asked for and is
    there when it was not. *)
Theorem extraction_failure_removes_archive (part_id : string)
    (target_path : option string) (main_link : string) (delete_tar : bool) (w : world) :
  let tar_path := tar_path_of E part_id target_path in
  let log_file := log_file_of E target_path in
  plain part_id = true →
  (∀ w0 w1 w2 w3 e,
     os_makedirs E (base_dir_of E target_path) w = (Ok tt, w0) →
     exists_at (fs w0) (key E (completion_marker_of E part_id target_path)) = false →
     cleanup_stale E part_id (extract_dir_of E part_id target_path) tar_path w0 = (Ok tt, w1) →
     fetch E (main_link +:+ "/" +:+ part_id +:+ ".tar") tar_path
       (position_manager_acquire part_id w1).2 = (Ok tt, w2) →
     extract_tar E part_id tar_path target_path w2 = (Raise e, w3) →
     (∃ f, open_key false log_file (key E log_file) (fs w3) = Ok f) →
     ∃ w',
       download_tar E part_id target_path main_link delete_tar w
       = (Ok {| part_id := part_id; success := false;
                error := Some (str E e); skipped := false |}, w')
       ∧ (∀ b, node_at (fs w') (key E tar_path) ≠ Some (File b))
       ∧ (∃ old, fs w' !! key E log_file
                 = Some (File (old +:+ failure_line E part_id e))))
  ∧ (∀ r w',
       download_tar E part_id target_path main_link delete_tar w = (Ok r, w') →
       (success r = false → ∀ b, node_at (fs w') (key E tar_path) ≠ Some (File b))
       ∧ (success r = true → skipped r = false →
          if delete_tar then fs w' !! key E tar_path = None
          else is_file_at (fs w') (key E tar_path))).
Proof.
  intros tar_path log_file Hid. split; [|apply download_tar_returned].
  intros w0 w1 w2 w3 e Hmk Hm Hc Hf Hx Hlog.
  destruct (on_failure_outcome part_id log_file tar_path e
              (set_manager (PositionManager.release part_id (manager w3)) w3) Hlog)
    as (w' & Hfail & Hgone & Hline & _).
  exists w'. split; [|split; [done|]].
  - unfold download_tar, bind at 1. rewrite Hmk.
    unfold try_except, bind at 1, os_path_exists.
    fold (extract_dir_of E part_id target_path).
    fold (completion_marker_of E part_id target_path).
    rewrite Hm. unfold bind at 1.
    fold (tar_path_of E part_id target_path). fold tar_path.
    rewrite Hc. unfold fresh_download, bind at 1.
    unfold position_manager_acquire at 1.
    unfold try_finally, process, bind at 1.
    unfold position_manager_acquire in Hf. simpl in Hf. rewrite Hf.
    unfold bind at 1. rewrite Hx.
    unfold position_manager_release.
    fold (log_file_of E target_path). fold log_file.
    exact Hfail.
  - apply Hline. by apply log_is_not_the_archive.
Qed.

End PipelineFacts.

(** ** Preservation through the monad *)

Section Frames.
Context (E : Env).
Import PosixPath PathFacts FsFacts.

Lemma preserves_ret {A} (P : world → world → Prop) `{!Reflexive P} (a : A) :
  preserves P (ret a).
Proof. intros w r w' [= <- <-]. reflexivity. Qed.

Lemma preserves_raise {A} (P : world → world → Prop) `{!Reflexive P} (e : exn) :
  preserves P (@raise A e).
Proof. intros w r w' [= <- <-]. reflexivity. Qed.

Lemma preserves_lift {A} (P : world → world → Prop) `{!Reflexive P} (r : res A) :
  preserves P (lift r).
Proof. intros w r' w' [= <- <-]. reflexivity. Qed.

Lemma preserves_bind {A B} (P : world → world → Prop) `{!Transitive P}
    (m : M A) (g : A → M B) :
  preserves P m → (∀ a, preserves P (g a)) → preserves P (bind m g).
Proof.
  intros Hm Hg w r w' Hrun. unfold bind in Hrun.
  destruct (m w) as [[a|e] w1] eqn:Hmw.
  - transitivity w1; [by eapply Hm|by eapply Hg].
  - injection Hrun as <- <-. by eapply Hm.
Qed.

Lemma preserves_try_except {A} (P : world → world → Prop) `{!Transitive P}
    (m : M A) (h : exn → M A) :
  preserves P m → (∀ e, preserves P (h e)) → preserves P (try_except m h).
Proof.
  intros Hm Hh w r w' Hrun. unfold try_except in Hrun.
  destruct (m w) as [[a|e] w1] eqn:Hmw.
  - injection Hrun as <- <-. by eapply Hm.
  - transitivity w1; [by eapply Hm|by eapply Hh].
Qed.

Lemma preserves_try_finally {A} (P : world → world → Prop) `{!Transitive P}
    (m : M A) (f : M unit) :
  preserves P m → preserves P f → preserves P (try_finally m f).
Proof.
  intros Hm Hf w r w' Hrun. unfold try_finally in Hrun.
  destruct (m w) as [r1 w1] eqn:Hmw. destruct (f w1) as [[[]|e] w2] eqn:Hfw;
    injection Hrun as <- <-; (transitivity w1; [by eapply Hm|by eapply Hf]).
Qed.

Global Instance same_requests_refl : Reflexive same_requests.
Proof. by intros w. Qed.
Global Instance same_requests_trans : Transitive same_requests.
Proof. unfold same_requests. intros w1 w2 w3 H1 H2. congruence. Qed.
Global Instance same_manager_refl : Reflexive same_manager.
Proof. by intros w. Qed.
Global Instance same_manager_trans : Transitive same_manager.
Proof. unfold same_manager. intros w1 w2 w3 H1 H2. congruence. Qed.
Global Instance same_fs_refl : Reflexive same_fs.
Proof. by intros w. Qed.
Global Instance same_fs_trans : Transitive same_fs.
Proof. unfold same_fs. intros w1 w2 w3 H1 H2. congruence. Qed.
Global Instance wf_kept_refl : Reflexive wf_kept.
Proof. intros w H. exact H. Qed.
Global Instance wf_kept_trans : Transitive wf_kept.
Proof. unfold wf_kept. intros w1 w2 w3 H1 H2. auto. Qed.
Global Instance still_there_refl k : Reflexive (still_there k).
Proof. intros w H. exact H. Qed.
Global Instance still_there_trans k : Transitive (still_there k).
Proof. unfold still_there. intros w1 w2 w3 H1 H2. auto. Qed.

Lemma quiet_exists (P : world → world → Prop) `{!Reflexive P} (p : string) :
  preserves P (os_path_exists E p).
Proof. intros w r w' [= <- <-]. reflexivity. Qed.

Lemma quiet_read_file (P : world → world → Prop) `{!Reflexive P} (p : string) :
  preserves P (read_file E p).
Proof.
  intros w r w' H. unfold read_file in H.
  destruct (node_at (fs w) (key E p)) as [[?|]|]; injection H as <- <-; reflexivity.
Qed.

Lemma fs_only_makedirs (P : world → world → Prop) (p : string) :
  (∀ w f, P w (set_fs f w)) → (∀ w, P w w) → preserves P (os_makedirs E p).
Proof.
  intros Hset Hrefl w r w' H. unfold os_makedirs in H.
  destruct (nonempty p); [|injection H as <- <-; apply Hrefl].
  destruct (mkdirs p [] (key E p) (fs w)). injection H as <- <-. apply Hset.
Qed.

Lemma fs_only_open (P : world → world → Prop) (truncate : bool) (p : string) :
  (∀ w f, P w (set_fs f w)) → (∀ w, P w w) → preserves P (open_for_write E truncate p).
Proof.
  intros Hset Hrefl w r w' H. unfold open_for_write in H.
  destruct (open_key truncate p (key E p) (fs w)); injection H as <- <-; auto.
Qed.

Lemma fs_only_f_write (P : world → world → Prop) (k : list string) (bytes : string) :
  (∀ w f, P w (set_fs f w)) → preserves P (f_write k bytes).
Proof. intros Hset w r w' [= <- <-]. apply Hset. Qed.

Lemma fs_only_remove (P : world → world → Prop) (p : string) :
  (∀ w f, P w (set_fs f w)) → (∀ w, P w w) → preserves P (os_remove E p).
Proof.
  intros Hset Hrefl w r w' H. unfold os_remove in H.
  destruct (node_at (fs w) (key E p)) as [[?|]|]; injection H as <- <-; auto.
Qed.

Lemma fs_only_rmtree (P : world → world → Prop) (p : string) :
  (∀ w f, P w (set_fs f w)) → (∀ w, P w w) → preserves P (shutil_rmtree E p).
Proof.
  intros Hset Hrefl w r w' H. unfold shutil_rmtree in H.
  destruct (node_at (fs w) (key E p)) as [[?|]|]; injection H as <- <-; auto.
Qed.

End Frames.

(** *** Computations that touch only files and the application log *)

Section Blind.
Context (E : Env) (P : world → world → Prop) `{!Transitive P} (HP : blind P).

Local Instance blind_refl : Reflexive P.
Proof. intros w. apply HP. Qed.

Lemma blind_logger (l : level) (msg : string) : preserves P (logger l msg).
Proof.
  intros w r w' H. destruct HP as (_ & _ & Hlog).
  specialize (Hlog w l msg). rewrite H in Hlog. exact Hlog.
Qed.

Lemma blind_makedirs (p : string) : preserves P (os_makedirs E p).
Proof. apply fs_only_makedirs; apply HP. Qed.

Lemma blind_open (truncate : bool) (p : string) : preserves P (open_for_write E truncate p).
Proof. apply fs_only_open; apply HP. Qed.

Lemma blind_f_write (k : list string) (bytes : string) : preserves P (f_write k bytes).
Proof. apply fs_only_f_write; apply HP. Qed.

Lemma blind_remove (p : string) : preserves P (os_remove E p).
Proof. apply fs_only_remove; apply HP. Qed.

Lemma blind_rmtree (p : string) : preserves P (shutil_rmtree E p).
Proof. apply fs_only_rmtree; apply HP. Qed.

Lemma blind_img_save (img : image E) (p fmt : string) (q : Z) :
  preserves P (img_save E img p fmt q).
Proof.
  unfold img_save.
  apply preserves_bind; [apply _| |].
  { apply preserves_bind; [apply _|apply quiet_exists; apply _|]. intros ?. apply preserves_ret; apply _. }
  intros created. apply preserves_bind; [apply _|apply blind_open|]. intros f.
  destruct (Image_save E img fmt q); [apply blind_f_write|].
  apply preserves_bind; [apply _| |intros _; apply preserves_raise; apply _].
  destruct created; [|apply preserves_ret; apply _].
  apply preserves_try_except; [apply _|apply blind_remove|]. intros _. apply preserves_ret; apply _.
Qed.

Lemma blind_convert_image (bytes : res string) (member_path : string) :
  preserves P (convert_image E bytes member_path).
Proof.
  unfold convert_image.
  apply preserves_bind; [apply _|apply preserves_lift; apply _|]. intros raw.
  apply preserves_bind; [apply _|apply preserves_lift; apply _|]. intros img0.
  apply preserves_bind; [apply _|apply preserves_lift; apply _|]. intros img1.
  apply preserves_bind; [apply _|apply preserves_lift; apply _|]. intros img2.
  apply preserves_bind; [apply _|apply blind_makedirs|]. intros _.
  apply blind_img_save.
Qed.

Lemma blind_copy_raw (extracted : ExFile) (member_path : string) :
  preserves P (copy_raw E extracted member_path).
Proof.
  unfold copy_raw.
  apply preserves_bind; [apply _|apply blind_makedirs|]. intros _.
  apply preserves_bind; [apply _|apply blind_open|]. intros f.
  apply preserves_bind; [apply _|apply preserves_lift; apply _|]. intros bytes.
  apply blind_f_write.
Qed.

Lemma blind_extract_member (dest_folder : string) (member : TarInfo) :
  preserves P (extract_member E dest_folder member).
Proof.
  unfold extract_member.
  apply preserves_bind; [apply _|apply preserves_lift; apply _|]. intros cp.
  destruct (negb (startswith cp dest_folder)); [apply preserves_ret; apply _|].
  destruct (extractfile member) as [payload|]; [|apply preserves_ret; apply _].
  apply preserves_try_except; [apply _|apply blind_convert_image|].
  intros _. apply blind_copy_raw.
Qed.

Lemma blind_extract_members (dest_folder : string) (members : list TarInfo) :
  preserves P (extract_members E dest_folder members).
Proof.
  induction members as [|m rest IH]; simpl; [apply preserves_ret; apply _|].
  apply preserves_bind; [apply _|apply blind_extract_member|]. intros _. exact IH.
Qed.

Lemma blind_extract_tar (part_id tar_path : string) (target_path : option string) :
  preserves P (extract_tar E part_id tar_path target_path).
Proof.
  unfold extract_tar.
  apply preserves_bind; [apply _|apply blind_makedirs|]. intros _.
  apply preserves_try_except; [apply _| |].
  - apply preserves_bind; [apply _|apply quiet_read_file; apply _|]. intros archive.
    apply preserves_bind; [apply _|apply preserves_lift; apply _|]. intros all.
    apply blind_extract_members.
  - intros e. apply preserves_bind; [apply _|apply blind_logger|]. intros _.
    apply preserves_raise; apply _.
Qed.

Lemma blind_cleanup_stale (part_id extract_dir tar_path : string) :
  preserves P (cleanup_stale E part_id extract_dir tar_path).
Proof.
  unfold cleanup_stale.
  apply preserves_bind; [apply _|apply quiet_exists; apply _|]. intros stale_dir.
  apply preserves_bind; [apply _| |].
  { destruct stale_dir; [|apply preserves_ret; apply _].
    apply preserves_bind; [apply _|apply blind_logger|]. intros _. apply blind_rmtree. }
  intros _. apply preserves_bind; [apply _|apply quiet_exists; apply _|]. intros stale_tar.
  destruct stale_tar; [|apply preserves_ret; apply _].
  apply preserves_bind; [apply _|apply blind_logger|]. intros _. apply blind_remove.
Qed.

Lemma blind_write_completion_marker (base_dir part_id : string) :
  preserves P (write_completion_marker E base_dir part_id).
Proof.
  unfold write_completion_marker.
  apply preserves_bind; [apply _|apply blind_open|]. intros f. apply blind_f_write.
Qed.

Lemma blind_on_failure (part_id log_file tar_path : string) (e : exn) :
  preserves P (on_failure E part_id log_file tar_path e).
Proof.
  unfold on_failure.
  apply preserves_bind; [apply _| |].
  { apply preserves_bind; [apply _|apply blind_open|]. intros f. apply blind_f_write. }
  intros _. apply preserves_bind; [apply _|apply blind_logger|]. intros _.
  apply preserves_bind; [apply _|apply quiet_exists; apply _|]. intros left_over.
  apply preserves_bind; [apply _| |intros _; apply preserves_ret; apply _].
  destruct left_over; [|apply preserves_ret; apply _].
  apply preserves_try_except; [apply _|apply blind_remove|]. intros _. apply preserves_ret; apply _.
Qed.

Lemma blind_write_chunks (f : list string) (chunks : list string) :
  preserves P (write_chunks f chunks).
Proof.
  induction chunks as [|chunk rest IH]; simpl; [apply preserves_ret; apply _|].
  apply preserves_bind; [apply _| |intros _; exact IH].
  destruct (nonempty chunk); [apply blind_f_write|apply preserves_ret; apply _].
Qed.

End Blind.

Lemma same_requests_blind : blind same_requests.
Proof. by split; [|split]. Qed.

Lemma same_manager_blind : blind same_manager.
Proof. by split; [|split]. Qed.

(** ** More on the slot allocator *)

Module PositionManagerMore.
Import PositionManager.

Lemma exclusive_init (n : Z) : slots_exclusive n (init n).
Proof.
  split; [|split; [|split]]; simpl.
  - unfold range. apply NoDup_fmap_2; [apply _|apply NoDup_seq].
  - apply PositionManagerFacts.range_bounds.
  - intros o p H. by rewrite lookup_empty in H.
  - intros o1 o2 p H. by rewrite lookup_empty in H.
Qed.

Lemma exclusive_acquire n task_id self :
  slots_exclusive n self → slots_exclusive n (acquire task_id self).2.
Proof.
  intros (Hnd & Hb & Hu & Hinj). unfold acquire.
  destruct (available self) as [|pos rest] eqn:Ha; simpl.
  { unfold slots_exclusive. rewrite Ha. auto. }
  apply NoDup_cons in Hnd as [Hpos Hrest].
  apply Forall_cons in Hb as [Hpb Hrb].
  split; [done|]. split; [done|]. simpl. split.
  - intros o p. rewrite lookup_insert. case_decide as Ho.
    + intros [= <-]. done.
    + intros Hp. destruct (Hu o p Hp) as [Hn Hr]. split; [|done].
      intros Hin. apply Hn. by right.
  - intros o1 o2 p. rewrite !lookup_insert.
    case_decide as H1; case_decide as H2; subst; try done.
    + intros [= <-] Hp. destruct (Hu o2 pos Hp) as [Hn _]. exfalso. apply Hn. by left.
    + intros Hp [= <-]. destruct (Hu o1 pos Hp) as [Hn _]. exfalso. apply Hn. by left.
    + apply Hinj.
Qed.

Lemma exclusive_release n task_id self :
  slots_exclusive n self → slots_exclusive n (release task_id self).
Proof.
  intros (Hnd & Hb & Hu & Hinj). unfold release.
  destruct (in_use self !! task_id) as [pos|] eqn:Hp; [|done].
  destruct (Hu _ _ Hp) as [Hfree Hrange].
  split; [|split; [|split]]; simpl.
  - rewrite merge_sort_Permutation. apply NoDup_app. split; [done|].
    split; [|apply NoDup_singleton].
    intros x Hx ->%list_elem_of_singleton. done.
  - rewrite merge_sort_Permutation. apply Forall_app. split; [done|].
    by constructor.
  - intros o p Ho. apply lookup_delete_Some in Ho as [Hne Ho].
    destruct (Hu o p Ho) as [Hn Hr]. split; [|done].
    rewrite merge_sort_Permutation. intros [Hin|Hin%list_elem_of_singleton]%elem_of_app; [done|].
    subst p. apply Hne. by apply (Hinj task_id o pos).
  - intros o1 o2 p H1 H2.
    apply lookup_delete_Some in H1 as [_ H1]. apply lookup_delete_Some in H2 as [_ H2].
    by apply (Hinj o1 o2 p).
Qed.

Lemma exclusive_run n calls self : slots_exclusive n self → slots_exclusive n (run calls self).
Proof.
  revert self. induction calls as [|c calls IH]; intros self H; [done|].
  simpl. apply IH. destruct c; simpl; auto using exclusive_acquire, exclusive_release.
Qed.

Lemma slots_are_exclusive_aux (n : Z) (calls : list call) :
  slots_exclusive n (run calls (init n)).
Proof. apply exclusive_run, exclusive_init. Qed.

(** X1. Whatever calls were made on an allocator created with [n]
    slots, no slot is in the free list twice, no slot is both free and
    held, no two owners hold the same slot, and every slot is in
    [[0, n)]. *)
Theorem slots_are_exclusive (n : Z) (calls : list call) :
  slots_exclusive n (run calls (init n)).
Proof. apply exclusive_run, exclusive_init. Qed.

Lemma release_after_acquire (n : Z) (self : t) (owner : string) :
  inv n self →
  available self ≠ [] →
  in_use self !! owner = None →
  release owner (acquire owner self).2 = self.
Proof.
  intros (Hs & _ & _) Hne Hfree.
  unfold acquire. destruct (available self) as [|pos rest] eqn:Ha; [done|].
  unfold release. simpl. rewrite lookup_insert_eq. simpl.
  rewrite delete_insert_eq, delete_id by done.
  assert (Heq : merge_sort Z.le (rest ++ [pos]) = pos :: rest).
  { apply (Sorted_unique Z.le); [apply Sorted_merge_sort; apply _|done|].
    rewrite merge_sort_Permutation. symmetry. apply Permutation_cons_append. }
  rewrite Heq, <- Ha. by destruct self.
Qed.

(** X2. On an allocator reached by any calls, an owner that holds no
    slot and finds the pool not empty can acquire and release, and the
    allocator is exactly as before. *)
Theorem acquire_release_round_trip (n : Z) (calls : list call) (owner : string) :
  let self := run calls (init n) in
  available self ≠ [] →
  in_use self !! owner = None →
  release owner (acquire owner self).2 = self.
Proof.
  intros self. apply (release_after_acquire n).
  apply PositionManagerFacts.inv_run, PositionManagerFacts.inv_init.
Qed.

Lemma known_step (p : Z) (self : t) (c : call) :
  slot_known p (step self c) → slot_known p self.
Proof.
  destruct c as [o|o]; simpl.
  - unfold acquire. destruct (available self) as [|pos rest] eqn:Ha; [done|]. simpl.
    unfold slot_known. simpl. rewrite Ha. intros [Hin|[o' Ho']].
    + left. by right.
    + rewrite lookup_insert in Ho'. case_decide.
      * injection Ho' as <-. left. by left.
      * right. eauto.
  - unfold release. destruct (in_use self !! o) as [pos|] eqn:Hp; [|done].
    unfold slot_known. simpl. rewrite merge_sort_Permutation.
    intros [[Hin|Hin%list_elem_of_singleton]%elem_of_app|[o' Ho']].
    + by left.
    + subst. right. eauto.
    + apply lookup_delete_Some in Ho' as [_ Ho']. right. eauto.
Qed.

Lemma known_run (p : Z) (calls : list call) (self : t) :
  slot_known p (run calls self) → slot_known p self.
Proof.
  revert self. induction calls as [|c calls IH]; intros self H; [done|].
  simpl in H. apply IH in H. by apply known_step in H.
Qed.

(** X3. An owner that already holds a slot and acquires again, the
    pool not being empty, loses the slot it held: from then on that slot
    is neither free nor held by anyone, whatever calls follow, so no
    later [acquire] can hand it out from the free list. *)
Theorem second_acquire_loses_the_slot (n : Z) (calls later : list call)
    (owner : string) (p : Z) :
  let self := run calls (init n) in
  in_use self !! owner = Some p →
  available self ≠ [] →
  ¬ slot_known p (run later (acquire owner self).2).
Proof.
  intros self Hheld Hne Hknown. apply known_run in Hknown.
  destruct (slots_are_exclusive_aux n calls) as (Hnd & _ & Hu & Hinj).
  fold self in Hnd, Hu, Hinj.
  destruct (Hu _ _ Hheld) as [Hfree _].
  unfold acquire in Hknown. destruct (available self) as [|pos rest] eqn:Ha; [done|].
  destruct Hknown as [Hin|[o Ho]]; simpl in *.
  - apply Hfree. by right.
  - rewrite lookup_insert in Ho. case_decide as Hoo.
    + injection Ho as ->. apply Hfree. by left.
    + apply Hoo. by apply (Hinj owner o p).
Qed.

End PositionManagerMore.

(** ** More on the batch coordinator *)

Section BatchMore.
Context (E : Env).

Lemma count_cons (c : counter) (future : string * res result)
    (rest : list (string * res result)) :
  count c (future :: rest)
  = ((if decide (counter_of future = c) then 1 else 0) + count c rest)%Z.
Proof.
  unfold count. rewrite filter_cons. case_decide; simpl length; lia.
Qed.

Lemma tally_one_counter (stats : Stats.t) (future : string * res result) (w : world) :
  (tally_one E stats future w).1
  = Ok (Stats.Build
          (Stats.success stats + (if decide (counter_of future = CountSuccess) then 1 else 0))
          (Stats.failed stats + (if decide (counter_of future = CountFailed) then 1 else 0))
          (Stats.skipped stats + (if decide (counter_of future = CountSkipped) then 1 else 0))).
Proof.
  unfold tally_one, counter_of. destruct (future.2) as [r|e]; simpl.
  - destruct (skipped r); [|destruct (success r)]; simpl;
      rewrite ?Z.add_0_r; by destruct stats.
  - rewrite ?Z.add_0_r. by destruct stats.
Qed.

Lemma tally_counts (completed : list (string * res result)) (stats : Stats.t) (w : world) :
  (tally E completed stats w).1
  = Ok (Stats.Build (Stats.success stats + count CountSuccess completed)
                    (Stats.failed stats + count CountFailed completed)
                    (Stats.skipped stats + count CountSkipped completed)).
Proof.
  revert stats w. induction completed as [|future rest IH]; intros stats w.
  - simpl. unfold count. simpl. rewrite !Z.add_0_r. by destruct stats.
  - simpl. unfold bind. pose proof (tally_one_counter stats future w) as H1.
    destruct (tally_one E stats future w) as [[s1|e] w1]; simpl in H1; [|done].
    injection H1 as ->. rewrite IH, !count_cons. simpl. f_equal. f_equal; lia.
Qed.

(** X4. The counters [download_batch] accumulates over the completed
    futures are the numbers of futures of each kind: skipped when the
    dictionary says so, success when it says success, failed otherwise
    and when the call raised.  They do not depend on the order in which
    the futures complete. *)
Theorem tally_is_order_independent
    (completed completed' : list (string * res result)) (stats : Stats.t) (w w' : world) :
  completed ≡ₚ completed' →
  (tally E completed stats w).1
  = Ok (Stats.Build (Stats.success stats + count CountSuccess completed)
                    (Stats.failed stats + count CountFailed completed)
                    (Stats.skipped stats + count CountSkipped completed))
  ∧ (tally E completed' stats w').1 = (tally E completed stats w).1.
Proof.
  intros Hperm. split; [apply tally_counts|].
  rewrite !tally_counts. unfold count. by rewrite Hperm.
Qed.

End BatchMore.

(** ** More on the pipeline of one item *)

Section PipelineMore.
Context (E : Env).
Import PosixPath PathFacts FsFacts.

Lemma string_app_assoc (a b c : string) : (a +:+ b) +:+ c = a +:+ (b +:+ c).
Proof. induction a as [|x a IH]; [done|]. rewrite !app_cons. by f_equal. Qed.

Lemma string_app_empty (a : string) : a +:+ "" = a.
Proof. induction a as [|x a IH]; [done|]. rewrite app_cons. by f_equal. Qed.

(** The loop of lines 246-249 appends the chunks in order. *)
Lemma write_chunks_content (k : list string) (chunks : list string) (w : world) (c : string) :
  fs w !! k = Some (File c) →
  ∃ w', write_chunks k chunks w = (Ok tt, w')
        ∧ fs w' !! k = Some (File (c +:+ joined chunks))
        ∧ (∀ k', k' ≠ k → fs w' !! k' = fs w !! k')
        ∧ requests w' = requests w ∧ manager w' = manager w.
Proof.
  revert w c. induction chunks as [|chunk rest IH]; intros w c Hk.
  - exists w. simpl. by rewrite string_app_empty.
  - simpl. unfold bind. destruct (nonempty chunk) eqn:Hn.
    + unfold f_write.
      destruct (IH (set_fs (write_key k chunk (fs w)) w) (c +:+ chunk))
        as (w' & Hrun & Hc & Hframe & Hreq & Hman).
      { simpl. by apply write_key_lookup. }
      exists w'. rewrite Hrun. split; [done|]. split; [by rewrite Hc, string_app_assoc|].
      split; [|done]. intros k' Hne. rewrite (Hframe k' Hne). simpl.
      unfold write_key. rewrite Hk. by rewrite lookup_insert_ne.
    + destruct (IH w c Hk) as (w' & Hrun & Hc & Hframe & Hreq & Hman).
      exists w'. unfold ret. rewrite Hrun. split; [done|].
      destruct chunk; [|done]. done.
Qed.

(** X5. When the archive file can be opened for writing, [fetch] sends
    exactly one request, for the URL it is given, and then: an answer
    that fails before the body leaves the file system as it was and
    raises; a body leaves at the archive path exactly the bytes of its
    chunks in order, every other path untouched, and raises only when the
    body broke off. *)
Theorem fetch_stores_the_body (tar_url tar_path : string) (w : world)
    (f1 : gmap (list string) node) :
  open_key true tar_path (key E tar_path) (fs w) = Ok f1 →
  requests (fetch E tar_url tar_path w).2 = requests w ++ [tar_url]
  ∧ match session_get E (length (requests w)) tar_url with
    | HttpFail e =>
        (fetch E tar_url tar_path w).1 = Raise e
        ∧ fs (fetch E tar_url tar_path w).2 = fs w
    | HttpBody chunks broken =>
        (fetch E tar_url tar_path w).1
        = match broken with Some e => Raise e | None => Ok tt end
        ∧ fs (fetch E tar_url tar_path w).2 !! key E tar_path
          = Some (File (joined chunks))
        ∧ (∀ k, k ≠ key E tar_path →
                fs (fetch E tar_url tar_path w).2 !! k = fs w !! k)
    end.
Proof.
  intros Hopen.
  set (w1 := {| fs := fs w; requests := requests w ++ [tar_url];
                manager := manager w; app_log := app_log w |}).
  destruct (session_get E (length (requests w)) tar_url) as [e|chunks broken] eqn:Hresp.
  { assert (fetch E tar_url tar_path w = (Raise e, w1)) as ->.
    { unfold fetch, bind, session_get_stream. by rewrite Hresp. }
    simpl. auto. }
  destruct (write_chunks_content (key E tar_path) chunks (set_fs f1 w1) "")
    as (w2 & Hrun & Hc & Hframe & Hreq & _).
  { simpl. by apply open_key_truncated in Hopen. }
  assert (fetch E tar_url tar_path w
          = (match broken with Some e => Raise e | None => Ok tt end, w2)) as ->.
  { unfold fetch, bind, session_get_stream, open_for_write. rewrite Hresp.
    fold w1. simpl. rewrite Hopen, Hrun. by destruct broken. }
  simpl in *. rewrite app_nil_l in Hc.
  assert (Hother : ∀ k, k ≠ key E tar_path → f1 !! k = fs w !! k).
  { intros k Hne. unfold open_key in Hopen.
    destruct (key E tar_path) as [|c kp]; [done|].
    destruct (node_at (fs w) (removelast (c :: kp))) as [[?|]|]; try done.
    destruct (fs w !! (c :: kp)) as [[?|]|]; try done; injection Hopen as <-;
      by rewrite lookup_insert_ne. }
  split; [done|]. split; [done|]. split; [done|].
  intros k Hne. by rewrite Hframe, Hother.
Qed.

Lemma sends_bind {A B} (url : string) (m : M A) (g : A → M B) :
  preserves (one_request url) m → (∀ a, preserves same_requests (g a)) →
  preserves (one_request url) (bind m g).
Proof.
  intros Hm Hg w r w' Hrun. unfold bind in Hrun.
  destruct (m w) as [[a|e] w1] eqn:Hmw.
  - unfold one_request. rewrite (Hg a w1 r w' Hrun). by eapply Hm.
  - injection Hrun as <- <-. by eapply Hm.
Qed.

Lemma fetch_sends (tar_url tar_path : string) :
  preserves (one_request tar_url) (fetch E tar_url tar_path).
Proof.
  unfold fetch. apply sends_bind; [by intros w r w' [= <- <-]|].
  intros [e|chunks broken]; [apply preserves_raise; apply _|].
  apply preserves_bind; [apply _|apply (blind_open E _ same_requests_blind)|]. intros f.
  apply preserves_bind; [apply _|apply (blind_write_chunks _ same_requests_blind)|].
  intros _. destruct broken; [apply preserves_raise|apply preserves_ret]; apply _.
Qed.

Lemma process_sends (part_id : string) (target_path : option string)
    (base_dir tar_url tar_path filename : string) (delete_tar : bool) :
  preserves (one_request tar_url)
    (process E part_id target_path base_dir tar_url tar_path filename delete_tar).
Proof.
  pose proof same_requests_blind as Hb.
  unfold process. apply sends_bind; [apply fetch_sends|]. intros _.
  apply preserves_bind; [apply _|apply (blind_extract_tar E _ Hb)|]. intros _.
  apply preserves_bind; [apply _|apply (blind_write_completion_marker E _ Hb)|]. intros _.
  apply preserves_bind; [apply _| |].
  { destruct delete_tar; [|apply preserves_ret; apply _].
    apply preserves_try_except; [apply _|apply (blind_remove E _ Hb)|].
    intros e. apply (blind_logger _ Hb). }
  intros _. apply preserves_bind; [apply _|apply (blind_logger _ Hb)|]. intros _.
  apply preserves_ret; apply _.
Qed.

Lemma fresh_download_sends (part_id : string) (target_path : option string)
    (base_dir tar_url tar_path filename : string) (delete_tar : bool) :
  preserves (one_request tar_url)
    (fresh_download E part_id target_path base_dir tar_url tar_path filename delete_tar).
Proof.
  intros w r w' Hrun. unfold fresh_download, bind, position_manager_acquire in Hrun.
  unfold try_finally, position_manager_release in Hrun.
  match type of Hrun with
  | context [process E ?a ?b ?c ?d ?e ?f ?g ?w1] =>
      pose proof (process_sends a b c d e f g w1) as Hp;
      destruct (process E a b c d e f g w1) as [r1 w2]
  end.
  injection Hrun as <- <-. specialize (Hp _ _ eq_refl). exact Hp.
Qed.

Lemma download_tar_requests (part_id : string)
    (target_path : option string) (main_link : string) (delete_tar : bool)
    (w : world) (r : res result) (w' : world) :
  download_tar E part_id target_path main_link delete_tar w = (r, w') →
  (requests w' = requests w
   ∨ requests w' = requests w ++ [main_link +:+ "/" +:+ part_id +:+ ".tar"])
  ∧ (∀ r0, r = Ok r0 → skipped r0 = true → requests w' = requests w).
Proof.
  pose proof same_requests_blind as Hb.
  unfold download_tar, bind at 1.
  destruct (os_makedirs E (base_dir_of E target_path) w) as [[[]|e] w0] eqn:Hmk.
  2:{ intros [= <- <-]. rewrite (blind_makedirs E _ Hb _ _ _ _ Hmk). split; [by left|done]. }
  pose proof (blind_makedirs E _ Hb _ _ _ _ Hmk) as H0. unfold same_requests in H0.
  unfold try_except, bind at 1, os_path_exists.
  destruct (exists_at (fs w0) _).
  { unfold bind, logger, ret. intros [= <- <-]. simpl. split; [by left|done]. }
  unfold bind at 1.
  match goal with
  | |- context [cleanup_stale E ?a ?b ?c w0] =>
      pose proof (blind_cleanup_stale E _ Hb a b c w0) as Hc;
      destruct (cleanup_stale E a b c w0) as [[[]|e] w1]
  end; specialize (Hc _ _ eq_refl); unfold same_requests in Hc.
  2:{ intros Hof. pose proof (blind_on_failure E _ Hb _ _ _ _ _ _ _ Hof) as Hf.
      unfold same_requests in Hf.
      split; [left; congruence|]. intros; congruence. }
  match goal with
  | |- context [fresh_download E ?a ?b ?c ?d ?e ?f ?g w1] =>
      pose proof (fresh_download_sends a b c d e f g w1) as Hd;
      destruct (fresh_download E a b c d e f g w1) as [[r1|e1] w2] eqn:Hfd
  end; specialize (Hd _ _ eq_refl); unfold one_request in Hd.
  - intros [= <- <-]. split; [right; congruence|].
    intros r [= <-] Hs. exfalso.
    unfold fresh_download, bind, position_manager_acquire, try_finally in Hfd.
    match type of Hfd with
    | context [process E ?a ?b ?c ?d ?e ?f ?g ?w3] =>
        destruct (process E a b c d e f g w3) as [[r3|e3] w4] eqn:Hp
    end; unfold position_manager_release in Hfd; [|done].
    injection Hfd as <- _. apply process_returned in Hp as [-> _]. done.
  - intros Hof. pose proof (blind_on_failure E _ Hb _ _ _ _ _ _ _ Hof) as Hf.
    unfold same_requests in Hf.
    split; [right; congruence|].
    intros r0 -> Hs. exfalso.
    apply on_failure_returned in Hof as [-> _]. done.
Qed.

(** X6. One call of [download_tar] sends at most one request, and only
    for [main_link/part_id.tar]; a call that returns the item as skipped
    sends none. *)
Theorem download_tar_sends_at_most_one_request (part_id : string)
    (target_path : option string) (main_link : string) (delete_tar : bool) (w : world) :
  let run := download_tar E part_id target_path main_link delete_tar w in
  (requests run.2 = requests w
   ∨ requests run.2 = requests w ++ [main_link +:+ "/" +:+ part_id +:+ ".tar"])
  ∧ (∀ r, run.1 = Ok r → skipped r = true → requests run.2 = requests w).
Proof.
  intros run. subst run.
  destruct (download_tar E part_id target_path main_link delete_tar w) as [r w'] eqn:Hrun.
  exact (download_tar_requests _ _ _ _ _ _ _ Hrun).
Qed.

Lemma process_keeps_manager (part_id : string) (target_path : option string)
    (base_dir tar_url tar_path filename : string) (delete_tar : bool) :
  preserves same_manager
    (process E part_id target_path base_dir tar_url tar_path filename delete_tar).
Proof.
  pose proof same_manager_blind as Hb.
  unfold process. apply preserves_bind; [apply _| |].
  { unfold fetch. apply preserves_bind; [apply _|by intros w r w' [= <- <-]|].
    intros [e|chunks broken]; [apply preserves_raise; apply _|].
    apply preserves_bind; [apply _|apply (blind_open E _ Hb)|]. intros f.
    apply preserves_bind; [apply _|apply (blind_write_chunks _ Hb)|].
    intros _. destruct broken; [apply preserves_raise|apply preserves_ret]; apply _. }
  intros _.
  apply preserves_bind; [apply _|apply (blind_extract_tar E _ Hb)|]. intros _.
  apply preserves_bind; [apply _|apply (blind_write_completion_marker E _ Hb)|]. intros _.
  apply preserves_bind; [apply _| |].
  { destruct delete_tar; [|apply preserves_ret; apply _].
    apply preserves_try_except; [apply _|apply (blind_remove E _ Hb)|].
    intros e. apply (blind_logger _ Hb). }
  intros _. apply preserves_bind; [apply _|apply (blind_logger _ Hb)|]. intros _.
  apply preserves_ret; apply _.
Qed.

Lemma download_tar_manager (part_id : string)
    (target_path : option string) (main_link : string) (delete_tar : bool)
    (w : world) (r : res result) (w' : world) :
  download_tar E part_id target_path main_link delete_tar w = (r, w') →
  manager w' = manager w
  ∨ manager w'
    = PositionManager.release part_id (PositionManager.acquire part_id (manager w)).2.
Proof.
  pose proof same_manager_blind as Hb.
  unfold download_tar, bind at 1.
  destruct (os_makedirs E (base_dir_of E target_path) w) as [[[]|e] w0] eqn:Hmk.
  2:{ intros [= <- <-]. left. apply (blind_makedirs E _ Hb _ _ _ _ Hmk). }
  pose proof (blind_makedirs E _ Hb _ _ _ _ Hmk) as H0. unfold same_manager in H0.
  unfold try_except, bind at 1, os_path_exists.
  destruct (exists_at (fs w0) _).
  { unfold bind, logger, ret. intros [= <- <-]. by left. }
  unfold bind at 1.
  match goal with
  | |- context [cleanup_stale E ?a ?b ?c w0] =>
      pose proof (blind_cleanup_stale E _ Hb a b c w0) as Hc;
      destruct (cleanup_stale E a b c w0) as [[[]|e] w1]
  end; specialize (Hc _ _ eq_refl); unfold same_manager in Hc.
  2:{ intros Hof. pose proof (blind_on_failure E _ Hb _ _ _ _ _ _ _ Hof) as Hf.
      unfold same_manager in Hf. left. congruence. }
  unfold fresh_download, bind at 1, position_manager_acquire, try_finally.
  match goal with
  | |- context [process E ?a ?b ?c ?d ?e ?f ?g ?w2] =>
      pose proof (process_keeps_manager a b c d e f g w2) as Hp;
      destruct (process E a b c d e f g w2) as [[r1|e1] w3]
  end; specialize (Hp _ _ eq_refl); unfold same_manager in Hp; simpl in Hp;
    unfold position_manager_release.
  - intros [= <- <-]. right. simpl. congruence.
  - intros Hof. pose proof (blind_on_failure E _ Hb _ _ _ _ _ _ _ Hof) as Hf.
    unfold same_manager in Hf. simpl in Hf. right. congruence.
Qed.

(** X7. Whatever happens to the item, [download_tar] gives back the
    slot it took: on an allocator reached by any calls, with a free slot
    and the item holding none, the allocator after the call is the
    allocator before it. *)
Theorem download_tar_gives_the_slot_back (part_id : string)
    (target_path : option string) (main_link : string) (delete_tar : bool)
    (w : world) (n : Z) (calls : list PositionManager.call) :
  manager w = PositionManager.run calls (PositionManager.init n) →
  PositionManager.available (manager w) ≠ [] →
  PositionManager.in_use (manager w) !! part_id = None →
  manager (download_tar E part_id target_path main_link delete_tar w).2 = manager w.
Proof.
  intros Hreach Hfree Hnone.
  destruct (download_tar E part_id target_path main_link delete_tar w) as [r w'] eqn:Hrun.
  simpl. destruct (download_tar_manager _ _ _ _ _ _ _ Hrun) as [->| ->]; [done|].
  apply (PositionManagerMore.release_after_acquire n); [|done..].
  rewrite Hreach. apply PositionManagerFacts.inv_run, PositionManagerFacts.inv_init.
Qed.

(** What the handler of the outer [try] does, in full. *)
Lemma on_failure_spec (part_id log_file tar_path : string) (e : exn) (w : world)
    (f1 : gmap (list string) node) :
  open_key false log_file (key E log_file) (fs w) = Ok f1 →
  key E log_file ≠ key E tar_path →
  ∃ w', on_failure E part_id log_file tar_path e w = (Ok (failed_result E part_id e), w')
        ∧ fs w' !! key E log_file
          = Some (File (match fs w !! key E log_file with
                        | Some (File c) => c
                        | _ => ""
                        end +:+ failure_line E part_id e))
        ∧ (∀ b, node_at (fs w') (key E tar_path) ≠ Some (File b))
        ∧ (∀ k, k ≠ key E log_file → k ≠ key E tar_path → fs w' !! k = fs w !! k)
        ∧ (exists_at (fs w) (key E tar_path) = false →
           ∀ k, k ≠ key E log_file → fs w' !! k = fs w !! k).
Proof.
  intros Hopen Hne.
  set (L := key E log_file) in *. set (T := key E tar_path) in *.
  assert (Hf1 : f1 !! L = Some (File (match fs w !! L with
                                      | Some (File c) => c | _ => "" end))
                ∧ ∀ k, k ≠ L → f1 !! k = fs w !! k).
  { unfold open_key in Hopen. destruct L as [|c kp]; [done|].
    destruct (node_at (fs w) (removelast (c :: kp))) as [[?|]|]; try done.
    destruct (fs w !! (c :: kp)) as [[old|]|] eqn:Hk; try done; injection Hopen as <-.
    - by rewrite Hk.
    - rewrite lookup_insert_eq. split; [done|]. intros k Hk'. by rewrite lookup_insert_ne. }
  destruct Hf1 as [Hold Hother].
  pose proof (write_key_lookup L (failure_line E part_id e) _ f1 Hold) as Hline.
  assert (Hw : ∀ k, k ≠ L → write_key L (failure_line E part_id e) f1 !! k = fs w !! k).
  { intros k Hk. unfold write_key. rewrite Hold, lookup_insert_ne by done. by apply Hother. }
  unfold on_failure, bind, open_for_write. fold L. rewrite Hopen.
  unfold f_write, logger, os_path_exists, exists_at. simpl.
  fold (failure_line E part_id e). fold T.
  set (f2 := write_key L _ f1) in *.
  assert (HT2 : node_at f2 T = node_at (fs w) T).
  { destruct T as [|c kp]; [done|]. simpl. apply Hw. done. }
  destruct (node_at f2 T) as [[b|]|] eqn:HT; unfold try_except, os_remove, ret; simpl;
    fold T; rewrite ?HT; simpl.
  - eexists. split; [reflexivity|]. simpl. split; [by rewrite lookup_delete_ne|].
    split; [intros b'; destruct T as [|c T']; [done|]; simpl; by rewrite lookup_delete_eq|].
    split; [intros k Hk1 Hk2; rewrite lookup_delete_ne by done; by apply Hw|].
    by rewrite <- HT2.
  - eexists. split; [reflexivity|]. simpl. split; [done|].
    split; [intros b'; by rewrite HT|].
    split; [intros k Hk1 _; by apply Hw|]. by rewrite <- HT2.
  - eexists. split; [reflexivity|]. simpl. split; [done|].
    split; [intros b'; by rewrite HT|].
    split; [intros k Hk1 _; by apply Hw|]. intros _ k Hk. by apply Hw.
Qed.

(** X8. Every failure is appended to the failure log and nothing in it
    is lost: with the log and the archive at different paths and the log
    open for append, the handler leaves the log holding what it held
    (nothing, when it was not there) followed by the line
    [part_id - message], returns the failure dictionary carrying the
    message, leaves no archive file, and touches no other path. *)
Theorem failure_log_is_append_only (part_id log_file tar_path : string) (e : exn)
    (w : world) (f1 : gmap (list string) node) :
  let run := on_failure E part_id log_file tar_path e w in
  open_key false log_file (key E log_file) (fs w) = Ok f1 →
  key E log_file ≠ key E tar_path →
  run.1 = Ok {| part_id := part_id; success := false;
                error := Some (str E e); skipped := false |}
  ∧ fs run.2 !! key E log_file
    = Some (File (match fs w !! key E log_file with
                  | Some (File c) => c
                  | _ => ""
                  end +:+ (part_id +:+ " - " +:+ str E e) +:+ nl))
  ∧ (∀ b, node_at (fs run.2) (key E tar_path) ≠ Some (File b))
  ∧ (∀ k, k ≠ key E log_file → k ≠ key E tar_path → fs run.2 !! k = fs w !! k).
Proof.
  intros run Hopen Hne. subst run.
  destruct (on_failure_spec part_id log_file tar_path e w f1 Hopen Hne)
    as (w' & -> & Hlog & Hgone & Hframe & _).
  done.
Qed.

Lemma cleanup_ok_no_archive (part_id extract_dir tar_path : string) (w w' : world) :
  cleanup_stale E part_id extract_dir tar_path w = (Ok tt, w') →
  exists_at (fs w') (key E tar_path) = false.
Proof.
  unfold cleanup_stale, bind at 1, os_path_exists. unfold bind at 1.
  match goal with
  | |- context [(if ?c then ?a else ?b) w] => destruct ((if c then a else b) w) as [[[]|e] w1]
  end; [|done].
  unfold bind at 1. destruct (exists_at (fs w1) (key E tar_path)) eqn:Hex.
  - unfold bind, logger, os_remove. simpl.
    destruct (node_at (fs w1) (key E tar_path)) as [[b|]|] eqn:Hn; try done.
    intros [= <-]. simpl. unfold exists_at.
    destruct (key E tar_path) as [|c kp]; [done|]. simpl. by rewrite lookup_delete_eq.
  - intros [= <-]. done.
Qed.

(** X9. A download that fails before any byte arrives leaves nothing
    behind but its line in the failure log: the item is returned as
    failed with the message of the error, one request was sent, no
    archive file and no output directory were made, and every path other
    than the failure log is as the clean-up left it. *)
Theorem failed_download_leaves_only_the_log_line (part_id : string)
    (target_path : option string) (main_link : string) (delete_tar : bool)
    (w w0 w1 : world) (e : exn) (f1 : gmap (list string) node) :
  let tar_url := main_link +:+ "/" +:+ part_id +:+ ".tar" in
  let log_file := log_file_of E target_path in
  let run := download_tar E part_id target_path main_link delete_tar w in
  plain part_id = true →
  os_makedirs E (base_dir_of E target_path) w = (Ok tt, w0) →
  exists_at (fs w0) (key E (completion_marker_of E part_id target_path)) = false →
  cleanup_stale E part_id (extract_dir_of E part_id target_path)
    (tar_path_of E part_id target_path) w0 = (Ok tt, w1) →
  session_get E (length (requests w1)) tar_url = HttpFail e →
  open_key false log_file (key E log_file) (fs w1) = Ok f1 →
  run.1 = Ok {| part_id := part_id; success := false;
                error := Some (str E e); skipped := false |}
  ∧ requests run.2 = requests w ++ [tar_url]
  ∧ fs run.2 !! key E log_file
    = Some (File (match fs w1 !! key E log_file with
                  | Some (File c) => c
                  | _ => ""
                  end +:+ (part_id +:+ " - " +:+ str E e) +:+ nl))
  ∧ (∀ k, k ≠ key E log_file → fs run.2 !! k = fs w1 !! k).
Proof.
  intros tar_url log_file run Hid Hmk Hm Hc Hresp Hopen.
  pose proof (cleanup_ok_no_archive _ _ _ _ _ Hc) as Hno.
  pose proof (blind_makedirs E _ same_requests_blind _ _ _ _ Hmk) as Hr0.
  pose proof (blind_cleanup_stale E _ same_requests_blind _ _ _ _ _ _ Hc) as Hr1.
  unfold same_requests in Hr0, Hr1.
  set (w2 := {| fs := fs w1; requests := requests w1 ++ [tar_url];
                manager := PositionManager.release part_id
                             (PositionManager.acquire part_id (manager w1)).2;
                app_log := app_log w1 |}).
  destruct (on_failure_spec part_id log_file (tar_path_of E part_id target_path) e w2 f1
              Hopen (log_is_not_the_archive E part_id target_path Hid))
    as (w' & Hfail & Hlog & _ & _ & Hframe).
  assert (Hrun : run = (Ok (failed_result E part_id e), w')).
  { subst run. unfold download_tar, bind at 1. rewrite Hmk.
    unfold try_except, bind at 1, os_path_exists.
    fold (extract_dir_of E part_id target_path).
    fold (completion_marker_of E part_id target_path).
    rewrite Hm. unfold bind at 1.
    fold (tar_path_of E part_id target_path).
    rewrite Hc. unfold fresh_download, bind at 1.
    unfold position_manager_acquire at 1.
    unfold try_finally, process, bind at 1, fetch, bind at 1, session_get_stream.
    simpl. fold tar_url. rewrite Hresp. unfold raise, position_manager_release. simpl.
    fold (log_file_of E target_path). fold log_file. fold w2. exact Hfail. }
  rewrite Hrun. simpl. split; [done|]. split; [by rewrite (blind_on_failure E _
    same_requests_blind _ _ _ _ _ _ _ Hfail); simpl; rewrite Hr1, Hr0|].
  split; [exact Hlog|]. intros k Hk. by apply Hframe.
Qed.

Lemma open_key_raises (truncate : bool) (p : string) (k : list string)
    (f : gmap (list string) node) (e : exn) :
  open_key truncate p k f = Raise e →
  e = IsADirectoryError p ∨ e = NotADirectoryError p ∨ e = FileNotFoundError p.
Proof.
  unfold open_key. destruct k as [|c k]; [intros [= <-]; auto|].
  destruct (node_at f (removelast (c :: k))) as [[?|]|]; try (intros [= <-]; auto).
  destruct (f !! (c :: k)) as [[?|]|]; try done. intros [= <-]; auto.
Qed.

(** X10. An exception leaves [download_tar] only when the output root
    cannot be made or the failure log cannot be opened for append: it is
    the exception of [os.makedirs(base_dir)], or one that [open] raised
    on the path of the failure log.  Every other error is turned into a
    failure dictionary. *)
Theorem download_tar_raises_only_without_root_or_log (part_id : string)
    (target_path : option string) (main_link : string) (delete_tar : bool)
    (w : world) (e : exn) :
  (download_tar E part_id target_path main_link delete_tar w).1 = Raise e →
  (os_makedirs E (base_dir_of E target_path) w).1 = Raise e
  ∨ e = IsADirectoryError (log_file_of E target_path)
  ∨ e = NotADirectoryError (log_file_of E target_path)
  ∨ e = FileNotFoundError (log_file_of E target_path).
Proof.
  unfold download_tar, bind at 1.
  destruct (os_makedirs E (base_dir_of E target_path) w) as [[[]|e0] w0].
  2:{ simpl. intros [= <-]. by left. }
  fold (log_file_of E target_path). unfold try_except.
  match goal with
  | |- context [bind ?m ?g w0] => destruct (bind m g w0) as [[r1|e1] w1]
  end; [done|].
  intros Hraise. right.
  unfold on_failure, bind at 1, bind at 1, open_for_write in Hraise.
  destruct (open_key false (log_file_of E target_path)
              (key E (log_file_of E target_path)) (fs w1)) as [f1|e2] eqn:Hopen.
  - exfalso. revert Hraise. unfold f_write, bind, logger, os_path_exists. simpl.
    match goal with
    | |- context [if ?c then _ else _] => destruct c
    end; unfold try_except, ret; simpl; [|done].
    match goal with
    | |- context [os_remove E ?p ?w2] => by destruct (os_remove E p w2) as [[[]|?] ?]
    end.
  - simpl in Hraise. injection Hraise as ->. by apply open_key_raises in Hopen.
Qed.

(** X11. [extract_tar] changes no file but those its entries name: a
    regular file at a path that is the destination of no regular-file
    entry of the archive holds the same bytes afterwards, whether the
    extraction returns or raises. *)
Theorem extract_tar_leaves_other_files (part_id tar_path : string)
    (target_path : option string) (w : world) (k : list string) (b : string) :
  let dest_folder := dest_folder_of part_id tar_path target_path in
  fs w !! k = Some (File b) →
  (∀ archive all,
     fs w !! key E tar_path = Some (File archive) →
     tarfile_open E archive = Ok all →
     Forall (fun m => key E (join dest_folder (name m)) ≠ k)
       (filter (fun m => isfile m = true) all)) →
  fs (extract_tar E part_id tar_path target_path w).2 !! k = Some (File b).
Proof.
  intros dest_folder Hk Hmembers.
  destruct (extract_tar E part_id tar_path target_path w) as [r w'] eqn:Hrun. simpl.
  unfold extract_tar, bind at 1 in Hrun. fold dest_folder in Hrun.
  destruct (os_makedirs E dest_folder w) as [[[]|e] w0] eqn:Hmk.
  2:{ injection Hrun as <- <-. by eapply keeps_makedirs. }
  pose proof (keeps_makedirs E k b dest_folder w _ _ Hmk Hk) as Hk0.
  unfold try_except, bind at 1, read_file in Hrun.
  destruct (node_at (fs w0) (key E tar_path)) as [[archive|]|] eqn:Htar;
    try (unfold bind, logger, raise in Hrun; injection Hrun as <- <-; exact Hk0).
  assert (Hwas : fs w !! key E tar_path = Some (File archive)).
  { unfold os_makedirs in Hmk. destruct (nonempty dest_folder); [|done].
    destruct (key E tar_path) as [|c kp] eqn:Hkey; [done|]. simpl in Htar.
    pose proof (mkdirs_new dest_folder [] (key E dest_folder) (fs w) (c :: kp) (File archive)) as Hnew.
    destruct (mkdirs dest_folder [] (key E dest_folder) (fs w)) as [r0 f0].
    injection Hmk as -> <-. simpl in *. destruct (Hnew Htar) as [H|[_ H]]; done. }
  unfold bind at 1, lift in Hrun.
  destruct (tarfile_open E archive) as [all|e] eqn:Hopen;
    try (unfold bind, logger, raise in Hrun; injection Hrun as <- <-; exact Hk0).
  specialize (Hmembers archive all Hwas Hopen).
  pose proof (keeps_extract_members E k b dest_folder _ Hmembers w0) as Hloop.
  destruct (extract_members E dest_folder (filter (fun m => isfile m = true) all) w0)
    as [[[]|e] w1] eqn:Hm; specialize (Hloop _ _ eq_refl Hk0).
  - by injection Hrun as <- <-.
  - unfold bind, logger, raise in Hrun. by injection Hrun as <- <-.
Qed.

(** X12. [extract_tar] removes nothing: a path that holds a regular
    file before holds a regular file afterwards (its bytes may have been
    replaced by an entry of the archive), whatever the archive holds and
    whether the extraction returns or raises. *)
Theorem extract_tar_removes_no_file (part_id tar_path : string)
    (target_path : option string) (w : world) (k : list string) :
  is_file_at (fs w) k →
  is_file_at (fs (extract_tar E part_id tar_path target_path w).2) k.
Proof.
  intros Hk.
  destruct (extract_tar E part_id tar_path target_path w) as [r w'] eqn:Hrun.
  exact (stays_extract_tar E k part_id tar_path target_path w r w' Hrun Hk).
Qed.

End PipelineMore.

(** ** The shape of the tree *)

Module WfFacts.
Import FsFacts.

Lemma node_at_insert_ne (f : gmap (list string) node) (k k' : list string) (n : node) :
  k ≠ k' → node_at (<[k := n]> f) k' = node_at f k'.
Proof. intros Hne. destruct k'; [done|]. simpl. by rewrite lookup_insert_ne. Qed.

Lemma node_at_delete_ne (f : gmap (list string) node) (k k' : list string) :
  k ≠ k' → node_at (delete k f) k' = node_at f k'.
Proof. intros Hne. destruct k'; [done|]. simpl. by rewrite lookup_delete_ne. Qed.

Lemma removelast_shorter (k : list string) : k ≠ [] → removelast k ≠ k.
Proof.
  intros Hk Heq. destruct (exists_last Hk) as (pre & c & ->).
  rewrite removelast_last in Heq.
  apply (f_equal length) in Heq. rewrite length_app in Heq. simpl in Heq. lia.
Qed.

Lemma wf_insert_dir (f : gmap (list string) node) (k : list string) :
  fs_wf f → node_at f (removelast k) = Some Dir → fs_wf (<[k := Dir]> f).
Proof.
  intros Hwf Hparent k' n Hk'.
  destruct (decide (removelast k' = k)) as [Heq|Hne].
  - rewrite Heq. clear. destruct k; [done|]. simpl. by rewrite lookup_insert_eq.
  - rewrite node_at_insert_ne by (intros Heq; by apply Hne).
    destruct (decide (k = k')) as [<-|Hkk]; [done|].
    rewrite lookup_insert_ne in Hk' by done. by eapply Hwf.
Qed.

Lemma wf_insert_file (f : gmap (list string) node) (k : list string) (b : string) :
  fs_wf f → k ≠ [] → node_at f (removelast k) = Some Dir → f !! k ≠ Some Dir →
  fs_wf (<[k := File b]> f).
Proof.
  intros Hwf Hk Hparent Hnodir k' n Hk'.
  destruct (decide (k = k')) as [<-|Hkk].
  - rewrite node_at_insert_ne; [done|]. intros Heq. by apply (removelast_shorter k).
  - rewrite lookup_insert_ne in Hk' by done.
    pose proof (Hwf k' n Hk') as Hp.
    destruct (decide (k = removelast k')) as [Heq|Hne].
    + exfalso. rewrite <- Heq in Hp. destruct k; [done|]. simpl in Hp. done.
    + by rewrite node_at_insert_ne.
Qed.

Lemma wf_delete_file (f : gmap (list string) node) (k : list string) (b : string) :
  fs_wf f → f !! k = Some (File b) → fs_wf (delete k f).
Proof.
  intros Hwf Hfile k' n Hk'.
  apply lookup_delete_Some in Hk' as [Hkk Hk'].
  pose proof (Hwf k' n Hk') as Hp.
  destruct (decide (k = removelast k')) as [Heq|Hne].
  - rewrite <- Heq in *. destruct k; [done|]. simpl in Hp. congruence.
  - by rewrite node_at_delete_ne.
Qed.

Lemma prefix_removelast (k k' : list string) :
  k `prefix_of` removelast k' → k `prefix_of` k'.
Proof.
  intros [r Hr]. destruct (decide (k' = [])) as [->|Hne]; [by exists r|].
  destruct (exists_last Hne) as (pre & c & ->).
  rewrite removelast_last in Hr. subst pre. exists (r ++ [c]). by rewrite app_assoc.
Qed.

Lemma wf_remove_tree (f : gmap (list string) node) (k : list string) :
  fs_wf f → fs_wf (remove_tree k f).
Proof.
  intros Hwf k' n Hk'. rewrite remove_tree_lookup in Hk'.
  case_decide as Hp; [done|].
  pose proof (Hwf k' n Hk') as Hparent.
  destruct (removelast k') as [|c kp] eqn:Hr; [done|]. simpl in *.
  rewrite remove_tree_lookup. case_decide as Hp'; [|done].
  exfalso. apply Hp. apply prefix_removelast. by rewrite Hr.
Qed.

Lemma mkdirs_wf (p : string) (pre rest : list string) (f : gmap (list string) node) :
  fs_wf f → node_at f pre = Some Dir → fs_wf (mkdirs p pre rest f).2.
Proof.
  revert pre f. induction rest as [|c rest IH]; intros pre f Hwf Hpre; [done|].
  simpl. destruct (f !! (pre ++ [c])) as [[b|]|] eqn:Hc.
  - by destruct rest.
  - apply IH; [done|]. by rewrite node_at_snoc.
  - apply IH.
    + apply wf_insert_dir; [done|]. by rewrite removelast_last.
    + rewrite node_at_snoc. apply lookup_insert_eq.
Qed.

Lemma open_key_wf (truncate : bool) (p : string) (k : list string)
    (f f' : gmap (list string) node) :
  open_key truncate p k f = Ok f' → fs_wf f → fs_wf f'.
Proof.
  unfold open_key. destruct k as [|c k]; [done|].
  destruct (node_at f (removelast (c :: k))) as [[?|]|] eqn:Hp; try done.
  destruct (f !! (c :: k)) as [[old|]|] eqn:Hk; try done.
  - destruct truncate; intros [= <-] Hwf; [|done].
    apply wf_insert_file; try done. by rewrite Hk.
  - intros [= <-] Hwf. apply wf_insert_file; try done. by rewrite Hk.
Qed.

Lemma write_key_wf (k : list string) (bytes : string) (f : gmap (list string) node) :
  fs_wf f → is_file_at f k → fs_wf (write_key k bytes f).
Proof.
  intros Hwf [old Hk]. unfold write_key. rewrite Hk.
  destruct (decide (k = [])) as [->|Hne].
  - intros k' n Hk'. destruct (decide (k' = [])) as [->|Hne']; [done|].
    rewrite lookup_insert_ne in Hk' by done.
    pose proof (Hwf k' n Hk') as Hp.
    destruct (removelast k'); [done|]. simpl in *. by rewrite lookup_insert_ne.
  - apply wf_insert_file; [done|done| |by rewrite Hk].
    by eapply Hwf.
Qed.

End WfFacts.

Section WfKept.
Context (E : Env).
Import PosixPath PathFacts FsFacts WfFacts.

Lemma wf_of_same_fs {A} (m : M A) : preserves same_fs m → preserves wf_kept m.
Proof. intros Hm w r w' Hrun Hwf. by rewrite (Hm w r w' Hrun). Qed.

Lemma wf_logger (l : level) (msg : string) : preserves wf_kept (logger l msg).
Proof. apply wf_of_same_fs. by intros w r w' [= <- <-]. Qed.

Lemma wf_makedirs (p : string) : preserves wf_kept (os_makedirs E p).
Proof.
  intros w r w' Hrun Hwf. unfold os_makedirs in Hrun.
  destruct (nonempty p); [|by injection Hrun as <- <-].
  pose proof (mkdirs_wf p [] (key E p) (fs w) Hwf eq_refl) as H.
  destruct (mkdirs p [] (key E p) (fs w)). by injection Hrun as <- <-.
Qed.

Lemma wf_remove (p : string) : preserves wf_kept (os_remove E p).
Proof.
  intros w r w' Hrun Hwf. unfold os_remove in Hrun.
  destruct (node_at (fs w) (key E p)) as [[b|]|] eqn:Hn; injection Hrun as <- <-; try done.
  simpl. apply (wf_delete_file _ _ b); [done|]. by destruct (key E p).
Qed.

Lemma wf_rmtree (p : string) : preserves wf_kept (shutil_rmtree E p).
Proof.
  intros w r w' Hrun Hwf. unfold shutil_rmtree in Hrun.
  destruct (node_at (fs w) (key E p)) as [[b|]|] eqn:Hn; injection Hrun as <- <-; try done.
  simpl. by apply wf_remove_tree.
Qed.

(** After [open], what is done with the handle may rely on a file
    being there. *)
Lemma wf_open_then {A} (truncate : bool) (p : string) (g : list string → M A) :
  (∀ w r w', g (key E p) w = (r, w') →
             fs_wf (fs w) → is_file_at (fs w) (key E p) → fs_wf (fs w')) →
  preserves wf_kept (bind (open_for_write E truncate p) g).
Proof.
  intros Hg w r w' Hrun Hwf. unfold bind, open_for_write in Hrun.
  destruct (open_key truncate p (key E p) (fs w)) as [f1|e] eqn:Hopen.
  - eapply Hg; [exact Hrun| |]; simpl.
    + by eapply open_key_wf.
    + by eapply open_key_file.
  - by injection Hrun as <- <-.
Qed.

Lemma wf_f_write (k : list string) (bytes : string) (w : world) (r : res unit) (w' : world) :
  f_write k bytes w = (r, w') → fs_wf (fs w) → is_file_at (fs w) k →
  fs_wf (fs w') ∧ is_file_at (fs w') k.
Proof.
  intros [= <- <-] Hwf Hfile. simpl. split; [by apply write_key_wf|].
  destruct Hfile as [old Hk]. eexists. by apply write_key_lookup.
Qed.

Lemma wf_write_chunks (k : list string) (chunks : list string)
    (w : world) (r : res unit) (w' : world) :
  write_chunks k chunks w = (r, w') → fs_wf (fs w) → is_file_at (fs w) k →
  fs_wf (fs w').
Proof.
  revert w. induction chunks as [|chunk rest IH]; intros w Hrun Hwf Hfile.
  - by injection Hrun as <- <-.
  - simpl in Hrun. unfold bind in Hrun. destruct (nonempty chunk).
    + destruct (f_write k chunk w) as [[[]|e] w1] eqn:Hw.
      * destruct (wf_f_write _ _ _ _ _ Hw Hwf Hfile). by eapply IH.
      * injection Hrun as <- <-. by destruct (wf_f_write _ _ _ _ _ Hw Hwf Hfile).
    + unfold ret in Hrun. by eapply IH.
Qed.

Lemma wf_img_save (img : image E) (p fmt : string) (q : Z) :
  preserves wf_kept (img_save E img p fmt q).
Proof.
  unfold img_save.
  apply preserves_bind; [apply _| |].
  { apply wf_of_same_fs. intros w r w' Hrun. unfold bind, os_path_exists, ret in Hrun.
    by injection Hrun as <- <-. }
  intros created. apply wf_open_then. intros w r w' Hrun Hwf Hfile.
  destruct (Image_save E img fmt q) as [bytes|e].
  - by destruct (wf_f_write _ _ _ _ _ Hrun Hwf Hfile).
  - cbv beta iota in Hrun. revert w r w' Hrun Hwf Hfile.
    match goal with
    | |- ∀ w r w', ?m w = (r, w') → _ =>
        enough (preserves wf_kept m) as Hp
          by (intros w r w' Hrun Hwf _; exact (Hp w r w' Hrun Hwf))
    end.
    apply preserves_bind; [apply _| |intros _; apply preserves_raise; apply _].
    destruct created; [|apply preserves_ret; apply _].
    apply preserves_try_except; [apply _|apply wf_remove|].
    intros _. apply preserves_ret; apply _.
Qed.

Lemma wf_convert_image (bytes : res string) (member_path : string) :
  preserves wf_kept (convert_image E bytes member_path).
Proof.
  unfold convert_image.
  apply preserves_bind; [apply _|apply preserves_lift; apply _|]. intros raw.
  apply preserves_bind; [apply _|apply preserves_lift; apply _|]. intros img0.
  apply preserves_bind; [apply _|apply preserves_lift; apply _|]. intros img1.
  apply preserves_bind; [apply _|apply preserves_lift; apply _|]. intros img2.
  apply preserves_bind; [apply _|apply wf_makedirs|]. intros _.
  apply wf_img_save.
Qed.

Lemma wf_copy_raw (extracted : ExFile) (member_path : string) :
  preserves wf_kept (copy_raw E extracted member_path).
Proof.
  unfold copy_raw.
  apply preserves_bind; [apply _|apply wf_makedirs|]. intros _.
  apply wf_open_then. intros w r w' Hrun Hwf Hfile.
  unfold bind, lift in Hrun. destruct (fst (read (seek 0 extracted))) as [b|e].
  - by destruct (wf_f_write _ _ _ _ _ Hrun Hwf Hfile).
  - by injection Hrun as <- <-.
Qed.

Lemma wf_extract_member (dest_folder : string) (member : TarInfo) :
  preserves wf_kept (extract_member E dest_folder member).
Proof.
  unfold extract_member.
  apply preserves_bind; [apply _|apply preserves_lift; apply _|]. intros cp.
  destruct (negb (startswith cp dest_folder)); [apply preserves_ret; apply _|].
  destruct (extractfile member) as [payload|]; [|apply preserves_ret; apply _].
  apply preserves_try_except; [apply _|apply wf_convert_image|].
  intros _. apply wf_copy_raw.
Qed.

Lemma wf_extract_members (dest_folder : string) (members : list TarInfo) :
  preserves wf_kept (extract_members E dest_folder members).
Proof.
  induction members as [|m rest IH]; simpl; [apply preserves_ret; apply _|].
  apply preserves_bind; [apply _|apply wf_extract_member|]. intros _. exact IH.
Qed.

Lemma wf_extract_tar (part_id tar_path : string) (target_path : option string) :
  preserves wf_kept (extract_tar E part_id tar_path target_path).
Proof.
  unfold extract_tar.
  apply preserves_bind; [apply _|apply wf_makedirs|]. intros _.
  apply preserves_try_except; [apply _| |].
  - apply preserves_bind; [apply _|apply quiet_read_file; apply _|]. intros archive.
    apply preserves_bind; [apply _|apply preserves_lift; apply _|]. intros all.
    apply wf_extract_members.
  - intros e. apply preserves_bind; [apply _|apply wf_logger|]. intros _.
    apply preserves_raise; apply _.
Qed.

Lemma wf_fetch (tar_url tar_path : string) : preserves wf_kept (fetch E tar_url tar_path).
Proof.
  unfold fetch. apply preserves_bind; [apply _| |].
  { apply wf_of_same_fs. by intros w r w' [= <- <-]. }
  intros [e|chunks broken]; [apply preserves_raise; apply _|].
  apply wf_open_then. intros w r w' Hrun Hwf Hfile. unfold bind in Hrun.
  destruct (write_chunks (key E tar_path) chunks w) as [[[]|e] w1] eqn:Hw.
  - pose proof (wf_write_chunks _ _ _ _ _ Hw Hwf Hfile).
    destruct broken; by injection Hrun as <- <-.
  - injection Hrun as <- <-. by eapply wf_write_chunks.
Qed.

Lemma wf_cleanup_stale (part_id extract_dir tar_path : string) :
  preserves wf_kept (cleanup_stale E part_id extract_dir tar_path).
Proof.
  unfold cleanup_stale.
  apply preserves_bind; [apply _|apply quiet_exists; apply _|]. intros stale_dir.
  apply preserves_bind; [apply _| |].
  { destruct stale_dir; [|apply preserves_ret; apply _].
    apply preserves_bind; [apply _|apply wf_logger|]. intros _. apply wf_rmtree. }
  intros _. apply preserves_bind; [apply _|apply quiet_exists; apply _|]. intros stale_tar.
  destruct stale_tar; [|apply preserves_ret; apply _].
  apply preserves_bind; [apply _|apply wf_logger|]. intros _. apply wf_remove.
Qed.

Lemma wf_write_completion_marker (base_dir part_id : string) :
  preserves wf_kept (write_completion_marker E base_dir part_id).
Proof.
  unfold write_completion_marker. apply wf_open_then.
  intros w r w' Hrun Hwf Hfile. by destruct (wf_f_write _ _ _ _ _ Hrun Hwf Hfile).
Qed.

Lemma wf_on_failure (part_id log_file tar_path : string) (e : exn) :
  preserves wf_kept (on_failure E part_id log_file tar_path e).
Proof.
  unfold on_failure.
  apply preserves_bind; [apply _| |].
  { apply wf_open_then. intros w r w' Hrun Hwf Hfile.
    by destruct (wf_f_write _ _ _ _ _ Hrun Hwf Hfile). }
  intros _. apply preserves_bind; [apply _|apply wf_logger|]. intros _.
  apply preserves_bind; [apply _|apply quiet_exists; apply _|]. intros left_over.
  apply preserves_bind; [apply _| |intros _; apply preserves_ret; apply _].
  destruct left_over; [|apply preserves_ret; apply _].
  apply preserves_try_except; [apply _|apply wf_remove|].
  intros _. apply preserves_ret; apply _.
Qed.

Lemma wf_process (part_id : string) (target_path : option string)
    (base_dir tar_url tar_path filename : string) (delete_tar : bool) :
  preserves wf_kept
    (process E part_id target_path base_dir tar_url tar_path filename delete_tar).
Proof.
  unfold process. apply preserves_bind; [apply _|apply wf_fetch|]. intros _.
  apply preserves_bind; [apply _|apply wf_extract_tar|]. intros _.
  apply preserves_bind; [apply _|apply wf_write_completion_marker|]. intros _.
  apply preserves_bind; [apply _| |].
  { destruct delete_tar; [|apply preserves_ret; apply _].
    apply preserves_try_except; [apply _|apply wf_remove|].
    intros e. apply wf_logger. }
  intros _. apply preserves_bind; [apply _|apply wf_logger|]. intros _.
  apply preserves_ret; apply _.
Qed.

Lemma wf_fresh_download (part_id : string) (target_path : option string)
    (base_dir tar_url tar_path filename : string) (delete_tar : bool) :
  preserves wf_kept
    (fresh_download E part_id target_path base_dir tar_url tar_path filename delete_tar).
Proof.
  unfold fresh_download.
  apply preserves_bind; [apply _| |].
  { apply wf_of_same_fs. by intros w r w' [= <- <-]. }
  intros position. apply preserves_try_finally; [apply _|apply wf_process|].
  apply wf_of_same_fs. by intros w r w' [= <- <-].
Qed.

Lemma wf_download_tar (part_id : string) (target_path : option string)
    (main_link : string) (delete_tar : bool) :
  preserves wf_kept (download_tar E part_id target_path main_link delete_tar).
Proof.
  unfold download_tar.
  apply preserves_bind; [apply _|apply wf_makedirs|]. intros _.
  apply preserves_try_except; [apply _| |intros e; apply wf_on_failure].
  apply preserves_bind; [apply _|apply quiet_exists; apply _|]. intros done_before.
  destruct done_before.
  - apply preserves_bind; [apply _|apply wf_logger|]. intros _.
    apply preserves_ret; apply _.
  - apply preserves_bind; [apply _|apply wf_cleanup_stale|]. intros _.
    apply wf_fresh_download.
Qed.

(** X13. [download_tar] keeps the tree well formed, whatever the archive
    holds and however the call ends: if every node sat in a directory
    before, every node sits in a directory afterwards. *)
Theorem download_tar_keeps_the_tree_well_formed (part_id : string)
    (target_path : option string) (main_link : string) (delete_tar : bool) (w : world) :
  fs_wf (fs w) →
  fs_wf (fs (download_tar E part_id target_path main_link delete_tar w).2).
Proof.
  intros Hwf.
  destruct (download_tar E part_id target_path main_link delete_tar w) as [r w'] eqn:Hrun.
  exact (wf_download_tar _ _ _ _ _ _ _ Hrun Hwf).
Qed.

End WfKept.

(** ** A finished item stays finished *)

Section Idempotence.
Context (E : Env).
Import PosixPath PathFacts FsFacts.

Lemma exists_at_file (f : gmap (list string) node) (k : list string) :
  is_file_at f k → exists_at f k = true.
Proof. intros [b Hb]. unfold exists_at, node_at. destruct k; [done|by rewrite Hb]. Qed.

Lemma marker_written (base_dir part_id : string) (w w' : world) :
  write_completion_marker E base_dir part_id w = (Ok tt, w') →
  is_file_at (fs w') (key E (join (join base_dir part_id) marker_name)).
Proof.
  unfold write_completion_marker, bind, open_for_write.
  destruct (open_key true _ _ (fs w)) as [f1|e] eqn:Hopen; [|done].
  intros [= <-]. simpl. apply open_key_truncated in Hopen.
  eexists. by apply write_key_lookup.
Qed.

(** When the body of the inner [try] returns, the marker is in place. *)
Lemma process_marks (part_id : string) (target_path : option string)
    (base_dir tar_url tar_path filename : string) (delete_tar : bool)
    (w : world) (r : result) (w' : world) :
  key E tar_path ≠ key E (join (join base_dir part_id) marker_name) →
  process E part_id target_path base_dir tar_url tar_path filename delete_tar w = (Ok r, w') →
  is_file_at (fs w') (key E (join (join base_dir part_id) marker_name)).
Proof.
  intros Hne. unfold process, bind at 1.
  destruct (fetch E tar_url tar_path w) as [[[]|e] w1]; [|done].
  unfold bind at 1.
  destruct (extract_tar E part_id tar_path target_path w1) as [[[]|e] w2]; [|done].
  unfold bind at 1.
  destruct (write_completion_marker E base_dir part_id w2) as [[[]|e] w3] eqn:Hm; [|done].
  apply marker_written in Hm. destruct Hm as [b Hb].
  destruct delete_tar.
  - unfold bind, try_except, os_remove, logger, ret.
    destruct (node_at (fs w3) (key E tar_path)) as [[c|]|]; simpl;
      intros [= <- <-]; simpl; exists b; [|done|done].
    by rewrite lookup_delete_ne.
  - unfold bind, logger, ret. simpl. intros [= <- <-]. by exists b.
Qed.

Lemma marker_is_not_the_archive (part_id : string) (target_path : option string) :
  plain part_id = true →
  key E (tar_path_of E part_id target_path)
  ≠ key E (completion_marker_of E part_id target_path).
Proof.
  intros H. rewrite key_completion_marker, key_extract_dir, key_tar_path by done.
  intros Heq. apply (f_equal length) in Heq. rewrite !List.length_app in Heq.
  simpl in Heq. lia.
Qed.

(** Whenever [download_tar] reports success, or that it skipped the
    item, the marker is in place. *)
Lemma download_tar_success_marker (part_id : string) (target_path : option string)
    (main_link : string) (delete_tar : bool) (w : world) (r : result) (w' : world) :
  plain part_id = true →
  download_tar E part_id target_path main_link delete_tar w = (Ok r, w') →
  success r = true ∨ skipped r = true →
  exists_at (fs w') (key E (completion_marker_of E part_id target_path)) = true.
Proof.
  intros Hplain. unfold download_tar, bind at 1.
  destruct (os_makedirs E (base_dir_of E target_path) w) as [[[]|e] w0]; [|done].
  fold (extract_dir_of E part_id target_path).
  fold (completion_marker_of E part_id target_path).
  fold (tar_path_of E part_id target_path).
  fold (log_file_of E target_path).
  unfold try_except.
  match goal with
  | |- context [bind (os_path_exists E ?m) ?body w0] =>
      destruct (bind (os_path_exists E m) body w0) as [[r0|e] w1] eqn:Hbody
  end.
  - intros [= <- <-] Hs.
    unfold bind at 1, os_path_exists in Hbody.
    destruct (exists_at (fs w0) _) eqn:Hex.
    { unfold bind, logger, ret in Hbody. injection Hbody as <- <-. exact Hex. }
    unfold bind at 1 in Hbody.
    destruct (cleanup_stale E part_id _ _ w0) as [[[]|e] w2]; [|done].
    unfold fresh_download, bind at 1, position_manager_acquire, try_finally in Hbody.
    match type of Hbody with
    | context [process E ?a ?b ?c ?d ?e ?f ?g ?w3] =>
        destruct (process E a b c d e f g w3) as [[r1|e1] w4] eqn:Hp
    end; unfold position_manager_release in Hbody; [|done].
    injection Hbody as <- <-. simpl.
    apply exists_at_file.
    apply (process_marks _ _ _ _ _ _ _ _ _ _ (marker_is_not_the_archive _ _ Hplain)) in Hp.
    exact Hp.
  - intros Hfail Hs. apply on_failure_returned in Hfail as [-> _]. by destruct Hs.
Qed.

(** X14. A finished item stays finished.  When [download_tar] reports
    an item as successful, on a well-formed tree, a later call for the
    same item and output root, whatever link and removal flag it is
    given, is answered as skipped without a request, and leaves the
    file system and the slot allocator as they are. *)
Theorem finished_item_is_skipped_afterwards (part_id : string)
    (target_path : option string) (main_link main_link' : string)
    (delete_tar delete_tar' : bool) (w : world) (r : result) (w' : world) :
  fs_wf (fs w) → plain part_id = true →
  download_tar E part_id target_path main_link delete_tar w = (Ok r, w') →
  success r = true →
  ∃ w'', download_tar E part_id target_path main_link' delete_tar' w'
         = (Ok (skipped_result part_id), w'')
         ∧ fs w'' = fs w' ∧ requests w'' = requests w' ∧ manager w'' = manager w'.
Proof.
  intros Hwf Hplain Hrun Hs.
  pose proof (wf_download_tar E _ _ _ _ _ _ _ Hrun Hwf) as Hwf'.
  pose proof (download_tar_success_marker _ _ _ _ _ _ _ Hplain Hrun (or_introl Hs)) as Hm.
  rewrite (download_tar_skip E part_id target_path main_link' delete_tar' w' Hwf' Hplain Hm).
  eexists. split; [reflexivity|]. done.
Qed.

End Idempotence.

(** ** What a batch sends *)

Section BatchRequests.
Context (E : Env).

Lemma tally_one_quiet (stats : Stats.t) (future : string * res result) :
  preserves same_requests (tally_one E stats future).
Proof.
  pose proof same_requests_blind as Hb.
  unfold tally_one. destruct (future.2) as [r|e].
  - destruct (skipped r); [apply preserves_ret; apply _|].
    destruct (success r); apply preserves_ret; apply _.
  - apply preserves_bind; [apply _|apply (blind_logger _ Hb)|].
    intros _. apply preserves_ret; apply _.
Qed.

Lemma tally_quiet (completed : list (string * res result)) (stats : Stats.t) :
  preserves same_requests (tally E completed stats).
Proof.
  revert stats. induction completed as [|future rest IH]; intros stats; simpl.
  - apply preserves_ret; apply _.
  - apply preserves_bind; [apply _|apply tally_one_quiet|]. intros stats'. apply IH.
Qed.

Lemma run_pool_requests (part_ids : list string) (target_path main_link : string)
    (delete_tar : bool) (w : world) (futures : list (string * res result)) (w' : world) :
  run_pool E part_ids target_path main_link delete_tar w = (futures, w') →
  ∃ sent, requests w' = requests w ++ sent
          ∧ sent `sublist_of`
              map (fun part_id => main_link +:+ "/" +:+ part_id +:+ ".tar") part_ids.
Proof.
  revert w futures w'. induction part_ids as [|part_id rest IH]; intros w futures w'; simpl.
  - intros [= <- <-]. exists []. by rewrite app_nil_r.
  - destruct (download_tar E part_id (Some target_path) main_link delete_tar w)
      as [outcome w1] eqn:Hone.
    destruct (run_pool E rest target_path main_link delete_tar w1) as [fs' w2] eqn:Hrest.
    intros [= <- <-].
    destruct (IH _ _ _ Hrest) as (sent & Hsent & Hsub).
    destruct (download_tar_requests E _ _ _ _ _ _ _ Hone) as [[Hq|Hq] _].
    + exists sent. rewrite Hsent, Hq. split; [done|]. by apply sublist_cons.
    + exists ((main_link +:+ "/" +:+ part_id +:+ ".tar") :: sent).
      rewrite Hsent, Hq, <- app_assoc. split; [done|]. by apply sublist_skip.
Qed.

Lemma download_batch_requests (part_ids : list string) (target_path : string)
    (num_workers : Z) (delete_tar : bool) (main_link : string)
    (w : world) (r : res Stats.t) (w' : world) :
  download_batch E part_ids target_path num_workers delete_tar main_link w = (r, w') →
  ∃ sent, requests w' = requests w ++ sent
          ∧ sent `sublist_of`
              map (fun part_id => main_link +:+ "/" +:+ part_id +:+ ".tar") part_ids.
Proof.
  unfold download_batch. destruct part_ids as [|id rest] eqn:Hids.
  - intros [= <- <-]. exists []. simpl. by rewrite app_nil_r.
  - rewrite <- Hids. clear Hids. unfold bind, logger, raise. simpl.
    destruct (num_workers <=? 0)%Z.
    + intros [= <- <-]. exists []. simpl. rewrite app_nil_r. split; [done|].
      apply sublist_nil_l.
    + match goal with
      | |- context [run_pool E part_ids target_path main_link delete_tar ?w1] =>
          destruct (run_pool E part_ids target_path main_link delete_tar w1)
            as [futures w2] eqn:Hpool
      end.
      intros Hrun. apply tally_quiet in Hrun. unfold same_requests in Hrun.
      destruct (run_pool_requests _ _ _ _ _ _ _ Hpool) as (sent & Hsent & Hsub).
      exists sent. rewrite Hrun, Hsent. done.
Qed.

(** X15. A batch sends at most one request per submitted item, and only
    for [main_link/part_id.tar] of an item of the list: what it adds to
    the requests is, up to order, part of the list of the items' URLs.
    In particular a batch never sends more requests than it has
    items, whatever fails on the way. *)
Theorem download_batch_sends_one_request_per_item_at_most (part_ids : list string)
    (target_path : string) (num_workers : Z) (delete_tar : bool) (main_link : string)
    (w : world) :
  let run := download_batch E part_ids target_path num_workers delete_tar main_link w in
  ∃ sent, requests run.2 = requests w ++ sent
          ∧ sent ⊆+ map (fun part_id => main_link +:+ "/" +:+ part_id +:+ ".tar") part_ids
          ∧ (length sent ≤ length part_ids)%nat.
Proof.
  intros run. subst run.
  destruct (download_batch E part_ids target_path num_workers delete_tar main_link w)
    as [r w'] eqn:Hrun.
  destruct (download_batch_requests _ _ _ _ _ _ _ _ Hrun) as (sent & Hsent & Hsub).
  exists sent. split; [exact Hsent|]. split; [by apply sublist_submseteq|].
  apply sublist_length in Hsub. by rewrite length_map in Hsub.
Qed.

End BatchRequests.

(** ** What is never removed *)

Section StillThere.
Context (E : Env).
Import PosixPath PathFacts FsFacts.

Lemma exists_at_spec (f : gmap (list string) node) (k : list string) :
  exists_at f k = true ↔ k = [] ∨ is_Some (f !! k).
Proof.
  unfold exists_at, node_at. destruct k as [|c k].
  - split; [by left|done].
  - destruct (f !! (c :: k)) as [n|]; split; try done.
    + intros _. right. by exists n.
    + intros [?|[? ?]]; done.
Qed.

(** A computation that leaves a node at [k] whenever there was one. *)
Lemma still_of_lookup {A} (k : list string) (m : M A) :
  (∀ w r w', m w = (r, w') → is_Some (fs w !! k) → is_Some (fs w' !! k)) →
  preserves (still_there k) m.
Proof.
  intros H w r w' Hrun Hex. apply exists_at_spec in Hex. apply exists_at_spec.
  destruct Hex as [->|Hex]; [by left|right]. by eapply H.
Qed.

Lemma still_same_fs {A} (k : list string) (m : M A) :
  preserves same_fs m → preserves (still_there k) m.
Proof. intros Hm w r w' Hrun Hex. by rewrite (Hm w r w' Hrun). Qed.

Lemma still_logger (k : list string) (l : level) (msg : string) :
  preserves (still_there k) (logger l msg).
Proof. apply still_same_fs. by intros w r w' [= <- <-]. Qed.

Lemma still_makedirs (k : list string) (p : string) :
  preserves (still_there k) (os_makedirs E p).
Proof.
  apply still_of_lookup. intros w r w' Hrun [n Hn]. unfold os_makedirs in Hrun.
  destruct (nonempty p); [|injection Hrun as <- <-; by exists n].
  pose proof (mkdirs_keeps p [] (key E p) (fs w) k n Hn) as H.
  destruct (mkdirs p [] (key E p) (fs w)). injection Hrun as <- <-. by exists n.
Qed.

Lemma still_open (k : list string) (truncate : bool) (p : string) :
  preserves (still_there k) (open_for_write E truncate p).
Proof.
  apply still_of_lookup. intros w r w' Hrun Hn. unfold open_for_write in Hrun.
  destruct (open_key truncate p (key E p) (fs w)) as [f1|e] eqn:Hopen;
    injection Hrun as <- <-; [|done].
  simpl. unfold open_key in Hopen.
  destruct (key E p) as [|c k0]; [done|].
  destruct (node_at (fs w) (removelast (c :: k0))) as [[?|]|]; try done.
  destruct (fs w !! (c :: k0)) as [[old|]|] eqn:Hk; try done.
  - destruct truncate; injection Hopen as <-; [|done].
    rewrite lookup_insert. case_decide; [by eexists|done].
  - injection Hopen as <-. rewrite lookup_insert. case_decide; [by eexists|done].
Qed.

Lemma still_f_write (k k0 : list string) (bytes : string) :
  preserves (still_there k) (f_write k0 bytes).
Proof.
  apply still_of_lookup. intros w r w' [= <- <-] Hn. simpl. unfold write_key.
  destruct (fs w !! k0) as [[old|]|]; rewrite lookup_insert; case_decide; try done;
    by eexists.
Qed.

Lemma still_remove (k : list string) (p : string) :
  k ≠ key E p → preserves (still_there k) (os_remove E p).
Proof.
  intros Hne. apply still_of_lookup. intros w r w' Hrun Hn. unfold os_remove in Hrun.
  destruct (node_at (fs w) (key E p)) as [[b|]|]; injection Hrun as <- <-; try done.
  simpl. by rewrite lookup_delete_ne.
Qed.

Lemma still_rmtree (k : list string) (p : string) :
  ¬ key E p `prefix_of` k → preserves (still_there k) (shutil_rmtree E p).
Proof.
  intros Hne. apply still_of_lookup. intros w r w' Hrun Hn. unfold shutil_rmtree in Hrun.
  destruct (node_at (fs w) (key E p)) as [[b|]|]; injection Hrun as <- <-; try done.
  simpl. rewrite remove_tree_lookup. by case_decide.
Qed.

Lemma still_write_chunks (k k0 : list string) (chunks : list string) :
  preserves (still_there k) (write_chunks k0 chunks).
Proof.
  induction chunks as [|chunk rest IH]; simpl; [apply preserves_ret; apply _|].
  apply preserves_bind; [apply _| |intros _; exact IH].
  destruct (nonempty chunk); [apply still_f_write|apply preserves_ret; apply _].
Qed.

(** The encoder removes on failure only a file that was not there when
    it began. *)
Lemma still_img_save (k : list string) (img : image E) (p fmt : string) (q : Z) :
  preserves (still_there k) (img_save E img p fmt q).
Proof.
  intros w r w' Hrun Hex. revert Hrun.
  unfold img_save, bind at 1, bind at 1, os_path_exists, ret.
  destruct (exists_at (fs w) (key E p)) eqn:Hp; simpl.
  - (* the file was there: nothing is removed *)
    intros Hrun. clear Hp. revert w r w' Hrun Hex.
    match goal with
    | |- ∀ w r w', ?m w = (r, w') → _ =>
        enough (preserves (still_there k) m) as Hm
          by (intros w r w' Hrun Hex; exact (Hm w r w' Hrun Hex))
    end.
    apply preserves_bind; [apply _|apply still_open|]. intros f.
    destruct (Image_save E img fmt q) as [bytes|e]; [apply still_f_write|].
    apply preserves_bind; [apply _|apply preserves_ret; apply _|].
    intros _. apply preserves_raise; apply _.
  - (* it was not: then it is not the node at [k] *)
    assert (Hne : k ≠ key E p) by (intros ->; congruence).
    intros Hrun. revert w r w' Hrun Hex Hp.
    match goal with
    | |- ∀ w r w', ?m w = (r, w') → _ =>
        enough (preserves (still_there k) m) as Hm
          by (intros w r w' Hrun Hex _; exact (Hm w r w' Hrun Hex))
    end.
    apply preserves_bind; [apply _|apply still_open|]. intros f.
    destruct (Image_save E img fmt q) as [bytes|e]; [apply still_f_write|].
    apply preserves_bind; [apply _| |intros _; apply preserves_raise; apply _].
    apply preserves_try_except; [apply _|by apply still_remove|].
    intros _. apply preserves_ret; apply _.
Qed.

Lemma still_convert_image (k : list string) (bytes : res string) (member_path : string) :
  preserves (still_there k) (convert_image E bytes member_path).
Proof.
  unfold convert_image.
  apply preserves_bind; [apply _|apply preserves_lift; apply _|]. intros raw.
  apply preserves_bind; [apply _|apply preserves_lift; apply _|]. intros img0.
  apply preserves_bind; [apply _|apply preserves_lift; apply _|]. intros img1.
  apply preserves_bind; [apply _|apply preserves_lift; apply _|]. intros img2.
  apply preserves_bind; [apply _|apply still_makedirs|]. intros _.
  apply still_img_save.
Qed.

Lemma still_copy_raw (k : list string) (extracted : ExFile) (member_path : string) :
  preserves (still_there k) (copy_raw E extracted member_path).
Proof.
  unfold copy_raw.
  apply preserves_bind; [apply _|apply still_makedirs|]. intros _.
  apply preserves_bind; [apply _|apply still_open|]. intros f.
  apply preserves_bind; [apply _|apply preserves_lift; apply _|]. intros b.
  apply still_f_write.
Qed.

Lemma still_extract_member (k : list string) (dest_folder : string) (member : TarInfo) :
  preserves (still_there k) (extract_member E dest_folder member).
Proof.
  unfold extract_member.
  apply preserves_bind; [apply _|apply preserves_lift; apply _|]. intros cp.
  destruct (negb (startswith cp dest_folder)); [apply preserves_ret; apply _|].
  destruct (extractfile member) as [payload|]; [|apply preserves_ret; apply _].
  apply preserves_try_except; [apply _|apply still_convert_image|].
  intros _. apply still_copy_raw.
Qed.

Lemma still_extract_members (k : list string) (dest_folder : string)
    (members : list TarInfo) :
  preserves (still_there k) (extract_members E dest_folder members).
Proof.
  induction members as [|m rest IH]; simpl; [apply preserves_ret; apply _|].
  apply preserves_bind; [apply _|apply still_extract_member|]. intros _. exact IH.
Qed.

Lemma still_extract_tar (k : list string) (part_id tar_path : string)
    (target_path : option string) :
  preserves (still_there k) (extract_tar E part_id tar_path target_path).
Proof.
  unfold extract_tar.
  apply preserves_bind; [apply _|apply still_makedirs|]. intros _.
  apply preserves_try_except; [apply _| |].
  - apply preserves_bind; [apply _|apply quiet_read_file; apply _|]. intros archive.
    apply preserves_bind; [apply _|apply preserves_lift; apply _|]. intros all.
    apply still_extract_members.
  - intros e. apply preserves_bind; [apply _|apply still_logger|]. intros _.
    apply preserves_raise; apply _.
Qed.

Lemma still_fetch (k : list string) (tar_url tar_path : string) :
  preserves (still_there k) (fetch E tar_url tar_path).
Proof.
  unfold fetch. apply preserves_bind; [apply _| |].
  { apply still_same_fs. by intros w r w' [= <- <-]. }
  intros [e|chunks broken]; [apply preserves_raise; apply _|].
  apply preserves_bind; [apply _|apply still_open|]. intros f.
  apply preserves_bind; [apply _|apply still_write_chunks|]. intros _.
  destruct broken; [apply preserves_raise|apply preserves_ret]; apply _.
Qed.

Lemma still_cleanup_stale (k : list string) (part_id extract_dir tar_path : string) :
  ¬ key E extract_dir `prefix_of` k → k ≠ key E tar_path →
  preserves (still_there k) (cleanup_stale E part_id extract_dir tar_path).
Proof.
  intros Hx Ht. unfold cleanup_stale.
  apply preserves_bind; [apply _|apply quiet_exists; apply _|]. intros stale_dir.
  apply preserves_bind; [apply _| |].
  { destruct stale_dir; [|apply preserves_ret; apply _].
    apply preserves_bind; [apply _|apply still_logger|]. intros _. by apply still_rmtree. }
  intros _. apply preserves_bind; [apply _|apply quiet_exists; apply _|]. intros stale_tar.
  destruct stale_tar; [|apply preserves_ret; apply _].
  apply preserves_bind; [apply _|apply still_logger|]. intros _. by apply still_remove.
Qed.

Lemma still_write_completion_marker (k : list string) (base_dir part_id : string) :
  preserves (still_there k) (write_completion_marker E base_dir part_id).
Proof.
  unfold write_completion_marker.
  apply preserves_bind; [apply _|apply still_open|]. intros f. apply still_f_write.
Qed.

Lemma still_on_failure (k : list string) (part_id log_file tar_path : string) (e : exn) :
  k ≠ key E tar_path →
  preserves (still_there k) (on_failure E part_id log_file tar_path e).
Proof.
  intros Ht. unfold on_failure.
  apply preserves_bind; [apply _| |].
  { apply preserves_bind; [apply _|apply still_open|]. intros f. apply still_f_write. }
  intros _. apply preserves_bind; [apply _|apply still_logger|]. intros _.
  apply preserves_bind; [apply _|apply quiet_exists; apply _|]. intros left_over.
  apply preserves_bind; [apply _| |intros _; apply preserves_ret; apply _].
  destruct left_over; [|apply preserves_ret; apply _].
  apply preserves_try_except; [apply _|by apply still_remove|].
  intros _. apply preserves_ret; apply _.
Qed.

Lemma still_process (k : list string) (part_id : string) (target_path : option string)
    (base_dir tar_url tar_path filename : string) (delete_tar : bool) :
  k ≠ key E tar_path →
  preserves (still_there k)
    (process E part_id target_path base_dir tar_url tar_path filename delete_tar).
Proof.
  intros Ht. unfold process.
  apply preserves_bind; [apply _|apply still_fetch|]. intros _.
  apply preserves_bind; [apply _|apply still_extract_tar|]. intros _.
  apply preserves_bind; [apply _|apply still_write_completion_marker|]. intros _.
  apply preserves_bind; [apply _| |].
  { destruct delete_tar; [|apply preserves_ret; apply _].
    apply preserves_try_except; [apply _|by apply still_remove|].
    intros e. apply still_logger. }
  intros _. apply preserves_bind; [apply _|apply still_logger|]. intros _.
  apply preserves_ret; apply _.
Qed.

Lemma still_fresh_download (k : list string) (part_id : string)
    (target_path : option string)
    (base_dir tar_url tar_path filename : string) (delete_tar : bool) :
  k ≠ key E tar_path →
  preserves (still_there k)
    (fresh_download E part_id target_path base_dir tar_url tar_path filename delete_tar).
Proof.
  intros Ht. unfold fresh_download.
  apply preserves_bind; [apply _| |].
  { apply still_same_fs. by intros w r w' [= <- <-]. }
  intros position. apply preserves_try_finally; [apply _|by apply still_process|].
  apply still_same_fs. by intros w r w' [= <- <-].
Qed.

(** [download_tar] removes only the item's archive and what is in the
    item's output directory. *)
Lemma still_download_tar (k : list string) (part_id : string)
    (target_path : option string) (main_link : string) (delete_tar : bool) :
  ¬ key E (extract_dir_of E part_id target_path) `prefix_of` k →
  k ≠ key E (tar_path_of E part_id target_path) →
  preserves (still_there k) (download_tar E part_id target_path main_link delete_tar).
Proof.
  intros Hx Ht. unfold download_tar.
  apply preserves_bind; [apply _|apply still_makedirs|]. intros _.
  apply preserves_try_except; [apply _| |intros e; by apply still_on_failure].
  apply preserves_bind; [apply _|apply quiet_exists; apply _|]. intros done_before.
  destruct done_before.
  - apply preserves_bind; [apply _|apply still_logger|]. intros _.
    apply preserves_ret; apply _.
  - apply preserves_bind; [apply _|by apply still_cleanup_stale|]. intros _.
    by apply still_fresh_download.
Qed.

End StillThere.

(** ** A batch that went through is not repeated *)

Section BatchIdempotence.
Context (E : Env).
Import PosixPath PathFacts FsFacts.

(** The marker of an item outlives the download of any item. *)
Lemma marker_outlives_download (part_id other : string) (target_path : option string)
    (main_link : string) (delete_tar : bool) (w : world) (r : res result) (w' : world) :
  fs_wf (fs w) → plain part_id = true → plain other = true →
  download_tar E other target_path main_link delete_tar w = (r, w') →
  exists_at (fs w) (key E (completion_marker_of E part_id target_path)) = true →
  exists_at (fs w') (key E (completion_marker_of E part_id target_path)) = true.
Proof.
  intros Hwf Hid Hother Hrun Hm.
  destruct (decide (other = part_id)) as [->|Hne].
  - rewrite (download_tar_skip E part_id target_path main_link delete_tar w Hwf Hid Hm)
      in Hrun.
    by injection Hrun as <- <-.
  - eapply (still_download_tar E); [| |exact Hrun|exact Hm].
    + rewrite key_completion_marker, !key_extract_dir by done.
      intros [rest Hrest]. rewrite <- !app_assoc in Hrest.
      apply app_inv_head in Hrest. simpl in Hrest. congruence.
    + rewrite key_completion_marker, key_extract_dir, key_tar_path by done.
      intros Heq. apply (f_equal length) in Heq. rewrite !List.length_app in Heq.
      simpl in Heq. lia.
Qed.

(** After the pool ran, every item whose call did not fail carries its
    marker, and so does every item that carried it before. *)
Lemma run_pool_marks (part_ids : list string) (target_path main_link : string)
    (delete_tar : bool) (w : world) (futures : list (string * res result)) (w' : world) :
  fs_wf (fs w) → Forall (fun part_id => plain part_id = true) part_ids →
  run_pool E part_ids target_path main_link delete_tar w = (futures, w') →
  fs_wf (fs w')
  ∧ futures.*1 = part_ids
  ∧ (∀ part_id, plain part_id = true →
       exists_at (fs w) (key E (completion_marker_of E part_id (Some target_path))) = true →
       exists_at (fs w') (key E (completion_marker_of E part_id (Some target_path))) = true)
  ∧ (∀ future, future ∈ futures → counter_of future ≠ CountFailed →
       exists_at (fs w') (key E (completion_marker_of E future.1 (Some target_path))) = true).
Proof.
  revert w futures w'. induction part_ids as [|part_id rest IH];
    intros w futures w' Hwf Hplain; simpl.
  - intros [= <- <-]. split; [done|]. split; [done|]. split; [done|].
    intros future Hin. by apply elem_of_nil in Hin.
  - inversion Hplain as [|? ? Hid Hrest]; subst.
    destruct (download_tar E part_id (Some target_path) main_link delete_tar w)
      as [outcome w1] eqn:Hone.
    destruct (run_pool E rest target_path main_link delete_tar w1) as [fs' w2] eqn:Hpool.
    intros [= <- <-].
    pose proof (wf_download_tar E _ _ _ _ _ _ _ Hone Hwf) as Hwf1.
    destruct (IH _ _ _ Hwf1 Hrest Hpool) as (Hwf2 & Hids & Hkeep & Hnew).
    split; [done|]. split; [rewrite fmap_cons; simpl; f_equal; exact Hids|]. split.
    + intros id Hp Hm. apply Hkeep; [done|].
      by apply (marker_outlives_download id part_id _ _ _ _ _ _ Hwf Hp Hid Hone).
    + intros future Hin Hc. apply elem_of_cons in Hin as [->|Hin]; [|by apply Hnew].
      simpl. apply Hkeep; [done|].
      unfold counter_of in Hc. simpl in Hc. destruct outcome as [r|e]; [|done].
      apply (download_tar_success_marker E _ _ _ _ _ _ _ Hid Hone).
      destruct (skipped r); [by right|]. destruct (success r); [by left|done].
Qed.

Lemma count_zero (c : counter) (completed : list (string * res result)) :
  count c completed = 0%Z → ∀ future, future ∈ completed → counter_of future ≠ c.
Proof.
  unfold count. intros Hz future Hin Hc.
  assert (Hf : future ∈ filter (fun future => counter_of future = c) completed)
    by (apply list_elem_of_filter; done).
  destruct (filter (fun future => counter_of future = c) completed); [|simpl in Hz; lia].
  by apply elem_of_nil in Hf.
Qed.

Lemma tally_keeps_fs (completed : list (string * res result)) (stats : Stats.t) :
  preserves same_fs (tally E completed stats).
Proof.
  revert stats. induction completed as [|future rest IH]; intros stats; simpl.
  - apply preserves_ret; apply _.
  - apply preserves_bind; [apply _| |intros stats'; apply IH].
    unfold tally_one. destruct (future.2) as [r|e].
    + destruct (skipped r); [|destruct (success r)]; apply preserves_ret; apply _.
    + apply preserves_bind; [apply _|by intros w r w' [= <- <-]|].
      intros _. apply preserves_ret; apply _.
Qed.

(** A batch over items that all carry their marker. *)
Lemma download_batch_all_skipped (part_ids : list string) (target_path : string)
    (num_workers : Z) (delete_tar : bool) (main_link : string) (w : world) :
  fs_wf (fs w) → (0 < num_workers)%Z →
  (∀ futures, as_completed E futures ≡ₚ futures) →
  Forall (carries_marker E target_path (fs w)) part_ids →
  ∃ w', download_batch E part_ids target_path num_workers delete_tar main_link w
        = (Ok (Stats.Build 0 0 (Z.of_nat (length part_ids))), w')
        ∧ fs w' = fs w ∧ requests w' = requests w.
Proof.
  intros Hwf Hn Hperm Hall.
  unfold download_batch. destruct part_ids as [|id rest] eqn:Hids.
  - eexists. split; [reflexivity|]. done.
  - rewrite <- Hids in *. unfold bind, logger, raise. simpl.
    destruct (Z.leb_spec num_workers 0) as [?|_]; [lia|].
    match goal with
    | |- context [run_pool E part_ids target_path main_link delete_tar ?w1] =>
        destruct (run_pool_all_skipped E part_ids target_path main_link delete_tar w1)
          as (w2 & -> & Hf2 & Hr2 & _); [done|done|]
    end.
    simpl in Hf2, Hr2.
    match goal with
    | |- context [tally E ?c ?s w2] =>
        destruct (tally_all_skipped E c s w2) as (w3 & -> & Hf3 & Hr3)
    end.
    + eapply Forall_forall. intros future Hin.
      rewrite (Hperm _) in Hin.
      apply list_elem_of_fmap in Hin as (part_id & -> & _).
      by exists (skipped_result part_id).
    + exists w3. rewrite (Permutation_length (Hperm _)), length_map. simpl.
      split; [done|]. split; congruence.
Qed.

(** X16. A batch that went through is not repeated.  When a batch over
    items with plain names, on a well-formed tree, returns with no item
    counted as failed, a second batch over the same items and output
    root, with any positive number of workers, any link and any removal
    flag, counts every item as skipped, sends no request and leaves the
    file system as it is. *)
Theorem clean_batch_is_not_repeated (part_ids : list string) (target_path : string)
    (num_workers num_workers' : Z) (delete_tar delete_tar' : bool)
    (main_link main_link' : string) (w : world) (stats : Stats.t) (w1 : world) :
  fs_wf (fs w) →
  Forall (fun part_id => plain part_id = true) part_ids →
  (∀ futures, as_completed E futures ≡ₚ futures) →
  download_batch E part_ids target_path num_workers delete_tar main_link w
  = (Ok stats, w1) →
  Stats.failed stats = 0%Z →
  (0 < num_workers')%Z →
  ∃ w2, download_batch E part_ids target_path num_workers' delete_tar' main_link' w1
        = (Ok (Stats.Build 0 0 (Z.of_nat (length part_ids))), w2)
        ∧ fs w2 = fs w1 ∧ requests w2 = requests w1.
Proof.
  intros Hwf Hplain Hperm Hrun Hfailed Hn.
  assert (Hstate : fs_wf (fs w1) ∧ Forall (carries_marker E target_path (fs w1)) part_ids).
  { revert Hrun. unfold download_batch. destruct part_ids as [|id rest] eqn:Hids.
    - intros [= <- <-]. split; [done|constructor].
    - rewrite <- Hids in *. clear Hids. unfold bind, logger, raise. simpl.
      destruct (num_workers <=? 0)%Z; [done|].
      match goal with
      | |- context [run_pool E part_ids target_path main_link delete_tar ?w0] =>
          destruct (run_pool E part_ids target_path main_link delete_tar w0)
            as [futures w2] eqn:Hpool
      end.
      intros Hrun.
      pose proof (tally_keeps_fs _ _ _ _ _ Hrun) as Hfs. unfold same_fs in Hfs.
      apply run_pool_marks in Hpool as (Hwf2 & Hids & _ & Hnew); [|done|done].
      pose proof (tally_counts E (as_completed E futures) (Stats.Build 0 0 0) w2) as Hc.
      rewrite Hrun in Hc. simpl in Hc. injection Hc as ->. simpl in Hfailed.
      rewrite Hfs. split; [done|].
      apply Forall_forall. intros part_id Hin. split.
      + by apply (proj1 (Forall_forall _ _) Hplain).
      + rewrite <- Hids in Hin. apply list_elem_of_fmap in Hin as (future & -> & Hin).
        apply Hnew; [done|]. apply (count_zero _ (as_completed E futures)); [lia|].
        by rewrite (Hperm _). }
  destruct Hstate as [Hwf1 Hall].
  by apply download_batch_all_skipped.
Qed.

End BatchIdempotence.

(** ** Skipping needs the marker *)

Section SkipOnlyMarked.
Context (E : Env).
Import PosixPath PathFacts FsFacts.

(** What [os.makedirs] adds lies on the path it was given. *)
Lemma mkdirs_new_on_path (p : string) (pre rest : list string)
    (f : gmap (list string) node) (k : list string) (n : node) :
  (mkdirs p pre rest f).2 !! k = Some n →
  f !! k = Some n ∨ k `prefix_of` (pre ++ rest).
Proof.
  revert pre f. induction rest as [|c rest IH]; intros pre f H; [by left|].
  simpl in H. destruct (f !! (pre ++ [c])) as [[b|]|] eqn:Hc.
  - left. by destruct rest.
  - apply IH in H as [H|H]; [by left|right]. by rewrite <- app_assoc in H.
  - apply IH in H as [H|H].
    + destruct (decide (pre ++ [c] = k)) as [<-|Hne].
      * right. exists rest. by rewrite <- app_assoc.
      * left. by rewrite lookup_insert_ne in H.
    + right. by rewrite <- app_assoc in H.
Qed.

Lemma makedirs_base_keeps_marker_absent (part_id : string) (target_path : option string)
    (w : world) (r : res unit) (w0 : world) :
  plain part_id = true →
  os_makedirs E (base_dir_of E target_path) w = (r, w0) →
  exists_at (fs w) (key E (completion_marker_of E part_id target_path)) = false →
  exists_at (fs w0) (key E (completion_marker_of E part_id target_path)) = false.
Proof.
  intros Hplain Hmk Hno. unfold os_makedirs in Hmk.
  destruct (nonempty (base_dir_of E target_path)); [|by injection Hmk as <- <-].
  destruct (mkdirs _ [] (key E (base_dir_of E target_path)) (fs w)) as [r0 f0] eqn:Hm.
  injection Hmk as <- <-. simpl.
  rewrite key_completion_marker, key_extract_dir in * by done.
  set (B := key E (base_dir_of E target_path)) in *.
  unfold exists_at, node_at in *.
  destruct ((B ++ [part_id]) ++ [marker_name]) as [|c k] eqn:Hk.
  { by destruct B. }
  destruct (f0 !! (c :: k)) as [n|] eqn:Hn; [|done].
  pose proof (mkdirs_new_on_path (base_dir_of E target_path) [] B (fs w) (c :: k) n) as H.
  rewrite Hm in H. destruct (H Hn) as [Hold|Hpre].
  - by rewrite Hold in Hno.
  - rewrite <- Hk in Hpre. simpl in Hpre. apply prefix_length in Hpre.
    rewrite !List.length_app in Hpre. simpl in Hpre. lia.
Qed.

Lemma download_tar_skips_only_marked (part_id : string) (target_path : option string)
    (main_link : string) (delete_tar : bool) (w : world) (r : result) (w' : world) :
  plain part_id = true →
  exists_at (fs w) (key E (completion_marker_of E part_id target_path)) = false →
  download_tar E part_id target_path main_link delete_tar w = (Ok r, w') →
  skipped r = false.
Proof.
  intros Hplain Hno. unfold download_tar, bind at 1.
  destruct (os_makedirs E (base_dir_of E target_path) w) as [[[]|e] w0] eqn:Hmk; [|done].
  pose proof (makedirs_base_keeps_marker_absent _ _ _ _ _ Hplain Hmk Hno) as Hno0.
  fold (extract_dir_of E part_id target_path).
  fold (completion_marker_of E part_id target_path).
  fold (tar_path_of E part_id target_path).
  fold (log_file_of E target_path).
  unfold try_except.
  match goal with
  | |- context [bind (os_path_exists E ?m) ?body w0] =>
      destruct (bind (os_path_exists E m) body w0) as [[r0|e] w1] eqn:Hbody
  end.
  - intros [= <- <-].
    unfold bind at 1, os_path_exists in Hbody. rewrite Hno0 in Hbody.
    unfold bind at 1 in Hbody.
    destruct (cleanup_stale E part_id _ _ w0) as [[[]|e] w2]; [|done].
    unfold fresh_download, bind at 1, position_manager_acquire, try_finally in Hbody.
    match type of Hbody with
    | context [process E ?a ?b ?c ?d ?e ?f ?g ?w3] =>
        destruct (process E a b c d e f g w3) as [[r1|e1] w4] eqn:Hp
    end; unfold position_manager_release in Hbody; [|done].
    injection Hbody as <- <-.
    by apply process_returned in Hp as [-> _].
  - intros Hfail. by apply on_failure_returned in Hfail as [-> _].
Qed.

(** X17. [download_tar] skips an item only when its marker is there:
    for an item with a plain name whose completion marker does not
    exist, whatever the call returns is not marked as skipped. *)
Theorem unmarked_item_is_not_skipped (part_id : string) (target_path : option string)
    (main_link : string) (delete_tar : bool) (w : world) (r : result) :
  plain part_id = true →
  exists_at (fs w) (key E (completion_marker_of E part_id target_path)) = false →
  (download_tar E part_id target_path main_link delete_tar w).1 = Ok r →
  skipped r = false.
Proof.
  intros Hplain Hno Hrun.
  destruct (download_tar E part_id target_path main_link delete_tar w) as [r0 w'] eqn:Hd.
  simpl in Hrun. subst r0. by eapply download_tar_skips_only_marked.
Qed.

End SkipOnlyMarked.

(** ** The status report agrees with the downloader *)

Section ResumeFacts.
Context (E : Env).
Import PosixPath PathFacts FsFacts.

Lemma classify_spec (part_ids : list string) (target_path : string)
    (completed pending : list string) (w : world) :
  classify E part_ids target_path completed pending w
  = (Ok (completed ++ filter (marked E target_path (fs w)) part_ids,
         pending ++ filter (fun part_id => ¬ marked E target_path (fs w) part_id) part_ids),
     w).
Proof.
  revert completed pending. induction part_ids as [|part_id rest IH];
    intros completed pending; simpl.
  - unfold ret. by rewrite !app_nil_r.
  - unfold bind, os_path_exists. rewrite !filter_cons.
    destruct (decide (marked E target_path (fs w) part_id)) as [Hm|Hm].
    + rewrite decide_False by (intros H; by apply H).
      unfold marked in Hm. rewrite Hm, IH. by rewrite <- app_assoc.
    + rewrite decide_True by done.
      unfold marked in Hm. apply not_true_is_false in Hm. rewrite Hm, IH.
      by rewrite <- app_assoc.
Qed.

Lemma marker_of_target (part_id target_path : string) :
  nonempty target_path = true →
  completion_marker_of E part_id (Some target_path)
  = join (join target_path part_id) marker_name.
Proof.
  intros H. unfold completion_marker_of, extract_dir_of, base_dir_of. by rewrite H.
Qed.

(** X18. The status report agrees with the downloader.  The loop of
    [check_resume_status] changes nothing and sorts every part id into
    exactly one of [completed] and [pending]; on a well-formed tree, for
    plain ids and a given output root, [download_tar] skips every item
    the report calls completed, without a request, and skips no item the
    report calls pending. *)
Theorem status_report_agrees_with_downloader (part_ids : list string)
    (target_path : string) (w : world) :
  fs_wf (fs w) →
  Forall (fun part_id => plain part_id = true) part_ids →
  nonempty target_path = true →
  ∃ completed pending,
    classify E part_ids target_path [] [] w = (Ok (completed, pending), w)
    ∧ completed ++ pending ≡ₚ part_ids
    ∧ (∀ part_id main_link delete_tar, part_id ∈ completed →
         ∃ w', download_tar E part_id (Some target_path) main_link delete_tar w
               = (Ok (skipped_result part_id), w')
               ∧ requests w' = requests w ∧ fs w' = fs w)
    ∧ (∀ part_id main_link delete_tar r, part_id ∈ pending →
         (download_tar E part_id (Some target_path) main_link delete_tar w).1 = Ok r →
         skipped r = false).
Proof.
  intros Hwf Hplain Hne.
  exists (filter (marked E target_path (fs w)) part_ids),
         (filter (fun part_id => ¬ marked E target_path (fs w) part_id) part_ids).
  split; [by rewrite classify_spec|].
  split; [apply filter_app_complement|].
  split.
  - intros part_id main_link delete_tar Hin.
    apply list_elem_of_filter in Hin as [Hm Hin].
    pose proof (proj1 (Forall_forall _ _) Hplain _ Hin) as Hid. simpl in Hid.
    unfold marked in Hm. rewrite <- marker_of_target in Hm by done.
    rewrite (download_tar_skip E part_id (Some target_path) main_link delete_tar w
               Hwf Hid Hm).
    eexists. split; [reflexivity|]. done.
  - intros part_id main_link delete_tar r Hin Hrun.
    apply list_elem_of_filter in Hin as [Hm Hin].
    pose proof (proj1 (Forall_forall _ _) Hplain _ Hin) as Hid. simpl in Hid.
    unfold marked in Hm. rewrite <- marker_of_target in Hm by done.
    apply not_true_is_false in Hm.
    destruct (download_tar E part_id (Some target_path) main_link delete_tar w)
      as [r0 w'] eqn:Hd.
    simpl in Hrun. subst r0.
    by eapply (download_tar_skips_only_marked E).
Qed.

End ResumeFacts.

(** ** Runs on explicit inputs *)

Section Runs.
Import PosixPath PathFacts FsFacts.

(** C1, at an archive whose first entry is named [../evil.txt].  The
    check of line 126 lets the entry through, because [commonpath] does
    not resolve [..], and [extract_tar] writes its bytes to
    [/out/evil.txt], outside the item's directory [/out/n001]. *)
Theorem traversal_entry_is_written_outside :
  let run := extract_tar demo_traversal "n001" "/out/n001.tar" (Some "/out")
               stored_archive_world in
  commonpath ["/out/n001"; join "/out/n001" "../evil.txt"] = Ok "/out/n001"
  ∧ run.1 = Ok tt
  ∧ fs run.2 !! key demo_traversal (join "/out/n001" "../evil.txt") = Some (File "pwned")
  ∧ key demo_traversal (join "/out/n001" "../evil.txt") = ["out"; "evil.txt"]
  ∧ ¬ key demo_traversal "/out/n001" `prefix_of` ["out"; "evil.txt"].
Proof.
  repeat split; try (vm_compute; reflexivity).
  intros [r Hr]. vm_compute in Hr. discriminate Hr.
Qed.

(** C3, at an archive with an entry named [.download_complete], a file
    [x] and an entry [x/y].  The extraction raises at the third entry,
    [download_tar] returns the item as failed, and the marker that the
    first entry wrote is on disk: the next call takes the item for
    completed and skips it. *)
Theorem failed_extraction_can_leave_a_marker :
  let run := download_tar demo_marker "n001" (Some "/out") "http://host" false
               fresh_world in
  run.1 = Ok {| part_id := "n001"; success := false;
                error := Some "File exists: /out/n001/x"; skipped := false |}
  ∧ exists_at (fs run.2)
      (key demo_marker (completion_marker_of demo_marker "n001" (Some "/out"))) = true
  ∧ (download_tar demo_marker "n001" (Some "/out") "http://host" false run.2).1
    = Ok {| part_id := "n001"; success := true; error := None; skipped := true |}.
Proof. repeat split; vm_compute; reflexivity. Qed.

(** C2 fails as stated: the archive of [n001] is downloaded,
    [extract_tar] raises on it, the item is returned as failed, and the
    archive file is gone when [download_tar] returns. *)
Lemma archive_is_not_kept_after_failed_extraction :
  let run := download_tar demo_broken "n001" (Some "/out") "http://host" false
               fresh_world in
  let downloaded :=
    (fetch demo_broken "http://host/n001.tar" "/out/n001.tar"
       (position_manager_acquire "n001" fresh_world).2).2 in
  fs downloaded !! ["out"; "n001.tar"] = Some (File "not a tar")
  ∧ (extract_tar demo_broken "n001" "/out/n001.tar" (Some "/out") downloaded).1
    = Raise (ReadError "file could not be opened successfully")
  ∧ run.1 = Ok {| part_id := "n001"; success := false;
                  error := Some "file could not be opened successfully";
                  skipped := false |}
  ∧ key demo_broken (tar_path_of demo_broken "n001" (Some "/out")) = ["out"; "n001.tar"]
  ∧ fs run.2 !! ["out"; "n001.tar"] = None.
Proof. repeat split; vm_compute; reflexivity. Qed.

(** C7 fails as stated: writing the second entry, [a/b], raises because
    [a] is a file; the error is caught, the raw copy raises in the same
    way, and the extraction ends there: nothing is written for [a/b],
    and the third entry is never reached. *)
Lemma write_error_of_one_entry_ends_the_extraction :
  let run := extract_tar demo_clash "n001" "/out/n001.tar" (Some "/out")
               stored_archive_world in
  let before :=
    (extract_members demo_clash "/out/n001" [entry "a" "IMGone"]
       (os_makedirs demo_clash "/out/n001" stored_archive_world).2).2 in
  (convert_image demo_clash (Ok "IMGtwo") "/out/n001/a/b" before).1
  = Raise (FileExistsError "/out/n001/a")
  ∧ (copy_raw demo_clash (stream (Ok "IMGtwo")) "/out/n001/a/b" before).1
    = Raise (FileExistsError "/out/n001/a")
  ∧ run.1 = Raise (FileExistsError "/out/n001/a")
  ∧ fs run.2 !! ["out"; "n001"; "a"] = Some (File "JPEG:IMGone")
  ∧ fs run.2 !! ["out"; "n001"; "a"; "b"] = None
  ∧ fs run.2 !! ["out"; "n001"; "c"] = None.
Proof. repeat split; vm_compute; reflexivity. Qed.

End Runs.

(** ** Instances *)

Section Instances.
Import PosixPath PathFacts FsFacts.

Lemma position_manager_contract_witness :
  (0 < 2)%Z
  ∧ (0 ≤ (PositionManager.acquire "n002"
            (PositionManager.run [PositionManager.Acquire "n001"]
               (PositionManager.init 2))).1 < 2)%Z.
Proof.
  split; [reflexivity|].
  exact (proj1 (PositionManagerFacts.position_manager_contract 2
                  [PositionManager.Acquire "n001"] "n002" eq_refl)).
Defined.

Lemma download_batch_counts_all_witness :
  ∃ stats w',
    download_batch demo_plain ["n001"; "n001"; "n002"] "/out" 2 false "http://host"
      fresh_world = (Ok stats, w')
    ∧ (Stats.success stats + Stats.failed stats + Stats.skipped stats)%Z
      = Z.of_nat (length ["n001"; "n001"; "n002"]).
Proof.
  exact (proj1 (download_batch_counts_all demo_plain ["n001"; "n001"; "n002"] "/out" 2
                  false "http://host" fresh_world eq_refl
                  (fun futures => Permutation_refl futures))).
Defined.

Lemma completed_items_are_skipped_witness :
  fs_wf (fs completed_world)
  ∧ (∃ w', download_tar demo_plain "n001" (Some "/out") "http://host" false completed_world
           = (Ok {| part_id := "n001"; success := true; error := None; skipped := true |}, w')
           ∧ fs w' = fs completed_world
           ∧ requests w' = requests completed_world
           ∧ manager w' = manager completed_world)
  ∧ (∃ w', download_batch demo_plain ["n001"] "/out" 2 false "http://host" completed_world
           = (Ok (Stats.Build 0 0 (Z.of_nat (length ["n001"]))), w')
           ∧ fs w' = fs completed_world
           ∧ requests w' = requests completed_world).
Proof.
  assert (Hwf : fs_wf (fs completed_world))
    by (apply fs_wfb_sound; vm_compute; reflexivity).
  split; [exact Hwf|].
  destruct (completed_items_are_skipped demo_plain completed_world Hwf) as [Hone Hall].
  split.
  - apply Hone; vm_compute; reflexivity.
  - apply Hall; [reflexivity|intros futures; reflexivity|].
    constructor; [|constructor]. split; vm_compute; reflexivity.
Defined.

Lemma stale_state_is_removed_witness :
  ∃ w1,
    cleanup_stale demo_plain "n001" "/out/n001" "/out/n001.tar" stale_world = (Ok tt, w1)
    ∧ (∀ k, ["out"; "n001"] `prefix_of` k → fs w1 !! k = None)
    ∧ fs w1 !! ["out"; "n001.tar"] = None
    ∧ (∀ k, ¬ ["out"; "n001"] `prefix_of` k → k ≠ ["out"; "n001.tar"] →
            fs w1 !! k = fs stale_world !! k)
    ∧ requests w1 = requests stale_world
    ∧ download_tar demo_plain "n001" (Some "/out") "http://host" false stale_world
      = try_except
          (fresh_download demo_plain "n001" (Some "/out") "/out"
             "http://host/n001.tar" "/out/n001.tar" "n001.tar" false)
          (on_failure demo_plain "n001" "/out/failed_downloads.log" "/out/n001.tar") w1.
Proof.
  apply (stale_state_is_removed demo_plain "n001" (Some "/out") "http://host" false
           stale_world stale_world).
  - vm_compute; reflexivity.
  - apply fs_wfb_sound; vm_compute; reflexivity.
  - vm_compute; reflexivity.
  - right. vm_compute; reflexivity.
  - right. exists "partial". vm_compute; reflexivity.
Defined.

Lemma extraction_failure_removes_archive_witness :
  plain "n001" = true
  ∧ (∃ w',
       download_tar demo_broken "n001" (Some "/out") "http://host" false fresh_world
       = (Ok {| part_id := "n001"; success := false;
                error := Some "file could not be opened successfully";
                skipped := false |}, w')
       ∧ (∀ b, node_at (fs w') ["out"; "n001.tar"] ≠ Some (File b))
       ∧ (∃ old, fs w' !! ["out"; "failed_downloads.log"]
                 = Some (File (old +:+ failure_line demo_broken "n001"
                                         (ReadError "file could not be opened successfully")))))
  ∧ (∀ r w',
       download_tar demo_plain "n001" (Some "/out") "http://host" false fresh_world
       = (Ok r, w') →
       success r = true → skipped r = false →
       is_file_at (fs w') ["out"; "n001.tar"]).
Proof.
  split; [reflexivity|]. split.
  - destruct (extraction_failure_removes_archive demo_broken "n001" (Some "/out")
                "http://host" false fresh_world eq_refl) as [Hraised _].
    refine (Hraised _ _ _ _ (ReadError "file could not be opened successfully")
              _ _ _ _ _ _).
    + vm_compute; reflexivity.
    + vm_compute; reflexivity.
    + vm_compute; reflexivity.
    + vm_compute; reflexivity.
    + vm_compute; reflexivity.
    + eexists. vm_compute; reflexivity.
  - intros r w' Hrun Hs Hk.
    destruct (extraction_failure_removes_archive demo_plain "n001" (Some "/out")
                "http://host" false fresh_world eq_refl) as [_ Hall].
    exact (proj2 (Hall r w' Hrun) Hs Hk).
Defined.



Lemma entry_errors_fall_back_to_raw_copy_witness :
  extract_members demo_plain "/out/n001"
    [entry "notes.txt" "hello"; entry "photo.png" "IMGpixels"]
    (os_makedirs demo_plain "/out/n001" stored_archive_world).2
  = extract_members demo_plain "/out/n001" [entry "photo.png" "IMGpixels"]
      (copy_raw demo_plain (snd (read (stream (Ok "hello")))) "/out/n001/notes.txt"
         (os_makedirs demo_plain "/out/n001" stored_archive_world).2).2.
Proof.
  refine (proj1 (proj1 (proj2 (entry_errors_fall_back_to_raw_copy demo_plain))
                   "/out/n001" (entry "notes.txt" "hello")
                   [entry "photo.png" "IMGpixels"] (Ok "hello")
                   (os_makedirs demo_plain "/out/n001" stored_archive_world).2
                   (PILError "cannot identify image file")
                   (os_makedirs demo_plain "/out/n001" stored_archive_world).2
                   _ _ _) _ _).
  - exists "/out/n001". split; reflexivity.
  - reflexivity.
  - vm_compute; reflexivity.
  - vm_compute; reflexivity.
Defined.

End Instances.

(** ** More instances *)

Section MoreInstances.
Import PosixPath PathFacts FsFacts.

Lemma acquire_release_round_trip_witness :
  let self := PositionManager.run [PositionManager.Acquire "n001"] (PositionManager.init 2) in
  PositionManager.release "n002" (PositionManager.acquire "n002" self).2 = self.
Proof.
  apply (PositionManagerMore.acquire_release_round_trip 2
           [PositionManager.Acquire "n001"] "n002").
  - vm_compute. discriminate.
  - vm_compute. reflexivity.
Defined.

Lemma second_acquire_loses_the_slot_witness :
  ¬ slot_known 0
      (PositionManager.run [PositionManager.Release "n001"; PositionManager.Acquire "n002"]
         (PositionManager.acquire "n001"
            (PositionManager.run [PositionManager.Acquire "n001"]
               (PositionManager.init 2))).2).
Proof.
  apply (PositionManagerMore.second_acquire_loses_the_slot 2
           [PositionManager.Acquire "n001"]
           [PositionManager.Release "n001"; PositionManager.Acquire "n002"] "n001" 0).
  - vm_compute. reflexivity.
  - vm_compute. discriminate.
Defined.

Lemma tally_is_order_independent_witness :
  let done := ("n001", Ok (skipped_result "n001")) in
  let lost := ("n002", Raise (RequestException "timeout")) in
  (tally demo_plain [lost; done] (Stats.Build 0 0 0) fresh_world).1
  = (tally demo_plain [done; lost] (Stats.Build 0 0 0) fresh_world).1.
Proof.
  exact (proj2 (tally_is_order_independent demo_plain
                  [("n001", Ok (skipped_result "n001"));
                   ("n002", Raise (RequestException "timeout"))]
                  [("n002", Raise (RequestException "timeout"));
                   ("n001", Ok (skipped_result "n001"))]
                  (Stats.Build 0 0 0) fresh_world fresh_world
                  (perm_swap _ _ _))).
Defined.

Lemma fetch_stores_the_body_witness :
  requests (fetch demo_plain "http://host/n001.tar" "/out/n001.tar" fresh_world).2
  = ["http://host/n001.tar"].
Proof.
  refine (proj1 (fetch_stores_the_body demo_plain "http://host/n001.tar" "/out/n001.tar"
                   fresh_world (<[ ["out"; "n001.tar"] := File "" ]> (fs fresh_world)) _)).
  vm_compute. reflexivity.
Defined.

Lemma download_tar_gives_the_slot_back_witness :
  manager (download_tar demo_broken "n001" (Some "/out") "http://host" false fresh_world).2
  = manager fresh_world.
Proof.
  apply (download_tar_gives_the_slot_back demo_broken "n001" (Some "/out") "http://host"
           false fresh_world 2 []).
  - reflexivity.
  - vm_compute. discriminate.
  - vm_compute. reflexivity.
Defined.

Lemma failure_log_is_append_only_witness :
  fs (on_failure demo_plain "n001" "/out/failed_downloads.log" "/out/n001.tar"
        (ReadError "boom") stored_archive_world).2 !! ["out"; "failed_downloads.log"]
  = Some (File ("n001 - boom" +:+ nl)).
Proof.
  refine (proj1 (proj2 (failure_log_is_append_only demo_plain "n001"
                          "/out/failed_downloads.log" "/out/n001.tar" (ReadError "boom")
                          stored_archive_world
                          (<[ ["out"; "failed_downloads.log"] := File "" ]>
                             (fs stored_archive_world)) _ _))).
  - vm_compute. reflexivity.
  - vm_compute. discriminate.
Defined.

Lemma failed_download_leaves_only_the_log_line_witness :
  (download_tar demo_offline "n001" (Some "/out") "http://host" false fresh_world).1
  = Ok {| part_id := "n001"; success := false;
          error := Some "connection refused"; skipped := false |}.
Proof.
  refine (proj1 (failed_download_leaves_only_the_log_line demo_offline "n001" (Some "/out")
                   "http://host" false fresh_world fresh_world fresh_world
                   (RequestException "connection refused")
                   (<[ ["out"; "failed_downloads.log"] := File "" ]> (fs fresh_world))
                   _ _ _ _ _ _)).
  - vm_compute. reflexivity.
  - vm_compute. reflexivity.
  - vm_compute. reflexivity.
  - vm_compute. reflexivity.
  - vm_compute. reflexivity.
  - vm_compute. reflexivity.
Defined.

Lemma download_tar_raises_only_without_root_or_log_witness :
  (os_makedirs demo_offline (base_dir_of demo_offline (Some "/out")) log_blocked_world).1
  = Raise (IsADirectoryError "/out/failed_downloads.log")
  ∨ IsADirectoryError "/out/failed_downloads.log"
    = IsADirectoryError (log_file_of demo_offline (Some "/out"))
  ∨ IsADirectoryError "/out/failed_downloads.log"
    = NotADirectoryError (log_file_of demo_offline (Some "/out"))
  ∨ IsADirectoryError "/out/failed_downloads.log"
    = FileNotFoundError (log_file_of demo_offline (Some "/out")).
Proof.
  apply (download_tar_raises_only_without_root_or_log demo_offline "n001" (Some "/out")
           "http://host" false log_blocked_world
           (IsADirectoryError "/out/failed_downloads.log")).
  vm_compute. reflexivity.
Defined.

Lemma extract_tar_leaves_other_files_witness :
  fs (extract_tar demo_plain "n001" "/out/n001.tar" (Some "/out") stored_archive_world).2
    !! ["out"; "n001.tar"]
  = Some (File "archive").
Proof.
  apply (extract_tar_leaves_other_files demo_plain "n001" "/out/n001.tar" (Some "/out")
           stored_archive_world ["out"; "n001.tar"] "archive").
  - vm_compute. reflexivity.
  - intros archive all _ [= <-]. vm_compute.
    repeat constructor; discriminate.
Defined.

Lemma extract_tar_removes_no_file_witness :
  is_file_at
    (fs (extract_tar demo_traversal "n001" "/out/n001.tar" (Some "/out")
           stored_archive_world).2)
    ["out"; "n001.tar"].
Proof.
  apply (extract_tar_removes_no_file demo_traversal "n001" "/out/n001.tar" (Some "/out")
           stored_archive_world ["out"; "n001.tar"]).
  exists "archive". vm_compute. reflexivity.
Defined.

Lemma download_tar_keeps_the_tree_well_formed_witness :
  fs_wf (fs (download_tar demo_traversal "n001" (Some "/out") "http://host" false
               fresh_world).2).
Proof.
  apply (download_tar_keeps_the_tree_well_formed demo_traversal "n001" (Some "/out")
           "http://host" false fresh_world).
  apply fs_wfb_sound. vm_compute. reflexivity.
Defined.

Lemma finished_item_is_skipped_afterwards_witness :
  ∃ w'',
    download_tar demo_plain "n001" (Some "/out") "http://mirror" true
      (download_tar demo_plain "n001" (Some "/out") "http://host" false fresh_world).2
    = (Ok (skipped_result "n001"), w'')
    ∧ requests w''
      = requests (download_tar demo_plain "n001" (Some "/out") "http://host" false
                    fresh_world).2.
Proof.
  destruct (finished_item_is_skipped_afterwards demo_plain "n001" (Some "/out")
              "http://host" "http://mirror" false true fresh_world
              {| part_id := "n001"; success := true; error := None; skipped := false |}
              (download_tar demo_plain "n001" (Some "/out") "http://host" false
                 fresh_world).2)
    as (w'' & Hrun & _ & Hreq & _).
  - apply fs_wfb_sound. vm_compute. reflexivity.
  - vm_compute. reflexivity.
  - vm_compute. reflexivity.
  - reflexivity.
  - exists w''. split; [exact Hrun|exact Hreq].
Defined.

Lemma clean_batch_is_not_repeated_witness :
  ∃ w2,
    download_batch demo_plain ["n001"; "n002"] "/out" 1 true "http://mirror"
      (download_batch demo_plain ["n001"; "n002"] "/out" 2 false "http://host"
         fresh_world).2
    = (Ok (Stats.Build 0 0 (Z.of_nat (length ["n001"; "n002"]))), w2)
    ∧ requests w2
      = requests (download_batch demo_plain ["n001"; "n002"] "/out" 2 false "http://host"
                    fresh_world).2.
Proof.
  destruct (clean_batch_is_not_repeated demo_plain ["n001"; "n002"] "/out" 2 1 false true
              "http://host" "http://mirror" fresh_world (Stats.Build 2 0 0)
              (download_batch demo_plain ["n001"; "n002"] "/out" 2 false "http://host"
                 fresh_world).2)
    as (w2 & Hrun & _ & Hreq).
  - apply fs_wfb_sound. vm_compute. reflexivity.
  - repeat constructor.
  - intros futures. reflexivity.
  - vm_compute. reflexivity.
  - reflexivity.
  - reflexivity.
  - exists w2. split; [exact Hrun|exact Hreq].
Defined.

Lemma unmarked_item_is_not_skipped_witness :
  skipped {| part_id := "n001"; success := true; error := None; skipped := false |}
  = false.
Proof.
  apply (unmarked_item_is_not_skipped demo_plain "n001" (Some "/out") "http://host" false
           fresh_world).
  - vm_compute. reflexivity.
  - vm_compute. reflexivity.
  - vm_compute. reflexivity.
Defined.

Lemma status_report_agrees_with_downloader_witness :
  ∃ completed pending,
    classify demo_plain ["n001"; "n002"] "/out" [] [] completed_world
    = (Ok (completed, pending), completed_world)
    ∧ completed ++ pending ≡ₚ ["n001"; "n002"].
Proof.
  destruct (status_report_agrees_with_downloader demo_plain ["n001"; "n002"] "/out"
              completed_world)
    as (completed & pending & Hrun & Hperm & _).
  - apply fs_wfb_sound. vm_compute. reflexivity.
  - repeat constructor.
  - vm_compute. reflexivity.
  - exists completed, pending. split; [exact Hrun|exact Hperm].
Defined.

End MoreInstances.
